(** * Profile analysis engine: call tree, aggregation, transforms, symbolication

    A shallow embedding of the analysis core of the profiler front end:

    - [computeCallTreeCountsAndSummary], [_getStackSelf],
      [_getInvertedStackSelf] and the [CallTree] query class
      (profile-logic/call-tree);
    - [applyFuncSubstitutionToCallPath] and
      [applyFuncSubstitutionToPathSetAndIncludeNewAncestors]
      (profile-logic/symbolication);
    - [parseTransforms] and [stringifyTransforms] (profile-logic/transforms);
    - the per-thread selectors [getFilteredThread] and
      [getCallTreeSummaryStrategy] (selectors/per-thread/thread);
    - [getCallNodeIndexToCompareCallNodeIndexTable] (selectors/per-thread).

    Numeric conventions.  JavaScript numbers that hold table indices are
    modelled as [Z] (or [nat] where the code only ever counts upwards from 0).
    [Uint32Array] and [Int32Array] stores are written with their wrap-around
    ([to_uint32], [to_int32]).  [Float32Array] cells hold sample weights; the
    weights are whole numbers ([Z]), and a store into such a cell rounds to
    24 significant bits ([to_float32]), an operation on numbers to 53
    ([to_float64]).  A typed array ignores a store outside its bounds and
    answers [undefined] to a load outside its bounds. *)

From Stdlib Require Import ZArith Lia Ascii.
From stdpp Require Import base tactics option list gmap strings sorting pretty.

Local Open Scope Z_scope.

(** ** Numbers *)

(** A JavaScript number is a binary64 float and a cell of a [Float32Array] a
    binary32 float: an operation computes the exact result and rounds it to
    the nearest value of the format, to the one with an even significand on
    a tie.  Weights, times and cells are whole numbers in this model.
    [round_to p] is the rounding of a whole number to a significand of [p]
    bits: a number of at most [p] significant bits is kept, a longer one
    loses its low bits.  The exponent range is not modelled: where the
    magnitude reaches [2 ^ 128] in a [Float32Array] ([2 ^ 1024] in a number)
    the code holds [Infinity]. *)
Definition round_to (p : Z) (x : Z) : Z :=
  let m := Z.abs x in
  let e := Z.log2 m + 1 - p in
  if e <=? 0 then x
  else
    let q := m / 2 ^ e in
    let r := m mod 2 ^ e in
    let half := 2 ^ (e - 1) in
    let q' :=
      if r <? half then q
      else if half <? r then q + 1
      else if Z.even q then q else q + 1 in
    Z.sgn x * (q' * 2 ^ e).

(** The result of an operation on numbers, and the value a store leaves in a
    [Float32Array] ([Math.fround]). *)
Definition to_float64 (z : Z) : Z := round_to 53 z.
Definition to_float32 (z : Z) : Z := round_to 24 z.

(** The cell after [cell += w] in a [Float32Array]: the sum is a number and
    the store rounds it to binary32. *)
Definition float32_add (x w : Z) : Z := to_float32 (to_float64 (x + w)).

(** ** Typed arrays *)

Definition to_uint32 (z : Z) : Z := z mod 2 ^ 32.
Definition to_int32 (z : Z) : Z := (z + 2 ^ 31) mod 2 ^ 32 - 2 ^ 31.

(** [a[i]] for a typed array: [None] stands for [undefined]. *)
Definition arr_get (a : list Z) (i : Z) : option Z :=
  if i <? 0 then None else a !! Z.to_nat i.

(** [a[i] = f(a[i])]; a store outside the bounds is dropped. *)
Definition arr_upd (f : Z → Z) (a : list Z) (i : Z) : list Z :=
  if i <? 0 then a else alter f (Z.to_nat i) a.

(** [a[i] += w] on a [Float32Array]. *)
Definition arr_add (a : list Z) (i : Z) (w : Z) : list Z :=
  arr_upd (λ x, float32_add x w) a i.

(** [a[i]++] on a [Uint32Array]. *)
Definition arr_incr32 (a : list Z) (i : Z) : list Z :=
  arr_upd (λ x, to_uint32 (x + 1)) a i.

(** [new Float32Array(n)], [new Uint32Array(n)], [new Int32Array(n)]. *)
Definition zeros (n : nat) : list Z := replicate n 0.

Definition sumZ (l : list Z) : Z := foldr Z.add 0 l.

(** ** Tables *)

(** The columns of the call node table that the aggregation and the tree
    queries read.  [cn_prefix] holds [-1] for a root. *)
Record CallNodeTable := mkCallNodeTable {
  cn_prefix : list Z;
  cn_func : list nat;
}.

Definition cn_length (t : CallNodeTable) : nat := length (cn_prefix t).

(** [prefix[i]]; the default is never read by a loop that stays below
    [cn_length]. *)
Definition prefix_at (t : CallNodeTable) (i : nat) : Z :=
  default (-1) (cn_prefix t !! i).

Record CallNodeInfo := mkCallNodeInfo {
  callNodeTable : CallNodeTable;
  stackIndexToCallNodeIndex : list nat;
}.

(** A samples-like table: [s_stack] is the [stack] column ([None] is [null]),
    [s_weight] the optional [weight] column. *)
Record SamplesLikeTable := mkSamples {
  s_stack : list (option nat);
  s_weight : option (list Z);
}.

(** [samples.weight ? samples.weight[sampleIndex] : 1].  Inside a table every
    column has the table's length, so the default of the lookup is not used. *)
Definition sample_weight (samples : SamplesLikeTable) (sampleIndex : nat) : Z :=
  match s_weight samples with
  | Some w => default 0 (w !! sampleIndex)
  | None => 1
  end.

(** Modelled from the spec: [getSampleIndexToCallNodeIndex] of
    profile-logic/profile-data, which is not among the embedded source files.  The
    mapping from stack index to call node index is total; a sample without a
    stack has no call node.  A stack index outside the mapping would read
    [undefined], for which the sample loops store nothing, as for [null];
    [None] stands for both. *)
Definition getSampleIndexToCallNodeIndex
    (stacks : list (option nat)) (stackToCallNode : list nat) : list (option nat) :=
  (λ stack, stack ≫= λ s, stackToCallNode !! s) <$> stacks.

(** ** Self weights *)

Record StackSelf := mkStackSelf {
  callNodeSelf : list Z;
  callNodeLeaf : list Z;
}.

(** One round of the sample loop of [_getStackSelf]. *)
Definition stackSelf_step (samples : SamplesLikeTable)
    (callNodeSelf : list Z) (entry : nat * option nat) : list Z :=
  match entry.2 with
  | Some callNodeIndex =>
      arr_add callNodeSelf (Z.of_nat callNodeIndex) (sample_weight samples entry.1)
  | None => callNodeSelf
  end.

Definition _getStackSelf (samples : SamplesLikeTable) (table : CallNodeTable)
    (sampleIndexToCallNodeIndex : list (option nat)) : StackSelf :=
  let callNodeSelf :=
    foldl (stackSelf_step samples) (zeros (cn_length table))
          (imap pair sampleIndexToCallNodeIndex) in
  mkStackSelf callNodeSelf callNodeSelf.

(** The first loop of [_getInvertedStackSelf]: the root of every call node,
    filled in index order into an [Int32Array]. *)
Definition callNodeToRoot_step (table : CallNodeTable)
    (callNodeToRoot : list Z) (callNodeIndex : nat) : list Z :=
  let prefixCallNode := prefix_at table callNodeIndex in
  if prefixCallNode =? -1
  then <[callNodeIndex := to_int32 (Z.of_nat callNodeIndex)]> callNodeToRoot
  else <[callNodeIndex := default 0 (arr_get callNodeToRoot prefixCallNode)]> callNodeToRoot.

Definition computeCallNodeToRoot (table : CallNodeTable) : list Z :=
  foldl (callNodeToRoot_step table) (zeros (cn_length table))
        (seq 0 (cn_length table)).

(** One round of the sample loop of [_getInvertedStackSelf]. *)
Definition invertedSelf_step (samples : SamplesLikeTable) (callNodeToRoot : list Z)
    (acc : StackSelf) (entry : nat * option nat) : StackSelf :=
  match entry.2 with
  | Some callNodeIndex =>
      let weight := sample_weight samples entry.1 in
      let self' :=
        match callNodeToRoot !! callNodeIndex with
        | Some rootIndex => arr_add (callNodeSelf acc) rootIndex weight
        | None => callNodeSelf acc
        end in
      mkStackSelf self' (arr_add (callNodeLeaf acc) (Z.of_nat callNodeIndex) weight)
  | None => acc
  end.

Definition _getInvertedStackSelf (samples : SamplesLikeTable) (table : CallNodeTable)
    (sampleIndexToCallNodeIndex : list (option nat)) : StackSelf :=
  let callNodeToRoot := computeCallNodeToRoot table in
  foldl (invertedSelf_step samples callNodeToRoot)
        (mkStackSelf (zeros (cn_length table)) (zeros (cn_length table)))
        (imap pair sampleIndexToCallNodeIndex).

(** ** Totals *)

Record CallNodeSummary := mkCallNodeSummary {
  self : list Z;
  total : list Z;
}.

Record CallTreeCountsAndSummary := mkCounts {
  callNodeChildCount : list Z;
  callNodeSummary : CallNodeSummary;
  rootCount : Z;
  rootTotalSummary : Z;
}.

(** The variables the reverse loop of [computeCallTreeCountsAndSummary]
    updates. *)
Record TotalsState := mkTotals {
  ts_total : list Z;
  ts_childCount : list Z;
  ts_rootTotal : Z;
  ts_rootCount : Z;
}.

(** The body of the reverse loop at [callNodeIndex].  The arrays have the
    length of the table, so the loads at [callNodeIndex] are inside their
    bounds and the defaults are not used. *)
Definition totals_step (table : CallNodeTable) (leaf : list Z)
    (callNodeIndex : nat) (st : TotalsState) : TotalsState :=
  let leafHere := default 0 (leaf !! callNodeIndex) in
  let total1 := arr_add (ts_total st) (Z.of_nat callNodeIndex) leafHere in
  let rootTotal1 := to_float64 (ts_rootTotal st + Z.abs leafHere) in
  let hasChildren := negb (default 0 (ts_childCount st !! callNodeIndex) =? 0) in
  let hasTotalValue := negb (default 0 (total1 !! callNodeIndex) =? 0) in
  if negb hasChildren && negb hasTotalValue
  then mkTotals total1 (ts_childCount st) rootTotal1 (ts_rootCount st)
  else
    let prefixCallNode := prefix_at table callNodeIndex in
    if prefixCallNode =? -1
    then mkTotals total1 (ts_childCount st) rootTotal1 (ts_rootCount st + 1)
    else mkTotals
           (arr_add total1 prefixCallNode (default 0 (total1 !! callNodeIndex)))
           (arr_incr32 (ts_childCount st) prefixCallNode)
           rootTotal1 (ts_rootCount st).

(** [totals_loop k] runs the body for [k - 1], [k - 2], ..., [0]. *)
Fixpoint totals_loop (table : CallNodeTable) (leaf : list Z)
    (k : nat) (st : TotalsState) : TotalsState :=
  match k with
  | O => st
  | S k' => totals_loop table leaf k' (totals_step table leaf k' st)
  end.

(** The snap of the first total after the loop:
    [if (!invertCallstack && callNodeTotalSummary[0] < 10)]. *)
Definition snap_root (invertCallstack : bool) (totals : list Z) : list Z :=
  match totals !! 0%nat with
  | Some t0 => if negb invertCallstack && (t0 <? 10) then <[0%nat := 0]> totals else totals
  | None => totals
  end.

Definition computeCallTreeCountsAndSummary (samples : SamplesLikeTable)
    (info : CallNodeInfo) (interval : Z) (invertCallstack : bool)
    : CallTreeCountsAndSummary :=
  let table := callNodeTable info in
  let sampleIndexToCallNodeIndex :=
    getSampleIndexToCallNodeIndex (s_stack samples) (stackIndexToCallNodeIndex info) in
  let ss :=
    if invertCallstack
    then _getInvertedStackSelf samples table sampleIndexToCallNodeIndex
    else _getStackSelf samples table sampleIndexToCallNodeIndex in
  let n := cn_length table in
  let st := totals_loop table (callNodeLeaf ss) n (mkTotals (zeros n) (zeros n) 0 0) in
  mkCounts (ts_childCount st)
           (mkCallNodeSummary (callNodeSelf ss) (snap_root invertCallstack (ts_total st)))
           (ts_rootCount st) (ts_rootTotal st).

(** The totals as the reverse loop leaves them, before the first one is
    snapped: the local [callNodeTotalSummary] at the end of the loop. *)
Definition accumulatedTotals (samples : SamplesLikeTable) (info : CallNodeInfo)
    (invertCallstack : bool) : list Z :=
  let table := callNodeTable info in
  let sampleIndexToCallNodeIndex :=
    getSampleIndexToCallNodeIndex (s_stack samples) (stackIndexToCallNodeIndex info) in
  let ss :=
    if invertCallstack
    then _getInvertedStackSelf samples table sampleIndexToCallNodeIndex
    else _getStackSelf samples table sampleIndexToCallNodeIndex in
  let n := cn_length table in
  ts_total (totals_loop table (callNodeLeaf ss) n (mkTotals (zeros n) (zeros n) 0 0)).

(** ** The call tree *)

(** The part of a thread that [CallTree.getNodeData] and the selector of the
    per-thread selectors read: the [name] column of the func table, the
    string table, the samples table with its optional [threadCPUDelta]
    column, and the two optional allocation tables. *)
Record Thread := mkThread {
  funcTable_name : list nat;
  stringTable : list string;
  th_samples : SamplesLikeTable;
  th_threadCPUDelta : option (list Z);
  th_jsAllocations : option SamplesLikeTable;
  th_nativeAllocations : option SamplesLikeTable;
}.

(** [table.length]: the number of rows. *)
Definition s_length (table : SamplesLikeTable) : nat := length (s_stack table).

(** The fields of the class that the modelled methods read.  [_children] is
    the lazily filled cache, indexed by call node index ([-1] for the roots).
    The categories, the display data memo, [_jsOnly], [_interval],
    [_isHighPrecision] and [_weightType] only feed the display strings. *)
Record CallTree := mkCallTree {
  _thread : Thread;
  _callNodeTable : CallNodeTable;
  _callNodeSummary : CallNodeSummary;
  _callNodeChildCount : list Z;
  _rootTotalSummary : Z;
  _rootCount : Z;
  _children : gmap Z (list nat);
}.

(** [x !== 0] for a value read from a typed array; [undefined !== 0] holds. *)
Definition is_nonzero (x : option Z) : bool :=
  match x with
  | Some 0 => false
  | _ => true
  end.

(** The test of one candidate row in [getChildren]. *)
Definition is_child (t : CallTree) (callNodeIndex : Z) (child : nat) : bool :=
  bool_decide (cn_prefix (_callNodeTable t) !! child = Some callNodeIndex)
  && (is_nonzero (total (_callNodeSummary t) !! child)
      || is_nonzero (_callNodeChildCount t !! child)).

(** The scan of [getChildren]: the candidates are the rows after
    [callNodeIndex], in index order; the loop stops as soon as [childCount]
    children are found. *)
Fixpoint children_scan (t : CallTree) (callNodeIndex childCount : Z)
    (candidates children : list nat) : list nat :=
  match candidates with
  | [] => children
  | child :: rest =>
      if Z.of_nat (length children) <? childCount
      then children_scan t callNodeIndex childCount rest
             (if is_child t callNodeIndex child then children ++ [child] else children)
      else children
  end.

(** [Array.prototype.sort] with a comparator: a stable sort.  An element goes
    before the first element of the sorted rest that the comparator does not
    put before it. *)
Fixpoint sort_insert {A} (cmp : A → A → Z) (x : A) (l : list A) : list A :=
  match l with
  | [] => [x]
  | y :: l' => if cmp x y <=? 0 then x :: y :: l' else y :: sort_insert cmp x l'
  end.

Definition js_sort {A} (cmp : A → A → Z) (l : list A) : list A :=
  foldr (sort_insert cmp) [] l.

(** [this._callNodeSummary.total[a]] for a row of the table. *)
Definition total_at (t : CallTree) (a : nat) : Z :=
  default 0 (total (_callNodeSummary t) !! a).

(** The comparator handed to [children.sort]. *)
Definition compareChildren (t : CallTree) (a b : nat) : Z :=
  let ta := total_at t a in
  let tb := total_at t b in
  if (Z.abs ta =? Z.abs tb) && (0 <? ta) && (tb <? 0) then -1
  else if (Z.abs ta =? Z.abs tb) && (ta <? 0) && (0 <? tb) then 1
  else Z.abs tb - Z.abs ta.

(** The children of a call node as [getChildren] computes them on a cache
    miss. *)
Definition computeChildren (t : CallTree) (callNodeIndex : Z) : list nat :=
  let childCount :=
    if callNodeIndex =? -1 then Some (_rootCount t)
    else arr_get (_callNodeChildCount t) callNodeIndex in
  let start := Z.to_nat (callNodeIndex + 1) in
  let children :=
    match childCount with
    | Some count =>
        children_scan t callNodeIndex count
          (seq start (cn_length (_callNodeTable t) - start)) []
    | None => []
    end in
  js_sort (compareChildren t) children.

(** [getChildren]: the answer and the tree with its cache filled. *)
Definition getChildren (t : CallTree) (callNodeIndex : Z) : list nat * CallTree :=
  match _children t !! callNodeIndex with
  | Some children => (children, t)
  | None =>
      let children := computeChildren t callNodeIndex in
      (children,
       mkCallTree (_thread t) (_callNodeTable t) (_callNodeSummary t)
         (_callNodeChildCount t) (_rootTotalSummary t) (_rootCount t)
         (<[callNodeIndex := children]> (_children t)))
  end.

Definition getRoots (t : CallTree) : list nat * CallTree := getChildren t (-1).

(** What [getNodeData] returns, without the two relative values (quotients by
    [_rootTotalSummary], computed in floating point). *)
Record CallNodeData := mkCallNodeData {
  funcName : string;
  nd_total : Z;
  nd_self : Z;
}.

(** [getNodeData]; [None] when the index or one of the references it follows
    is outside its table. *)
Definition getNodeData (t : CallTree) (callNodeIndex : nat) : option CallNodeData :=
  funcIndex ← cn_func (_callNodeTable t) !! callNodeIndex;
  nameIndex ← funcTable_name (_thread t) !! funcIndex;
  name ← stringTable (_thread t) !! nameIndex;
  tot ← total (_callNodeSummary t) !! callNodeIndex;
  slf ← self (_callNodeSummary t) !! callNodeIndex;
  Some (mkCallNodeData name tot slf).

(** [getCallTree]: the constructor call, with an empty cache. *)
Definition getCallTree (thread : Thread) (info : CallNodeInfo)
    (counts : CallTreeCountsAndSummary) : CallTree :=
  mkCallTree thread (callNodeTable info) (callNodeSummary counts)
    (callNodeChildCount counts) (rootTotalSummary counts) (rootCount counts) ∅.

(** ** A thread with three samples of one stack

    Three functions [A], [B], [C]; one stack [A → B → C]; three samples, all
    on the leaf stack, without a weight column (so each weighs 1).  The call
    node table of this stack table has one row per stack. *)
Module Scenario.

Definition samples : SamplesLikeTable :=
  mkSamples [Some 2; Some 2; Some 2]%nat None.

Definition thread : Thread :=
  mkThread [0; 1; 2]%nat ["A"; "B"; "C"]%string samples None None None.

Definition info : CallNodeInfo :=
  mkCallNodeInfo (mkCallNodeTable [-1; 0; 1] [0; 1; 2]%nat) [0; 1; 2]%nat.

Definition tree : CallTree :=
  getCallTree thread info (computeCallTreeCountsAndSummary samples info 1 false).

(** What the scenario looks like to a caller of the tree: the roots, and
    for each of the three nodes its data and its children. *)
Definition view : list nat * list (option CallNodeData * list nat) :=
  ((getRoots tree).1,
   (λ i : nat, (getNodeData tree i, (getChildren tree (Z.of_nat i)).1)) <$> [0; 1; 2]%nat).

(** One root whose total is -100: a single sample of weight -100, as a diff
    profile has them. *)
Definition negInfo : CallNodeInfo :=
  mkCallNodeInfo (mkCallNodeTable [-1] [0]%nat) [0]%nat.

Definition negSamples : SamplesLikeTable :=
  mkSamples [Some 0%nat] (Some [-100]).

End Scenario.

(** ** Well-formed inputs of the aggregation *)

(** The sum of the weights of the samples that have a stack. *)
Definition weightOfNonNullStacks (samples : SamplesLikeTable) : Z :=
  sumZ (imap (λ i (stack : option nat),
                match stack with
                | Some _ => sample_weight samples i
                | None => 0
                end) (s_stack samples)).

(** Parent-before-child order of the call node table: the prefix of a row is
    [-1] or a smaller row.  Row indices are stored in [Int32Array] columns, so
    the table has fewer than [2 ^ 31] rows. *)
Definition table_wfb (t : CallNodeTable) : bool :=
  (Z.of_nat (cn_length t) <? 2 ^ 31) &&
  forallb (λ e : nat * Z, (e.2 =? -1) || ((0 <=? e.2) && (e.2 <? Z.of_nat e.1)))
          (imap pair (cn_prefix t)).

(** The columns of the samples table have one length, every stack reference
    is a row of the stack table and every call node reference a row of the
    call node table. *)
Definition samples_wfb (samples : SamplesLikeTable) (info : CallNodeInfo) : bool :=
  match s_weight samples with
  | Some w => bool_decide (length w = length (s_stack samples))
  | None => true
  end
  && forallb (λ stack : option nat,
                match stack with
                | None => true
                | Some s =>
                    match stackIndexToCallNodeIndex info !! s with
                    | Some c => bool_decide (c < cn_length (callNodeTable info))%nat
                    | None => false
                    end
                end) (s_stack samples).

(** A row of the call node table that is not a root. *)
Definition is_non_root (t : CallNodeTable) (j : nat) : Prop :=
  ∃ p, cn_prefix t !! j = Some p ∧ p ≠ -1.

(** The weight one round of a sample loop adds: that of the sample when it
    has a call node, nothing otherwise. *)
Definition entry_weight (samples : SamplesLikeTable) (e : nat * option nat) : Z :=
  match e.2 with
  | Some _ => sample_weight samples e.1
  | None => 0
  end.

(** The sum of the absolute weights of the samples that have a stack.  When
    it is at most [2 ^ 24], every sum of weights of samples is a whole
    number of at most 24 bits, which a cell of a [Float32Array] holds as it
    is. *)
Definition magnitudeOfNonNullStacks (samples : SamplesLikeTable) : Z :=
  sumZ (imap (λ i (stack : option nat),
                match stack with
                | Some _ => Z.abs (sample_weight samples i)
                | None => 0
                end) (s_stack samples)).

(** The sum of the absolute weights the rounds of a sample loop add. *)
Definition entries_magnitude (samples : SamplesLikeTable)
    (entries : list (nat * option nat)) : Z :=
  sumZ ((λ e, Z.abs (entry_weight samples e)) <$> entries).

(** The weight of the samples whose call node passes a test. *)
Definition weightOfSamples (samples : SamplesLikeTable)
    (sampleIndexToCallNodeIndex : list (option nat)) (test : nat → bool) : Z :=
  sumZ ((λ e : nat * option nat,
           match e.2 with
           | Some callNodeIndex =>
               if test callNodeIndex then sample_weight samples e.1 else 0
           | None => 0
           end) <$> imap pair sampleIndexToCallNodeIndex).

(** The root above a call node: the end of its chain of prefixes. *)
Inductive root_of (table : CallNodeTable) : nat → nat → Prop :=
  | root_of_root c : cn_prefix table !! c = Some (-1) → root_of table c c
  | root_of_child c p r :
      cn_prefix table !! c = Some (Z.of_nat p) → root_of table p r →
      root_of table c r.

(** One sample of weight [2 ^ 24 + 1] on a single call node. *)
Module HeavySample.
Definition samples : SamplesLikeTable := mkSamples [Some 0%nat] (Some [16777217]).
Definition info : CallNodeInfo := mkCallNodeInfo (mkCallNodeTable [-1] [0%nat]) [0%nat].
End HeavySample.

(** ** The order of the children of a call node *)


(** The trees that calls of [getChildren] lead to from a given tree: they
    differ in the cache only. *)
Inductive queried_from (t0 : CallTree) : CallTree → Prop :=
  | queried_refl : queried_from t0 t0
  | queried_step t i : queried_from t0 t → queried_from t0 (getChildren t i).2.

(** The rows a reverse loop of the aggregation counts for [node]: those
    below [k] whose prefix is [node] and whose total or child count in the
    state [fin] is not zero. *)
Definition counted_row (table : CallNodeTable) (fin : TotalsState) (node : Z)
    (c : nat) : bool :=
  (prefix_at table c =? node)
  && (negb (default 0 (ts_total fin !! c) =? 0)
      || negb (default 0 (ts_childCount fin !! c) =? 0)).

Definition counted_rows (table : CallNodeTable) (fin : TotalsState) (node : Z)
    (k : nat) : Z :=
  Z.of_nat (length (List.filter (counted_row table fin node) (seq 0 k))).

(** Whether the body of the reverse loop goes past its [continue] at row
    [k]: the row has children counted so far, or its total is not zero. *)
Definition step_active (leaf : list Z) (k : nat) (st : TotalsState) : bool :=
  negb (default 0 (ts_childCount st !! k) =? 0)
  || negb (default 0 (arr_add (ts_total st) (Z.of_nat k) (default 0 (leaf !! k)) !! k) =? 0).

(** A diff profile: a root with four children whose totals are -5, 5, -20
    and 20. *)
Module DiffScenario.

Definition samples : SamplesLikeTable :=
  mkSamples [Some 1; Some 2; Some 3; Some 4]%nat (Some [-5; 5; -20; 20]).

Definition thread : Thread :=
  mkThread [0; 1; 2; 3; 4]%nat ["root"; "a"; "b"; "c"; "d"]%string samples None None None.

Definition info : CallNodeInfo :=
  mkCallNodeInfo (mkCallNodeTable [-1; 0; 0; 0; 0] [0; 1; 2; 3; 4]%nat)
                 [0; 1; 2; 3; 4]%nat.

Definition tree : CallTree :=
  getCallTree thread info (computeCallTreeCountsAndSummary samples info 1 false).

End DiffScenario.

(** ** Symbolication: substitution of funcs in call paths *)

(** [FuncToFuncsMap] is a [Map] from an old func to the list of new funcs; a
    call node path is a list of funcs. *)
Abbreviation FuncToFuncsMap := (gmap nat (list nat)).
Abbreviation CallNodePath := (list nat).

(** Modelled from the spec: [PathSet] of utils/path, which is not among the
    embedded source files: a set of call node paths. *)
Abbreviation PathSet := (gset (list nat)).

Definition applyFuncSubstitutionToCallPath (oldFuncToNewFuncsMap : FuncToFuncsMap)
    (path : CallNodePath) : CallNodePath :=
  foldl (λ accum oldFunc,
           match oldFuncToNewFuncsMap !! oldFunc with
           | None => accum ++ [oldFunc]
           | Some newFuncs => accum ++ newFuncs
           end) [] path.

(** The paths one call path of the old set puts into [newPathSet]: the
    substituted path and, when its leaf is replaced by several funcs, the
    substituted path without its last [i] funcs, for [i] from 1 to one less
    than their number.  The leaf of an empty path is [undefined], which is
    not a key of the map. *)
Definition substitutedPaths (oldFuncToNewFuncsMap : FuncToFuncsMap)
    (callPath : CallNodePath) : list CallNodePath :=
  let newCallPath := applyFuncSubstitutionToCallPath oldFuncToNewFuncsMap callPath in
  let mappedOldLeafSubpathLen :=
    match last callPath with
    | Some oldLeaf => length (applyFuncSubstitutionToCallPath oldFuncToNewFuncsMap [oldLeaf])
    | None => 1%nat
    end in
  newCallPath ::
    (if (1 <? mappedOldLeafSubpathLen)%nat
     then (λ i, take (length newCallPath - i) newCallPath)
            <$> seq 1 (mappedOldLeafSubpathLen - 1)
     else []).

Definition applyFuncSubstitutionToPathSetAndIncludeNewAncestors
    (oldFuncToNewFuncsMap : FuncToFuncsMap) (pathSet : PathSet) : PathSet :=
  list_to_set
    (foldl (λ newPathSet callPath,
              newPathSet ++ substitutedPaths oldFuncToNewFuncsMap callPath)
           [] (elements pathSet)).

(** What the substitution puts in the place of one func. *)
Definition funcSubstitution (oldFuncToNewFuncsMap : FuncToFuncsMap)
    (oldFunc : nat) : list nat :=
  default [oldFunc] (oldFuncToNewFuncsMap !! oldFunc).

(** The map and the inputs of the inlining scenario: func 7 becomes 7, 9. *)
Module Inlining.
Definition map : FuncToFuncsMap := {[ 7%nat := [7; 9]%nat ]}.
Definition path : CallNodePath := [1; 7; 3]%nat.
Definition pathSet : PathSet := {[ [1; 7]%nat ]}.
End Inlining.

(** ** The strategy of the call tree summary *)

Inductive CallTreeSummaryStrategy :=
  | timing
  | js_allocations
  | native_allocations
  | native_retained_allocations
  | native_deallocations_sites
  | native_deallocations_memory.

(** The selector [getCallTreeSummaryStrategy], as a function of the thread
    and of the strategy selected last. *)
Definition getCallTreeSummaryStrategy (thread : Thread)
    (lastSelectedCallTreeSummaryStrategy : CallTreeSummaryStrategy)
    : CallTreeSummaryStrategy :=
  match lastSelectedCallTreeSummaryStrategy with
  | timing =>
      if (s_length (th_samples thread) =? 0)%nat
         && match th_nativeAllocations thread with
            | Some nativeAllocations => (0 <? s_length nativeAllocations)%nat
            | None => false
            end
      then native_allocations
      else lastSelectedCallTreeSummaryStrategy
  | js_allocations =>
      match th_jsAllocations thread with
      | None => timing
      | Some _ => lastSelectedCallTreeSummaryStrategy
      end
  | native_allocations
  | native_retained_allocations
  | native_deallocations_sites
  | native_deallocations_memory =>
      match th_nativeAllocations thread with
      | None => timing
      | Some _ => lastSelectedCallTreeSummaryStrategy
      end
  end.

(** The strategies that read the native allocations table. *)
Definition uses_native_allocations (s : CallTreeSummaryStrategy) : bool :=
  match s with
  | native_allocations | native_retained_allocations
  | native_deallocations_sites | native_deallocations_memory => true
  | timing | js_allocations => false
  end.

(** A thread without samples but with two native allocations. *)
Definition allocationsOnlyThread : Thread :=
  mkThread [] [] (mkSamples [] None) None None
           (Some (mkSamples [Some 0; Some 0]%nat (Some [16; 32]))).

(** ** Correspondence of the call nodes of two trees *)

Section Correspondence.
(** [cyrb53] of utils/hash and [getFileNameAnnotationForFunc] of
    profile-logic/profile-data are not among the embedded source files; the
    selector is embedded for any hash function and any annotation.  The
    annotation is a function of the func of the call node ([None] when the
    [func] column has no such row) and of the tables of the thread. *)
Variable cyrb53 : string → N.
Variable getFileNameAnnotationForFunc : option nat → Thread → string.

Definition _getFileNameAnnotation (t : CallTree) (callNodeIndex : nat) : string :=
  getFileNameAnnotationForFunc (cn_func (_callNodeTable t) !! callNodeIndex) (_thread t).

(** [prefixPaths[prefix] ?? 0] on an ordinary array: [undefined] outside
    the array, also for the prefix [-1] of a root. *)
Definition prefixPath_at (prefixPaths : list N) (prefix : Z) : N :=
  if prefix <? 0 then 0%N else default 0%N (prefixPaths !! Z.to_nat prefix).

(** [cyrb53(`${prefixPath}${libName}`)] for the call node [callNodeIndex]. *)
Definition pathHash (t : CallTree) (prefixPaths : list N) (callNodeIndex : nat) : N :=
  let prefix := prefix_at (_callNodeTable t) callNodeIndex in
  let prefixPath := prefixPath_at prefixPaths prefix in
  let libName := _getFileNameAnnotation t callNodeIndex in
  cyrb53 (pretty prefixPath +:+ libName).

(** The body of the loop over the compare tree: the array of path hashes
    and the record from path hash to call node index. *)
Definition compare_step (t : CallTree) (st : list N * gmap N nat)
    (callNodeIndex : nat) : list N * gmap N nat :=
  let path := pathHash t st.1 callNodeIndex in
  (<[callNodeIndex := path]> st.1, <[path := callNodeIndex]> st.2).

(** The body of the loop over the selected tree: the array of path hashes
    and the resulting [Map].  A value [None] is the value [undefined] that
    the record answers for a path hash it does not hold; [Map.set] stores
    it under the key all the same. *)
Definition selected_step (t : CallTree) (compareCallNodePathCache : gmap N nat)
    (st : list N * gmap nat (option nat)) (callNodeIndex : nat)
    : list N * gmap nat (option nat) :=
  let path := pathHash t st.1 callNodeIndex in
  (<[callNodeIndex := path]> st.1,
   <[callNodeIndex := compareCallNodePathCache !! path]> st.2).

Definition compare_loop (compareCallTree : CallTree) (k : nat) : list N * gmap N nat :=
  foldl (compare_step compareCallTree)
        (replicate (cn_length (_callNodeTable compareCallTree)) 0%N, ∅) (seq 0 k).

Definition selected_loop (selectedCallTree : CallTree) (cache : gmap N nat) (k : nat)
    : list N * gmap nat (option nat) :=
  foldl (selected_step selectedCallTree cache)
        (replicate (cn_length (_callNodeTable selectedCallTree)) 0%N, ∅) (seq 0 k).

Definition getCallNodeIndexToCompareCallNodeIndexTable
    (selectedCallTree compareCallTree : CallTree) : gmap nat (option nat) :=
  let cache :=
    (compare_loop compareCallTree (cn_length (_callNodeTable compareCallTree))).2 in
  (selected_loop selectedCallTree cache
     (cn_length (_callNodeTable selectedCallTree))).2.

(** The rolling path hashes of a tree: the array [comparePrefixPaths] (or
    [selectedPrefixPaths]) when its loop ends. *)
Definition pathHashes_upto (t : CallTree) (k : nat) : list N :=
  foldl (λ paths i, <[i := pathHash t paths i]> paths)
        (replicate (cn_length (_callNodeTable t)) 0%N) (seq 0 k).

Definition pathHashes (t : CallTree) : list N :=
  pathHashes_upto t (cn_length (_callNodeTable t)).

(** The rolling path hash of a call node: the hash its round of the loop
    computes. *)
Definition rollingHash (t : CallTree) (callNodeIndex : nat) : N :=
  pathHash t (pathHashes_upto t callNodeIndex) callNodeIndex.

(** [Map.prototype.get]: [undefined] for a key that is absent and for a key
    whose value is [undefined]. *)
Definition Map_get (m : gmap nat (option nat)) (key : nat) : option nat :=
  mjoin (m !! key).

(** [Map.prototype.has]. *)
Definition Map_has (m : gmap nat (option nat)) (key : nat) : bool :=
  bool_decide (is_Some (m !! key)).
End Correspondence.

(** A tree without call nodes. *)
Definition emptyTree : CallTree :=
  getCallTree (mkThread [] [] (mkSamples [] None) None None None)
    (mkCallNodeInfo (mkCallNodeTable [] []) [])
    (computeCallTreeCountsAndSummary (mkSamples [] None)
       (mkCallNodeInfo (mkCallNodeTable [] []) []) 1 false).

(** ** Transforms and their encoding *)

(** Strings are sequences of code units; the model has the code units below
    256.  [split sep s] is [s.split(sep)] for a separator of one character,
    [String.concat sep l] is [l.join(sep)]. *)
Fixpoint split (sep : ascii) (s : string) : list string :=
  match s with
  | EmptyString => [EmptyString]
  | String c s' =>
      if Ascii.eqb c sep then EmptyString :: split sep s'
      else match split sep s' with
           | x :: xs => String c x :: xs
           | [] => [String c EmptyString]
           end
  end.

(** The characters [parseInt] skips at the start of its input: the white
    space and line terminator code units below 256. *)
Definition is_whitespace (c : ascii) : bool :=
  let n := nat_of_ascii c in
  ((9 <=? n) && (n <=? 13) || (n =? 32) || (n =? 160))%nat.

Fixpoint trim_start (s : string) : string :=
  match s with
  | String c s' => if is_whitespace c then trim_start s' else s
  | EmptyString => EmptyString
  end.

Definition digit_value (c : ascii) : option N :=
  let n := N_of_ascii c in
  if (48 <=? n)%N && (n <=? 57)%N then Some (n - 48)%N else None.

(** The value of the longest prefix of decimal digits; [acc] is [None] until
    the first digit is read. *)
Fixpoint parse_digits (s : string) (acc : option N) : option N :=
  match s with
  | String c s' =>
      match digit_value c with
      | Some d => parse_digits s' (Some (10 * default 0 acc + d)%N)
      | None => acc
      end
  | EmptyString => acc
  end.

(** [parseInt(raw, 10)]; [None] is [NaN].  An argument [undefined] is read as
    the string ["undefined"].  The result is the number nearest to the
    numeral read, which is the numeral itself up to [2 ^ 53].  The language
    lets an implementation read the digits after the 20th as zeros, and a
    numeral of more than 308 digits may give [Infinity]: both are outside
    the model. *)
Definition parseInt (raw : option string) : option Z :=
  let inputString := default "undefined"%string raw in
  let trimmed := trim_start inputString in
  let '(sign, digits) :=
    match trimmed with
    | String "-"%char rest => (-1, rest)
    | String "+"%char rest => (1, rest)
    | _ => (1, trimmed)
    end in
  (λ n, sign * to_float64 (Z.of_N n)) <$> parse_digits digits None.

(** [Boolean(raw)] for a string or [undefined]. *)
Definition Boolean (raw : option string) : bool :=
  match raw with
  | Some s => negb (String.eqb s EmptyString)
  | None => false
  end.

Inductive ImplementationFilter := combined | js | cpp.

(** The tag as a template literal prints it. *)
Definition implementation_to_string (i : ImplementationFilter) : string :=
  match i with
  | combined => "combined"
  | js => "js"
  | cpp => "cpp"
  end.

Inductive TransformType :=
  | focus_subtree
  | focus_function
  | focus_category
  | merge_call_node
  | merge_function
  | drop_function
  | collapse_resource
  | collapse_direct_recursion
  | collapse_indirect_recursion
  | collapse_function_subtree.

(** The transform objects, one constructor per [type]; the numbers are
    JavaScript numbers that hold integers. *)
Inductive Transform :=
  | FocusSubtree (implementation : ImplementationFilter)
      (callNodePath : list nat) (inverted : bool)
  | MergeCallNode (implementation : ImplementationFilter) (callNodePath : list nat)
  | MergeFunction (funcIndex : Z)
  | FocusFunction (funcIndex : Z)
  | DropFunction (funcIndex : Z)
  | CollapseFunctionSubtree (funcIndex : Z)
  | FocusCategory (category : Z)
  | CollapseResource (resourceIndex collapsedFuncIndex : Z)
      (implementation : ImplementationFilter)
  | CollapseDirectRecursion (funcIndex : Z) (implementation : ImplementationFilter)
  | CollapseIndirectRecursion (funcIndex : Z) (implementation : ImplementationFilter).

Definition transform_type (t : Transform) : TransformType :=
  match t with
  | FocusSubtree _ _ _ => focus_subtree
  | MergeCallNode _ _ => merge_call_node
  | MergeFunction _ => merge_function
  | FocusFunction _ => focus_function
  | DropFunction _ => drop_function
  | CollapseFunctionSubtree _ => collapse_function_subtree
  | FocusCategory _ => focus_category
  | CollapseResource _ _ _ => collapse_resource
  | CollapseDirectRecursion _ _ => collapse_direct_recursion
  | CollapseIndirectRecursion _ _ => collapse_indirect_recursion
  end.

Abbreviation TransformStack := (list Transform).

(** The list the two tables are filled from, in the order of the source. *)
Definition transformTypes : list TransformType :=
  [ focus_subtree; focus_function; focus_category; merge_call_node;
    merge_function; drop_function; collapse_resource;
    collapse_direct_recursion; collapse_indirect_recursion;
    collapse_function_subtree ].

(** The [switch] that gives every transform its short key. *)
Definition shortKeyOf (transform : TransformType) : string :=
  match transform with
  | focus_subtree => "f"
  | focus_function => "ff"
  | focus_category => "fg"
  | merge_call_node => "mcn"
  | merge_function => "mf"
  | drop_function => "df"
  | collapse_resource => "cr"
  | collapse_direct_recursion => "rec"
  | collapse_indirect_recursion => "irec"
  | collapse_function_subtree => "cfs"
  end.

Global Instance TransformType_eq_dec : EqDecision TransformType.
Proof. solve_decision. Defined.

(** [TRANSFORM_TO_SHORT_KEY[transform]]: filled for every member of the list. *)
Definition TRANSFORM_TO_SHORT_KEY (transform : TransformType) : option string :=
  if decide (transform ∈ transformTypes) then Some (shortKeyOf transform) else None.

(** [SHORT_KEY_TO_TRANSFORM], filled by the same loop.  A key of
    [Object.prototype] (such as ["constructor"]) is not a transform type
    either: [convertToTransformType] answers [null] for what it finds there. *)
Definition SHORT_KEY_TO_TRANSFORM : gmap string TransformType :=
  foldl (λ table transform, <[shortKeyOf transform := transform]> table)
        ∅ transformTypes.

(** Modelled from the spec: [convertToTransformType] of utils/flow, which is
    not among the embedded source files.  It answers [null] for everything that
    is not one of the ten transform types, so that an unknown token is
    rejected; [None] is both [undefined] and [null]. *)
Definition convertToTransformType (type : option TransformType) : option TransformType :=
  type.

(** What the callback of [forEach] does with one entry of the string. *)
Inductive Outcome :=
  | Skipped
  | Pushed (transform : Transform)
  | Thrown.

Section Transforms.
(** [toValidImplementationFilter] of profile-logic/profile-data and the two
    functions of utils/uintarray-encoding are not among the embedded source
    files.  The decoder may throw: [None] stands for an exception.  The
    arguments are [None] when the tuple has no such field ([undefined]). *)
Variable toValidImplementationFilter : option string → ImplementationFilter.
Variable decodeUintArrayFromUrlComponent : option string → option (list nat).
Variable encodeUintArrayForUrlComponent : list nat → string.

(** The [switch (type)] of the callback, on the tuple of the entry. *)
Definition parseTuple (type : TransformType) (tuple : list string) : Outcome :=
  match type with
  | collapse_resource =>
      let implementation := tuple !! 1%nat in
      let resourceIndex := parseInt (tuple !! 2%nat) in
      let collapsedFuncIndex := parseInt (tuple !! 3%nat) in
      match resourceIndex, collapsedFuncIndex with
      | Some resourceIndex, Some collapsedFuncIndex =>
          if 0 <=? resourceIndex
          then Pushed (CollapseResource resourceIndex collapsedFuncIndex
                         (toValidImplementationFilter implementation))
          else Skipped
      | _, _ => Skipped
      end
  | collapse_direct_recursion | collapse_indirect_recursion =>
      let implementation := tuple !! 1%nat in
      match parseInt (tuple !! 2%nat) with
      | Some funcIndex =>
          if funcIndex <? 0 then Skipped
          else match type with
               | collapse_direct_recursion =>
                   Pushed (CollapseDirectRecursion funcIndex
                             (toValidImplementationFilter implementation))
               | _ =>
                   Pushed (CollapseIndirectRecursion funcIndex
                             (toValidImplementationFilter implementation))
               end
      | None => Skipped
      end
  | merge_function | focus_function | drop_function
  | collapse_function_subtree =>
      match parseInt (tuple !! 1%nat) with
      | Some funcIndex =>
          if 0 <=? funcIndex
          then match type with
               | merge_function => Pushed (MergeFunction funcIndex)
               | focus_function => Pushed (FocusFunction funcIndex)
               | drop_function => Pushed (DropFunction funcIndex)
               | _ => Pushed (CollapseFunctionSubtree funcIndex)
               end
          else Skipped
      | None => Skipped
      end
  | focus_category =>
      match parseInt (tuple !! 1%nat) with
      | Some category =>
          if 0 <=? category then Pushed (FocusCategory category) else Skipped
      | None => Skipped
      end
  | focus_subtree | merge_call_node =>
      let implementation := toValidImplementationFilter (tuple !! 1%nat) in
      match decodeUintArrayFromUrlComponent (tuple !! 2%nat) with
      | None => Thrown
      | Some callNodePath =>
          let inverted := Boolean (tuple !! 3%nat) in
          match type with
          | focus_subtree =>
              Pushed (FocusSubtree implementation callNodePath inverted)
          | _ => Pushed (MergeCallNode implementation callNodePath)
          end
      end
  end.

(** The callback of [forEach] in [parseTransforms]: an entry whose short
    key is not recognized is reported and left out. *)
Definition parseTransform (s : string) : Outcome :=
  let tuple := split "-" s in
  let shortKey := tuple !! 0%nat in
  match convertToTransformType (shortKey ≫= λ k, SHORT_KEY_TO_TRANSFORM !! k) with
  | None => Skipped
  | Some type => parseTuple type tuple
  end.

(** One round of [forEach] on the array [transforms]; [None] once an
    exception has left the loop. *)
Definition parse_step (transforms : option TransformStack) (s : string)
    : option TransformStack :=
  match transforms with
  | None => None
  | Some stack =>
      match parseTransform s with
      | Skipped => Some stack
      | Pushed transform => Some (stack ++ [transform])
      | Thrown => None
      end
  end.

(** [parseTransforms]; [None] when an exception escapes. *)
Definition parseTransforms (transformString : string) : option TransformStack :=
  if String.eqb transformString EmptyString then Some []
  else foldl parse_step (Some []) (split "~" transformString).

(** The callback of [map] in [stringifyTransforms]; [None] is the exception
    for a transform without a short key.  An index is printed in decimal
    digits, as a template literal prints a whole number of at most 53 bits.
    A greater number is printed with the fewest digits that denote it,
    followed by zeros or, from [10 ^ 21] on, by an exponent: that is
    outside the model. *)
Definition stringifyTransform (transform : Transform) : option string :=
  match TRANSFORM_TO_SHORT_KEY (transform_type transform) with
  | None => None
  | Some shortKey =>
      Some
        match transform with
        | MergeFunction funcIndex | DropFunction funcIndex
        | CollapseFunctionSubtree funcIndex | FocusFunction funcIndex =>
            shortKey +:+ "-" +:+ pretty funcIndex
        | FocusCategory category => shortKey +:+ "-" +:+ pretty category
        | CollapseResource resourceIndex collapsedFuncIndex implementation =>
            shortKey +:+ "-" +:+ implementation_to_string implementation
              +:+ "-" +:+ pretty resourceIndex +:+ "-" +:+ pretty collapsedFuncIndex
        | CollapseDirectRecursion funcIndex implementation
        | CollapseIndirectRecursion funcIndex implementation =>
            shortKey +:+ "-" +:+ implementation_to_string implementation
              +:+ "-" +:+ pretty funcIndex
        | FocusSubtree implementation callNodePath inverted =>
            let string :=
              String.concat "-"
                [shortKey; implementation_to_string implementation;
                 encodeUintArrayForUrlComponent callNodePath] in
            if inverted then string +:+ "-i" else string
        | MergeCallNode implementation callNodePath =>
            String.concat "-"
              [shortKey; implementation_to_string implementation;
               encodeUintArrayForUrlComponent callNodePath]
        end
  end.

(** [stringifyTransforms]: the entries joined by ["~"]. *)
Definition stringifyTransforms (transformStack : TransformStack) : option string :=
  String.concat "~" <$> mapM stringifyTransform transformStack.
End Transforms.

(** ** Canonical transform strings *)

(** [s] does not hold the character [sep]. *)
Fixpoint no_sep (sep : ascii) (s : string) : bool :=
  match s with
  | EmptyString => true
  | String c s' => negb (Ascii.eqb c sep) && no_sep sep s'
  end.

Fixpoint all_digits (s : string) : bool :=
  match s with
  | EmptyString => true
  | String c s' => bool_decide (is_Some (digit_value c)) && all_digits s'
  end.

Section Canonical.
Variable toValidImplementationFilter : option string → ImplementationFilter.
Variable decodeUintArrayFromUrlComponent : option string → option (list nat).
Variable encodeUintArrayForUrlComponent : list nat → string.

(** A numeric field in canonical form: the decimal numeral of a natural
    number that a JavaScript number holds exactly. *)
Definition canonical_number (field : string) : Prop :=
  ∃ n : N, (n < 2 ^ 53)%N ∧ field = pretty n.

(** An implementation field in canonical form: the tag that the validation
    of the field prints. *)
Definition canonical_implementation (field : string) : Prop :=
  implementation_to_string (toValidImplementationFilter (Some field)) = field.

(** A call node path field in canonical form: free of the two separators,
    and the encoding of the path it decodes to. *)
Definition canonical_path (field : string) : Prop :=
  no_sep "-" field = true ∧ no_sep "~" field = true
  ∧ ∃ path, decodeUintArrayFromUrlComponent (Some field) = Some path
            ∧ encodeUintArrayForUrlComponent path = field.

(** The transforms whose only field is a func index. *)
Definition funcIndexTypes : list TransformType :=
  [merge_function; focus_function; drop_function; collapse_function_subtree].

Definition recursionTypes : list TransformType :=
  [collapse_direct_recursion; collapse_indirect_recursion].

(** The canonical encodings of one transform: a short key and the fields
    of its variant, joined by ["-"]. *)
Inductive canonical_entry : string → Prop :=
  | canonical_funcIndex type funcIndex :
      type ∈ funcIndexTypes → canonical_number funcIndex →
      canonical_entry (shortKeyOf type +:+ "-" +:+ funcIndex)
  | canonical_category category :
      canonical_number category →
      canonical_entry (shortKeyOf focus_category +:+ "-" +:+ category)
  | canonical_resource implementation resourceIndex collapsedFuncIndex :
      canonical_implementation implementation →
      canonical_number resourceIndex → canonical_number collapsedFuncIndex →
      canonical_entry
        (shortKeyOf collapse_resource +:+ "-" +:+ implementation
           +:+ "-" +:+ resourceIndex +:+ "-" +:+ collapsedFuncIndex)
  | canonical_recursion type implementation funcIndex :
      type ∈ recursionTypes →
      canonical_implementation implementation → canonical_number funcIndex →
      canonical_entry
        (shortKeyOf type +:+ "-" +:+ implementation +:+ "-" +:+ funcIndex)
  | canonical_focus_subtree implementation callNodePath (inverted : bool) :
      canonical_implementation implementation → canonical_path callNodePath →
      canonical_entry
        (shortKeyOf focus_subtree +:+ "-" +:+ implementation
           +:+ "-" +:+ callNodePath +:+ (if inverted then "-i" else EmptyString))
  | canonical_merge_call_node implementation callNodePath :
      canonical_implementation implementation → canonical_path callNodePath →
      canonical_entry
        (shortKeyOf merge_call_node +:+ "-" +:+ implementation
           +:+ "-" +:+ callNodePath).

(** A canonical transform stack string: canonical entries joined by ["~"];
    the empty string is the join of no entry. *)
Definition canonical_string (s : string) : Prop :=
  ∃ entries, Forall canonical_entry entries ∧ s = String.concat "~" entries.
End Canonical.

(** A small instance of the three functions that the transforms take from
    other modules, to run the parser on: the validation keeps ["js"] and
    ["cpp"], a path of one func [n] is written as [n] letters, and the
    decoder throws on [undefined]. *)
Module ToyCodec.
Definition toValid (raw : option string) : ImplementationFilter :=
  match raw with
  | Some s => if String.eqb s "js" then js
              else if String.eqb s "cpp" then cpp else combined
  | None => combined
  end.

Definition decode (raw : option string) : option (list nat) :=
  match raw with
  | Some s => Some [String.length s]
  | None => None
  end.

Fixpoint letters (n : nat) : string :=
  match n with
  | O => EmptyString
  | S n' => String "x" (letters n')
  end.

Definition encode (path : list nat) : string :=
  match path with
  | [n] => letters n
  | _ => EmptyString
  end.

Definition parse := parseTransforms toValid decode.
Definition stringify := stringifyTransforms encode.
End ToyCodec.

(** ** What the parser does with one entry *)

(** The transform type that the short key of an entry stands for. *)
Definition entry_type (entry : string) : option TransformType :=
  split "-" entry !! 0%nat ≫= λ shortKey, SHORT_KEY_TO_TRANSFORM !! shortKey.

(** [parseInt] reads the field as a number and the number is not negative. *)
Definition index_field_ok (raw : option string) : bool :=
  match parseInt raw with
  | Some index => 0 <=? index
  | None => false
  end.

(** The validation of the numeric fields of an entry of the given type: the
    fields [parseInt] is applied to must be numbers, and the index the
    source compares with 0 must not be negative.  The two transforms that
    carry a call node path have no numeric field. *)
Definition numeric_fields_ok (type : TransformType) (tuple : list string) : bool :=
  match type with
  | collapse_resource =>
      index_field_ok (tuple !! 2%nat) && bool_decide (is_Some (parseInt (tuple !! 3%nat)))
  | collapse_direct_recursion | collapse_indirect_recursion =>
      index_field_ok (tuple !! 2%nat)
  | merge_function | focus_function | drop_function | collapse_function_subtree
  | focus_category =>
      index_field_ok (tuple !! 1%nat)
  | focus_subtree | merge_call_node => true
  end.

(** A field of at most 20 characters: the numeral [parseInt] reads in it has
    at most 20 digits, so its value is taken as it is and rounded to a
    number.  Of a longer numeral the digits after the 20th may be read as
    zeros, and a numeral of more than 308 digits may give [Infinity]. *)
Definition index_field_in_range (raw : option string) : bool :=
  match raw with
  | Some field => (String.length field <=? 20)%nat
  | None => true
  end.

(** The fields of an entry of the given type that [parseInt] is applied to
    are in that range. *)
Definition numeric_fields_in_range (type : TransformType) (tuple : list string) : bool :=
  match type with
  | collapse_resource =>
      index_field_in_range (tuple !! 2%nat) && index_field_in_range (tuple !! 3%nat)
  | collapse_direct_recursion | collapse_indirect_recursion =>
      index_field_in_range (tuple !! 2%nat)
  | merge_function | focus_function | drop_function | collapse_function_subtree
  | focus_category =>
      index_field_in_range (tuple !! 1%nat)
  | focus_subtree | merge_call_node => true
  end.

Definition numerals_in_range (transformString : string) : bool :=
  forallb (λ e, match entry_type e with
                | Some type => numeric_fields_in_range type (split "-" e)
                | None => true
                end) (split "~" transformString).

(** The transform an entry adds to the stack, if any. *)
Definition pushed_transform (o : Outcome) : option Transform :=
  match o with
  | Pushed transform => Some transform
  | _ => None
  end.

(** ** The pipeline of thread filters *)

Section Pipeline.
(** The filters themselves ([Cpu.processThreadCPUDelta] and the functions
    of profile-logic/profile-data) are not among the embedded source files;
    the selectors are embedded for any such functions. *)
Variables SampleUnits CategoryList : Type.
Variable processThreadCPUDelta : Thread → SampleUnits → Z → Thread.
Variable filterThreadByTab : Thread → gset nat → Thread.
Variable filterThreadSamplesToRange : Thread → Z → Z → Thread.
Variable filterThreadByImplementation :
  Thread → ImplementationFilter → nat → CategoryList → Thread.
Variable filterThreadToSearchStrings : Thread → option (list string) → Thread.
Variable invertCallstack : Thread → nat → Thread.

(** What the selectors read from the state for one thread. *)
Record SelectorState := mkSelectorState {
  st_thread : Thread;
  st_sampleUnits : option SampleUnits;
  st_profileInterval : Z;
  st_relevantPages : gset nat;
  st_committedRange : Z * Z;
  st_transformStack : TransformStack;
  st_implementationFilter : ImplementationFilter;
  st_defaultCategory : nat;
  st_categories : CategoryList;
  st_searchStrings : option (list string);
  st_invertCallstack : bool;
}.

Definition getCPUProcessedThread (state : SelectorState) : Thread :=
  let thread := st_thread state in
  match th_threadCPUDelta thread, st_sampleUnits state with
  | Some _, Some sampleUnits =>
      processThreadCPUDelta thread sampleUnits (st_profileInterval state)
  | _, _ => thread
  end.

Definition getTabFilteredThread (state : SelectorState) : Thread :=
  let thread := getCPUProcessedThread state in
  let relevantPages := st_relevantPages state in
  if (size relevantPages =? 0)%nat then thread
  else filterThreadByTab thread relevantPages.

Definition getRangeFilteredThread (state : SelectorState) : Thread :=
  let '(start, end_) := st_committedRange state in
  filterThreadSamplesToRange (getTabFilteredThread state) start end_.

(** The first input of this selector is [getRangeFilteredThread]. *)
Definition _getImplementationFilteredThread (state : SelectorState) : Thread :=
  filterThreadByImplementation (getRangeFilteredThread state)
    (st_implementationFilter state) (st_defaultCategory state)
    (st_categories state).

Definition _getImplementationAndSearchFilteredThread (state : SelectorState)
    : Thread :=
  filterThreadToSearchStrings (_getImplementationFilteredThread state)
    (st_searchStrings state).

Definition getFilteredThread (state : SelectorState) : Thread :=
  let thread := _getImplementationAndSearchFilteredThread state in
  if st_invertCallstack state
  then invertCallstack thread (st_defaultCategory state)
  else thread.

(** Modelled from the spec: the application of a transform stack to a
    thread, which the embedded source files do not have. *)
Variable applyTransformStack : TransformStack → Thread → Thread.

(** The pipeline in the words of the specification: the transform stack is
    applied between the range filter and the implementation filter. *)
Definition getFilteredThread_spec (state : SelectorState) : Thread :=
  let transformed :=
    applyTransformStack (st_transformStack state) (getRangeFilteredThread state) in
  let implementation :=
    filterThreadByImplementation transformed (st_implementationFilter state)
      (st_defaultCategory state) (st_categories state) in
  let searched := filterThreadToSearchStrings implementation (st_searchStrings state) in
  if st_invertCallstack state
  then invertCallstack searched (st_defaultCategory state)
  else searched.

(** The state with another transform stack. *)
Definition with_transformStack (state : SelectorState) (stack : TransformStack)
    : SelectorState :=
  mkSelectorState (st_thread state) (st_sampleUnits state) (st_profileInterval state)
    (st_relevantPages state) (st_committedRange state) stack
    (st_implementationFilter state) (st_defaultCategory state) (st_categories state)
    (st_searchStrings state) (st_invertCallstack state).
End Pipeline.

Arguments st_thread {_ _} _.
Arguments st_sampleUnits {_ _} _.
Arguments st_profileInterval {_ _} _.
Arguments st_relevantPages {_ _} _.
Arguments st_committedRange {_ _} _.
Arguments st_transformStack {_ _} _.
Arguments st_implementationFilter {_ _} _.
Arguments st_defaultCategory {_ _} _.
Arguments st_categories {_ _} _.
Arguments st_searchStrings {_ _} _.
Arguments st_invertCallstack {_ _} _.

(** An instance to run the pipeline on: filters that keep the thread (no
    relevant pages, a range and an implementation that hold every sample, no
    search string), and an application of transforms under which a
    non-empty stack leaves no sample, as [drop-function] does on a thread
    whose stacks all hold the func. *)
Module PipelineExample.
Definition dropsAllSamples (stack : TransformStack) (thread : Thread) : Thread :=
  match stack with
  | [] => thread
  | _ =>
      mkThread (funcTable_name thread) (stringTable thread) (mkSamples [] None)
        (th_threadCPUDelta thread) (th_jsAllocations thread)
        (th_nativeAllocations thread)
  end.

Definition state : SelectorState unit unit :=
  mkSelectorState unit unit Scenario.thread None 1 ∅ (0, 10) [DropFunction 1]
    combined 0%nat tt None false.
End PipelineExample.

(** * Further functions of the analysis engine

    The rest of the file embeds the functions around those above:

    - the queries [hasChildren], [getParent] and [getAllDescendants] of the
      call tree, [computeTracedTiming] and [extractSamplesLikeTable]
      (profile-logic/call-tree);
    - [FUNC_MATCHES], [filterCallNodePathByImplementation],
      [restoreAllFunctionsInCallNodePath] and [invertCallNodePath]
      (profile-logic/transforms);
    - the actions [changeSelectedCallNode], [expandAllCallNodeDescendants]
      and [updatePreviewSelection] (actions/profile-view) with
      [objectShallowEquals] (utils);
    - [mapTimeToCompareColor] (utils/colors);
    - the cache of [getThreadSelectors] (selectors/per-thread).

    Rational numbers are used qualified, for the percentages of
    [mapTimeToCompareColor]. *)

From Stdlib Require QArith Qabs Lqa.

(** ** More queries of the call tree *)

(** [hasChildren]: the answer and the tree with its cache filled. *)
Definition hasChildren (t : CallTree) (callNodeIndex : Z) : bool * CallTree :=
  let r := getChildren t callNodeIndex in
  (negb (length r.1 =? 0)%nat, r.2).

(** [getParent]: the load from the [prefix] column, [None] for [undefined]. *)
Definition getParent (t : CallTree) (callNodeIndex : Z) : option Z :=
  arr_get (cn_prefix (_callNodeTable t)) callNodeIndex.

(** [_addDescendantsToSet]: the set and the tree, both as the recursion
    leaves them.  [fuel] bounds the depth of the recursion; [None] when it
    runs out.  The order in which a [Set] lists its members is not
    modelled. *)
Fixpoint _addDescendantsToSet (fuel : nat) (t : CallTree) (callNodeIndex : Z)
    (set : gset nat) : option (gset nat * CallTree) :=
  match fuel with
  | O => None
  | S fuel' =>
      let r := getChildren t callNodeIndex in
      foldl (λ acc child,
               acc ≫= λ st : gset nat * CallTree,
                 _addDescendantsToSet fuel' st.2 (Z.of_nat child) ({[ child ]} ∪ st.1))
            (Some (set, r.2)) r.1
  end.

Definition getAllDescendants (fuel : nat) (t : CallTree) (callNodeIndex : Z)
    : option (gset nat * CallTree) :=
  _addDescendantsToSet fuel t callNodeIndex ∅.

(** The rows below a call node in the tree that [getChildren] shows: its
    children, and the rows below them. *)
Inductive descendant (t : CallTree) : Z → nat → Prop :=
  | descendant_child node c :
      c ∈ computeChildren t node → descendant t node c
  | descendant_step node c d :
      c ∈ computeChildren t node → descendant t (Z.of_nat c) d → descendant t node d.

(** A thread with a single call node and three samples on it. *)
Module SingleNode.
Definition samples : SamplesLikeTable := mkSamples [Some 0; Some 0; Some 0]%nat None.
Definition thread : Thread := mkThread [0%nat] ["A"%string] samples None None None.
Definition info : CallNodeInfo :=
  mkCallNodeInfo (mkCallNodeTable [-1] [0%nat]) [0%nat].
Definition tree (invertCallstack : bool) : CallTree :=
  getCallTree thread info
    (computeCallTreeCountsAndSummary samples info 1 invertCallstack).
End SingleNode.

(** ** Traced timing *)

(** The columns [computeTracedTiming] reads besides those of a samples-like
    table: the [time] column and the optional [weightType].  Times are whole
    numbers, as the weights are. *)
Record TimedSamples := mkTimedSamples {
  tsm_table : SamplesLikeTable;
  tsm_time : list Z;
  tsm_weightType : option string;
}.

Record TracedTiming := mkTracedTiming {
  tt_self : list Z;
  tt_running : list Z;
}.

(** The array [weight] of [computeTracedTiming]: for every sample but the
    last the time to the next sample, for the last one the interval.  The
    [time] column has the length of the table, so the defaults of the loads
    are not used. *)
Definition tracedWeights (samples : TimedSamples) (interval : Z) : list Z :=
  let length := s_length (tsm_table samples) in
  ((λ sampleIndex,
      to_float64 (default 0 (tsm_time samples !! S sampleIndex)
                  - default 0 (tsm_time samples !! sampleIndex)))
     <$> seq 0 (length - 1))
  ++ (if (0 <? length)%nat then [interval] else []).

(** The steps of the [time] column from each sample to the next, and the
    sum of their absolute values and of that of the interval: a bound for
    every sum of durations. *)
Definition timeSteps (samples : TimedSamples) : list Z :=
  (λ sampleIndex,
     default 0 (tsm_time samples !! S sampleIndex)
     - default 0 (tsm_time samples !! sampleIndex))
    <$> seq 0 (s_length (tsm_table samples) - 1).

Definition elapsed_magnitude (samples : TimedSamples) (interval : Z) : Z :=
  sumZ (Z.abs <$> timeSteps samples) + Z.abs interval.

(** [{ ...samples, weight }]. *)
Definition samplesWithWeight (samples : TimedSamples) (interval : Z) : SamplesLikeTable :=
  mkSamples (s_stack (tsm_table samples)) (Some (tracedWeights samples interval)).

(** The body of the reverse loop of [computeTracedTiming] at
    [callNodeIndex], on the pair of [callNodeTotalSummary] and
    [callNodeChildCount]. *)
Definition traced_step (table : CallNodeTable) (leaf : list Z)
    (callNodeIndex : nat) (st : list Z * list Z) : list Z * list Z :=
  let total1 := arr_add st.1 (Z.of_nat callNodeIndex) (default 0 (leaf !! callNodeIndex)) in
  let hasChildren := negb (default 0 (st.2 !! callNodeIndex) =? 0) in
  let hasTotalValue := negb (default 0 (total1 !! callNodeIndex) =? 0) in
  if negb hasChildren && negb hasTotalValue
  then (total1, st.2)
  else
    let prefixCallNode := prefix_at table callNodeIndex in
    if prefixCallNode =? -1
    then (total1, st.2)
    else (arr_add total1 prefixCallNode (default 0 (total1 !! callNodeIndex)),
          arr_incr32 st.2 prefixCallNode).

Fixpoint traced_loop (table : CallNodeTable) (leaf : list Z)
    (k : nat) (st : list Z * list Z) : list Z * list Z :=
  match k with
  | O => st
  | S k' => traced_loop table leaf k' (traced_step table leaf k' st)
  end.

(** [computeTracedTiming]; [None] is [null]. *)
Definition computeTracedTiming (samples : TimedSamples) (info : CallNodeInfo)
    (interval : Z) (invertCallstack : bool) : option TracedTiming :=
  if negb (bool_decide (tsm_weightType samples = Some "samples"%string))
     || bool_decide (is_Some (s_weight (tsm_table samples)))
  then None
  else
    let table := callNodeTable info in
    let weighted := samplesWithWeight samples interval in
    let sampleIndexToCallNodeIndex :=
      getSampleIndexToCallNodeIndex (s_stack (tsm_table samples))
        (stackIndexToCallNodeIndex info) in
    let ss :=
      if invertCallstack
      then _getInvertedStackSelf weighted table sampleIndexToCallNodeIndex
      else _getStackSelf weighted table sampleIndexToCallNodeIndex in
    let n := cn_length table in
    Some (mkTracedTiming (callNodeSelf ss)
            (traced_loop table (callNodeLeaf ss) n (zeros n, zeros n)).1).

(** Three samples of the stack of [Scenario], taken at the times 10, 12
    and 17. *)
Definition timedScenario : TimedSamples :=
  mkTimedSamples Scenario.samples [10; 12; 17] (Some "samples"%string).

(** ** The table of the call tree summary strategy *)

Section Extract.
(** The four filters of profile-logic/profile-data are not among the
    embedded source files, and the record of a samples-like table does not
    hold the [memoryAddress] column of a native allocation table;
    [extractSamplesLikeTable] is embedded for any such filters and any test
    of the presence of that column. *)
Variable hasMemoryAddress : SamplesLikeTable → bool.
Variable filterToRetainedAllocations : SamplesLikeTable → SamplesLikeTable.
Variable filterToAllocations : SamplesLikeTable → SamplesLikeTable.
Variable filterToDeallocationsSites : SamplesLikeTable → SamplesLikeTable.
Variable filterToDeallocationsMemory : SamplesLikeTable → SamplesLikeTable.

(** The two exceptions of [extractSamplesLikeTable]: that of [ensureExists]
    and that of the test of the memory addresses. *)
Inductive ExtractError := table_does_not_exist | memory_addresses_missing.

Definition ensureExists {A} (item : option A) : ExtractError + A :=
  match item with
  | Some a => inr a
  | None => inl table_does_not_exist
  end.

Definition extractSamplesLikeTable (thread : Thread)
    (strategy : CallTreeSummaryStrategy) : ExtractError + SamplesLikeTable :=
  match strategy with
  | timing => inr (th_samples thread)
  | js_allocations => ensureExists (th_jsAllocations thread)
  | native_retained_allocations =>
      match ensureExists (th_nativeAllocations thread) with
      | inl e => inl e
      | inr nativeAllocations =>
          if negb (hasMemoryAddress nativeAllocations)
          then inl memory_addresses_missing
          else inr (filterToRetainedAllocations nativeAllocations)
      end
  | native_allocations =>
      match ensureExists (th_nativeAllocations thread) with
      | inl e => inl e
      | inr nativeAllocations => inr (filterToAllocations nativeAllocations)
      end
  | native_deallocations_sites =>
      match ensureExists (th_nativeAllocations thread) with
      | inl e => inl e
      | inr nativeAllocations => inr (filterToDeallocationsSites nativeAllocations)
      end
  | native_deallocations_memory =>
      match ensureExists (th_nativeAllocations thread) with
      | inl e => inl e
      | inr nativeAllocations =>
          if negb (hasMemoryAddress nativeAllocations)
          then inl memory_addresses_missing
          else inr (filterToDeallocationsMemory nativeAllocations)
      end
  end.
End Extract.

(** ** The totals of the aggregation *)

(** The array [callNodeLeaf] that [computeCallTreeCountsAndSummary] takes
    from the sample loop. *)
Definition leafWeights (samples : SamplesLikeTable) (info : CallNodeInfo)
    (invertCallstack : bool) : list Z :=
  let table := callNodeTable info in
  let sampleIndexToCallNodeIndex :=
    getSampleIndexToCallNodeIndex (s_stack samples) (stackIndexToCallNodeIndex info) in
  callNodeLeaf
    (if invertCallstack
     then _getInvertedStackSelf samples table sampleIndexToCallNodeIndex
     else _getStackSelf samples table sampleIndexToCallNodeIndex).

(** The sum of [totals] over the rows of the table whose prefix is [node]. *)
Definition totalOfChildren (table : CallNodeTable) (totals : list Z) (node : Z) : Z :=
  sumZ ((λ c : nat, default 0 (totals !! c))
          <$> List.filter (λ c, prefix_at table c =? node) (seq 0 (cn_length table))).

(** ** Call node paths and the implementation filter *)

(** The tables of a thread that the functions on call node paths read
    besides the func names and the strings: three more columns of the func
    table, two columns of the stack table ([None] is the prefix [null] of a
    root) and the [func] column of the frame table. *)
Record PathTables := mkPathTables {
  funcTable_isJS : list bool;
  funcTable_relevantForJS : list bool;
  funcTable_resource : list Z;
  stackTable_prefix : list (option nat);
  stackTable_frame : list nat;
  frameTable_func : list nat;
}.

(** [FUNC_MATCHES[implementation](thread, funcIndex)], as the truth value
    that its callers test.  A load outside a column is [undefined], which is
    not true and not [-1]; [None] when the name of the func is not a string
    of the string table, whose [getString] is not among the embedded source
    files. *)
Definition FUNC_MATCHES (implementation : ImplementationFilter) (thread : Thread)
    (tables : PathTables) (funcIndex : nat) : option bool :=
  match implementation with
  | combined => Some true
  | cpp =>
      if default false (funcTable_isJS tables !! funcIndex) then Some false
      else
        nameIndex ← funcTable_name thread !! funcIndex;
        locationString ← stringTable thread !! nameIndex;
        let isProbablyJitCode :=
          bool_decide (funcTable_resource tables !! funcIndex = Some (-1))
          && String.prefix "0x" locationString in
        Some (negb isProbablyJitCode)
  | js =>
      Some (default false (funcTable_isJS tables !! funcIndex)
            || default false (funcTable_relevantForJS tables !! funcIndex))
  end.

(** [Array.prototype.filter] with a callback that may throw: [None] as soon
    as one call throws. *)
Fixpoint filterM {A} (f : A → option bool) (l : list A) : option (list A) :=
  match l with
  | [] => Some []
  | x :: l' =>
      b ← f x;
      r ← filterM f l';
      Some (if b : bool then x :: r else r)
  end.

Definition filterCallNodePathByImplementation (thread : Thread) (tables : PathTables)
    (implementationFilter : ImplementationFilter) (callNodePath : CallNodePath)
    : option CallNodePath :=
  filterM (FUNC_MATCHES implementationFilter thread tables) callNodePath.

(** A path of call nodes with their categories: pairs of a func and a
    category. *)
Definition filterCallNodeAndCategoryPathByImplementation (thread : Thread)
    (tables : PathTables) (implementationFilter : ImplementationFilter)
    (path : list (nat * nat)) : option (list (nat * nat)) :=
  filterM (λ funcIndex, FUNC_MATCHES implementationFilter thread tables funcIndex.1) path.

(** What a cell of [matchesUpToDepth] can hold: nothing ([undefined], also
    for a cell that was never written), [null], [NaN] (which is
    [undefined + 1]) or a depth. *)
Inductive PathDepth :=
  | depth_undefined
  | depth_null
  | depth_NaN
  | depth (d : Z).

Global Instance PathDepth_eq_dec : EqDecision PathDepth.
Proof. solve_decision. Defined.

(** [prefixPathDepth + 1]. *)
Definition depth_succ (d : PathDepth) : PathDepth :=
  match d with
  | depth_undefined | depth_NaN => depth_NaN
  | depth_null => depth 1
  | depth d => depth (d + 1)
  end.

(** [callNodePath[pathDepth]]; [None] is [undefined]. *)
Definition path_at (callNodePath : CallNodePath) (pathDepth : PathDepth) : option nat :=
  match pathDepth with
  | depth d => if d <? 0 then None else callNodePath !! Z.to_nat d
  | _ => None
  end.

(** [frameTable.func[stackTable.frame[stackIndex]]]. *)
Definition funcOfStack (tables : PathTables) (stackIndex : nat) : option nat :=
  frameIndex ← stackTable_frame tables !! stackIndex;
  frameTable_func tables !! frameIndex.

(** What one round of the first loop of [restoreAllFunctionsInCallNodePath]
    leads to: the next round, the [break] at the tip, or an end outside the
    model (the callback throws, or the func of the stack is [undefined]
    because a frame or a func index is outside its table). *)
Inductive ScanResult :=
  | scan_continue (matchesUpToDepth : gmap nat PathDepth)
  | scan_tip (tipStackIndex : nat)
  | scan_fail.

Definition restore_step (funcMatchesImplementation : nat → option bool)
    (tables : PathTables) (callNodePath : CallNodePath)
    (matchesUpToDepth : gmap nat PathDepth) (stackIndex : nat) : ScanResult :=
  match stackTable_prefix tables !! stackIndex, funcOfStack tables stackIndex with
  | Some prefix, Some funcIndex =>
      let prefixPathDepth :=
        match prefix with
        | None => depth (-1)
        | Some prefix => default depth_undefined (matchesUpToDepth !! prefix)
        end in
      match prefixPathDepth with
      | depth_null => scan_continue matchesUpToDepth
      | _ =>
          let pathDepth := depth_succ prefixPathDepth in
          if bool_decide (path_at callNodePath pathDepth = Some funcIndex)
          then
            if bool_decide (pathDepth = depth (Z.of_nat (length callNodePath) - 1))
            then scan_tip stackIndex
            else scan_continue (<[stackIndex := pathDepth]> matchesUpToDepth)
          else
            match funcMatchesImplementation funcIndex with
            | None => scan_fail
            | Some false =>
                scan_continue (<[stackIndex := prefixPathDepth]> matchesUpToDepth)
            | Some true => scan_continue (<[stackIndex := depth_null]> matchesUpToDepth)
            end
      end
  | _, _ => scan_fail
  end.

(** The first loop, over the stacks that are left: [Some None] when it ends
    without a tip. *)
Fixpoint restore_scan (funcMatchesImplementation : nat → option bool)
    (tables : PathTables) (callNodePath : CallNodePath) (stacks : list nat)
    (matchesUpToDepth : gmap nat PathDepth) : option (option nat) :=
  match stacks with
  | [] => Some None
  | stackIndex :: rest =>
      match restore_step funcMatchesImplementation tables callNodePath
              matchesUpToDepth stackIndex with
      | scan_continue matchesUpToDepth' =>
          restore_scan funcMatchesImplementation tables callNodePath rest
            matchesUpToDepth'
      | scan_tip tipStackIndex => Some (Some tipStackIndex)
      | scan_fail => None
      end
  end.

(** The second loop: the funcs from the tip up to the root.  [fuel] bounds
    the number of rounds. *)
Fixpoint restore_walk (fuel : nat) (tables : PathTables) (stackIndex : nat)
    : option (list nat) :=
  match fuel with
  | O => None
  | S fuel' =>
      funcIndex ← funcOfStack tables stackIndex;
      prefix ← stackTable_prefix tables !! stackIndex;
      match prefix with
      | None => Some [funcIndex]
      | Some prefix =>
          rest ← restore_walk fuel' tables prefix;
          Some (funcIndex :: rest)
      end
  end.

(** [restoreAllFunctionsInCallNodePath].  The second loop gets one round
    more than the stack table has rows: a walk that does not reach a root
    by then never does. *)
Definition restoreAllFunctionsInCallNodePath (thread : Thread) (tables : PathTables)
    (previousImplementationFilter : ImplementationFilter) (callNodePath : CallNodePath)
    : option CallNodePath :=
  let stackCount := length (stackTable_prefix tables) in
  tipStackIndex ←
    restore_scan (FUNC_MATCHES previousImplementationFilter thread tables) tables
      callNodePath (seq 0 stackCount) ∅;
  match tipStackIndex with
  | None => Some []
  | Some tipStackIndex =>
      newCallNodePath ← restore_walk (S stackCount) tables tipStackIndex;
      Some (rev newCallNodePath)
  end.

(** The funcs of a stack, from its root: the path that the second loop
    collects, reversed. *)
Inductive stackPath (tables : PathTables) : nat → list nat → Prop :=
  | stackPath_root i f :
      stackTable_prefix tables !! i = Some None → funcOfStack tables i = Some f →
      stackPath tables i [f]
  | stackPath_child i p f P :
      stackTable_prefix tables !! i = Some (Some p) → (p < i)%nat →
      funcOfStack tables i = Some f → stackPath tables p P →
      stackPath tables i (P ++ [f]).

(** [P] holds the first [k] funcs of [path] in order, and between them only
    funcs that the implementation filter rejects. *)
Inductive restores (funcMatchesImplementation : nat → option bool)
    (path : CallNodePath) : list nat → nat → Prop :=
  | restores_nil : restores funcMatchesImplementation path [] 0
  | restores_match P k f :
      restores funcMatchesImplementation path P k → path !! k = Some f →
      restores funcMatchesImplementation path (P ++ [f]) (S k)
  | restores_skip P k f :
      restores funcMatchesImplementation path P k →
      funcMatchesImplementation f = Some false →
      restores funcMatchesImplementation path (P ++ [f]) k.

(** What the first loop of [restoreAllFunctionsInCallNodePath] knows of the
    cells of [matchesUpToDepth] that hold a depth when it reaches the stack
    [s]: the stack of such a cell was visited, and its funcs restore the path
    up to that depth. *)
Definition scan_inv (funcMatchesImplementation : nat → option bool)
    (tables : PathTables) (path : CallNodePath)
    (matchesUpToDepth : gmap nat PathDepth) (s : nat) : Prop :=
  ∀ i d, matchesUpToDepth !! i = Some (depth d) →
    (i < s)%nat
    ∧ ∃ P k, d = Z.of_nat k - 1 ∧ stackPath tables i P
             ∧ restores funcMatchesImplementation path P k.

(** A thread with a native func [1] that calls a JS func [0]: two stacks,
    the root in the native func. *)
Module MixedStacks.
Definition thread : Thread :=
  mkThread [0; 1]%nat ["run"; "0x1234"]%string (mkSamples [Some 1%nat] None)
    None None None.
Definition tables : PathTables :=
  mkPathTables [true; false] [false; false] [0; -1]
    [None; Some 0%nat] [0; 1]%nat [1; 0]%nat.
End MixedStacks.

(** ** The inverted call node path *)


Section Invert.
(** [getCallNodeIndexFromPath] of profile-logic/profile-data is not among
    the embedded source files; [None] is its answer [null]. *)
Variable getCallNodeIndexFromPath : CallNodePath → CallNodeTable → option nat.

End Invert.


(** ** Transform stacks that the parser accepts *)

(** An index that is printed in decimal digits and read back as it is: a
    whole number from 0, below which the parser drops the entry, and below
    [2 ^ 53], so that it is a number that is printed with all its digits. *)
Definition index_in_range (index : Z) : bool := (0 <=? index) && (index <? 2 ^ 53).

Definition indices_in_range (transform : Transform) : bool :=
  match transform with
  | FocusSubtree _ _ _ | MergeCallNode _ _ => true
  | MergeFunction funcIndex | FocusFunction funcIndex | DropFunction funcIndex
  | CollapseFunctionSubtree funcIndex => index_in_range funcIndex
  | FocusCategory category => index_in_range category
  | CollapseResource resourceIndex collapsedFuncIndex _ =>
      index_in_range resourceIndex && index_in_range collapsedFuncIndex
  | CollapseDirectRecursion funcIndex _ | CollapseIndirectRecursion funcIndex _ =>
      index_in_range funcIndex
  end.

Section Printable.
Variable toValidImplementationFilter : option string → ImplementationFilter.
Variable decodeUintArrayFromUrlComponent : option string → option (list nat).
Variable encodeUintArrayForUrlComponent : list nat → string.

(** The validation accepts the tag as it is printed. *)
Definition implementation_roundtrips (implementation : ImplementationFilter) : Prop :=
  toValidImplementationFilter (Some (implementation_to_string implementation))
  = implementation.

(** The decoder gives the path back from its encoding, which holds none of
    the two separators. *)
Definition path_roundtrips (path : list nat) : Prop :=
  decodeUintArrayFromUrlComponent (Some (encodeUintArrayForUrlComponent path))
  = Some path
  ∧ no_sep "-" (encodeUintArrayForUrlComponent path) = true
  ∧ no_sep "~" (encodeUintArrayForUrlComponent path) = true.

(** A transform that the parser reads back from what is printed for it. *)
Definition printable (transform : Transform) : Prop :=
  indices_in_range transform = true
  ∧ match transform with
    | FocusSubtree implementation callNodePath _
    | MergeCallNode implementation callNodePath =>
        implementation_roundtrips implementation ∧ path_roundtrips callNodePath
    | CollapseResource _ _ implementation
    | CollapseDirectRecursion _ implementation
    | CollapseIndirectRecursion _ implementation =>
        implementation_roundtrips implementation
    | _ => True
    end.
End Printable.

(** ** Actions on the selection *)

(** [changeSelectedCallNode]: the two paths of the action, or [None] for the
    exception.  The loop compares the cells of the two arrays; a cell
    outside the expanded path is [undefined]. *)
Definition changeSelectedCallNode (selectedCallNodePath : CallNodePath)
    (optionalExpandedToCallNodePath : option CallNodePath)
    : option (CallNodePath * option CallNodePath) :=
  match optionalExpandedToCallNodePath with
  | Some expanded =>
      if forallb (λ i, bool_decide (selectedCallNodePath !! i = expanded !! i))
                 (seq 0 (length selectedCallNodePath))
      then Some (selectedCallNodePath, optionalExpandedToCallNodePath)
      else None
  | None => Some (selectedCallNodePath, None)
  end.

(** [expandAllCallNodeDescendants]: the set of call nodes whose paths the
    action carries, with the tree as [getAllDescendants] leaves it; the
    expanded call node indexes may hold [null].  [fuel] bounds the depth of
    the recursion of [getAllDescendants]. *)
Definition expandAllCallNodeDescendants (fuel : nat) (tree : CallTree)
    (callNodeIndex : nat) (expandedCallNodeIndexes : list (option nat))
    : option (gset nat * CallTree) :=
  r ← getAllDescendants fuel tree (Z.of_nat callNodeIndex);
  let descendants := {[ callNodeIndex ]} ∪ r.1 in
  Some (foldl (λ (descendants : gset nat) callNodeIndex,
                 match callNodeIndex with
                 | Some callNodeIndex => {[ callNodeIndex ]} ∪ descendants
                 | None => descendants
                 end) descendants expandedCallNodeIndexes,
        r.2).

(** ** Shallow equality of objects *)

(** The values of the properties of an object; an object or a function is
    a reference. *)
Inductive JsValue :=
  | js_undefined
  | js_null
  | js_boolean (b : bool)
  | js_number (z : Z)
  | js_NaN
  | js_string (s : string)
  | js_reference (address : nat).

Global Instance JsValue_eq_dec : EqDecision JsValue.
Proof. solve_decision. Defined.

(** [x === y]: [NaN] is not equal to itself. *)
Definition strict_equals (x y : JsValue) : bool :=
  match x with
  | js_NaN => false
  | _ => bool_decide (x = y)
  end.

(** An object: its own enumerable properties, and the properties it
    inherits through its prototype chain, which [for in] guarded by
    [hasOwnProperty] skips but [o[key]] reads where the object has no own
    property of that name.  Own properties that are not enumerable and
    accessors with effects are outside the model. *)
Record JsObject := mkObject {
  own_properties : gmap string JsValue;
  inherited_properties : gmap string JsValue;
}.

(** [o[key]]. *)
Definition js_get (o : JsObject) (key : string) : JsValue :=
  match own_properties o !! key with
  | Some value => value
  | None => default js_undefined (inherited_properties o !! key)
  end.

(** What an object literal inherits from [Object.prototype]: functions, and
    under [__proto__] the prototype itself; each is a reference of its
    own. *)
Definition Object_prototype : gmap string JsValue :=
  list_to_map
    (imap (λ address name, (name, js_reference address))
       [ "constructor"; "hasOwnProperty"; "isPrototypeOf"; "propertyIsEnumerable";
         "toLocaleString"; "toString"; "valueOf"; "__proto__";
         "__defineGetter__"; "__defineSetter__"; "__lookupGetter__";
         "__lookupSetter__" ]%string).

(** The object literal with the given properties. *)
Definition object_literal (properties : gmap string JsValue) : JsObject :=
  mkObject properties Object_prototype.

(** The first loop of [objectShallowEquals] over the own properties of [a]
    that are left: [None] when it returns [false], the count [aLength] when
    it ends.  The answer of the function does not depend on the order in
    which the properties are visited. *)
Fixpoint shallow_loop (b : JsObject) (entries : list (string * JsValue))
    (aLength : nat) : option nat :=
  match entries with
  | [] => Some aLength
  | (key, value) :: rest =>
      if negb (strict_equals value (js_get b key)) then None
      else shallow_loop b rest (S aLength)
  end.

Definition objectShallowEquals (a b : JsObject) : bool :=
  match shallow_loop b (map_to_list (own_properties a)) 0 with
  | None => false
  | Some aLength =>
      let bLength := length (map_to_list (own_properties b)) in
      (aLength =? bLength)%nat
  end.

(** [updatePreviewSelection]: the preview selection that is dispatched, if
    any. *)
Definition updatePreviewSelection (currentPreviewSelection previewSelection : JsObject)
    : option JsObject :=
  if negb (objectShallowEquals currentPreviewSelection previewSelection)
  then Some previewSelection
  else None.

(** ** The colors of a comparison *)

(** A row of [COMPARE_STEPS]: its value and its class name; the four colors
    of a row are constants of the theme. *)
Record CompareStep := mkCompareStep {
  cs_value : Z;
  cs_className : string;
}.

Definition COMPARE_STEPS : list CompareStep :=
  [ mkCompareStep 20 "category-color-red-4";
    mkCompareStep 15 "category-color-red-3";
    mkCompareStep 10 "category-color-red-2";
    mkCompareStep 5 "category-color-red-1";
    mkCompareStep 0 "category-color-grey";
    mkCompareStep (-5) "category-color-green-1";
    mkCompareStep (-10) "category-color-green-2";
    mkCompareStep (-15) "category-color-green-3";
    mkCompareStep (-20) "category-color-green-4" ].

(** What [mapTimeToCompareColor] returns: a row of the table or the gray
    style. *)
Inductive CompareColor :=
  | compare_row (row : CompareStep)
  | GRAY_STYLE.

(** [COMPARE_STEPS[step].value]; the loop reads the rows before and after
    [step] only where they exist. *)
Definition step_value (step : nat) : Z :=
  default 0 (cs_value <$> COMPARE_STEPS !! step).

(** [x < y] on numbers. *)
Definition Qltb (x y : QArith_base.Q) : bool := negb (QArith_base.Qle_bool y x).

(** Whether the round [step] of the loop of [mapTimeToCompareColor] returns
    its row; otherwise the loop goes on. *)
Definition returns_at (formattedTotalTime : QArith_base.Q) (step : nat) : bool :=
  let value := step_value step in
  let number := QArith_base.inject_Z in
  if (step =? 0)%nat
  then QArith_base.Qle_bool (number value) formattedTotalTime
  else if value =? 0
  then QArith_base.Qeq_bool formattedTotalTime (number value)
  else if (step =? length COMPARE_STEPS - 1)%nat
  then QArith_base.Qle_bool formattedTotalTime (number value)
  else if (step_value (step + 1) =? 0) || (step_value (step - 1) =? 0)
  then Qltb formattedTotalTime (number (step_value (step - 1)))
       && Qltb (number (step_value (step + 1))) formattedTotalTime
  else
    (value <? 0) && QArith_base.Qle_bool formattedTotalTime (number value)
    && Qltb (number (step_value (step + 1))) formattedTotalTime
    || (0 <? value) && Qltb formattedTotalTime (number (step_value (step - 1)))
       && QArith_base.Qle_bool (number value) formattedTotalTime.

Fixpoint compare_steps_loop (formattedTotalTime : QArith_base.Q) (steps : list nat)
    : CompareColor :=
  match steps with
  | [] => GRAY_STYLE
  | step :: rest =>
      if returns_at formattedTotalTime step
      then match COMPARE_STEPS !! step with
           | Some row => compare_row row
           | None => GRAY_STYLE
           end
      else compare_steps_loop formattedTotalTime rest
  end.

(** [Math.abs(totalTime) < PERCENT_NEGLIGIBLE_DELTA ? 0 : totalTime * 100].
    The numbers are rationals: the rounding of the product to a double and
    [NaN] are outside the model.  The rounding is monotone, and the loop
    compares the formatted number with whole numbers only. *)
Definition formattedTotalTime (PERCENT_NEGLIGIBLE_DELTA totalTime : QArith_base.Q)
    : QArith_base.Q :=
  if Qltb (Qabs.Qabs totalTime) PERCENT_NEGLIGIBLE_DELTA
  then QArith_base.inject_Z 0
  else QArith_base.Qmult totalTime (QArith_base.inject_Z 100).

(** [mapTimeToCompareColor]; [PERCENT_NEGLIGIBLE_DELTA] is a constant of
    utils/format-numbers, which is not among the embedded source files. *)
Definition mapTimeToCompareColor (PERCENT_NEGLIGIBLE_DELTA totalTime : QArith_base.Q)
    : CompareColor :=
  compare_steps_loop (formattedTotalTime PERCENT_NEGLIGIBLE_DELTA totalTime)
    (seq 0 (length COMPARE_STEPS)).

(** The row of [COMPARE_STEPS] in whose range a percentage falls: the
    ranges are bounded by 20, 15, 10, 0, -10, -15 and -20. *)
Definition compareBucket (percentage : QArith_base.Q) : nat :=
  let number := QArith_base.inject_Z in
  if QArith_base.Qle_bool (number 20) percentage then 0
  else if QArith_base.Qle_bool (number 15) percentage then 1
  else if QArith_base.Qle_bool (number 10) percentage then 2
  else if Qltb (number 0) percentage then 3
  else if QArith_base.Qeq_bool percentage (number 0) then 4
  else if Qltb (number (-10)) percentage then 5
  else if Qltb (number (-15)) percentage then 6
  else if Qltb (number (-20)) percentage then 7
  else 8.

(** The row in a branch of [compareBucket]: the rounds of the loop are
    decided by the comparisons that led to the branch. *)
Ltac bucket_row :=
  cbn [negb]; eexists; (split; [reflexivity|]);
  cbv -[QArith_base.Qle_bool QArith_base.Qeq_bool QArith_base.inject_Z];
  repeat (match goal with
          | H : _ = _ |- _ => rewrite H
          end;
          cbv -[QArith_base.Qle_bool QArith_base.Qeq_bool QArith_base.inject_Z]);
  reflexivity.

(** The comparisons of a branch, as propositions. *)
Ltac bool_to_Q :=
  repeat match goal with
         | H : QArith_base.Qle_bool _ _ = true |- _ =>
             apply QArith_base.Qle_bool_iff in H
         | H : QArith_base.Qle_bool ?a ?b = false |- _ =>
             assert (QArith_base.Qlt b a)
               by (let Hab := fresh in
                   apply QArith_base.Qnot_le_lt; intros Hab;
                   apply QArith_base.Qle_bool_iff in Hab; congruence);
             clear H
         | H : QArith_base.Qeq_bool _ _ = true |- _ =>
             apply QArith_base.Qeq_bool_iff in H
         | H : QArith_base.Qeq_bool _ _ = false |- _ =>
             apply QArith_base.Qeq_bool_neq in H
         end.

(** ** The weight type of a call tree *)

(** [samples.weightType || "samples"]: the body of the selectors
    [getSamplesWeightType] and [getWeightTypeForCallTree]. *)
Definition getWeightTypeForCallTree (samples : TimedSamples) : string :=
  match tsm_weightType samples with
  | Some weightType =>
      if String.eqb weightType EmptyString then "samples"%string else weightType
  | None => "samples"%string
  end.

(** ** The cache of the thread selectors *)

Section SelectorsCache.
(** [memoize] of memoize-immutable and [getThreadsKey] of
    profile-logic/profile-data are not among the embedded source files.  A
    selectors object is identified by the number of the call of
    [_buildThreadSelectors] that made it; the memoized function for merged
    threads is any function of the key, of its own state and of the number
    of objects built so far. *)
Variable MemoState : Type.
Variable getThreadsKey : gset nat → string.
Variable _mergedThreadSelectorsMemoized : string → MemoState → nat → nat * MemoState * nat.

Record SelectorsStore := mkSelectorsStore {
  _threadSelectorsCache : gmap nat nat;
  store_built : nat;
  store_memo : MemoState;
}.

Definition getSingleThreadSelectors (threadIndex : nat) (store : SelectorsStore)
    : nat * SelectorsStore :=
  match _threadSelectorsCache store !! threadIndex with
  | Some selectors => (selectors, store)
  | None =>
      let selectors := store_built store in
      (selectors,
       mkSelectorsStore (<[threadIndex := selectors]> (_threadSelectorsCache store))
         (S (store_built store)) (store_memo store))
  end.

(** [getThreadSelectorsFromThreadsKey]; [None] is the exception of
    [ensureExists], for a set without a first item. *)
Definition getThreadSelectorsFromThreadsKey (threadsKey : string)
    (threadIndexes : gset nat) (store : SelectorsStore)
    : option (nat * SelectorsStore) :=
  if (size threadIndexes =? 1)%nat
  then match elements threadIndexes with
       | threadIndex :: _ => Some (getSingleThreadSelectors threadIndex store)
       | [] => None
       end
  else
    let r := _mergedThreadSelectorsMemoized threadsKey (store_memo store)
               (store_built store) in
    Some (r.1.1, mkSelectorsStore (_threadSelectorsCache store) r.2 r.1.2).

(** [getThreadSelectors], for a thread index or a set of thread indexes. *)
Definition getThreadSelectors (oneOrManyThreadIndexes : nat + gset nat)
    (store : SelectorsStore) : option (nat * SelectorsStore) :=
  match oneOrManyThreadIndexes with
  | inl threadIndex => Some (getSingleThreadSelectors threadIndex store)
  | inr threadIndexes =>
      getThreadSelectorsFromThreadsKey (getThreadsKey threadIndexes) threadIndexes store
  end.

(** The store after a series of calls of [getThreadSelectors]. *)
Definition afterCalls (calls : list (nat + gset nat)) (store : SelectorsStore)
    : SelectorsStore :=
  foldl (λ store call,
           match getThreadSelectors call store with
           | Some r => r.2
           | None => store
           end) store calls.
End SelectorsCache.

(** * Properties *)

(** ** Typed arrays *)

Lemma length_arr_upd f a i : length (arr_upd f a i) = length a.
Proof. unfold arr_upd. destruct (i <? 0); [done|]. apply length_alter. Qed.

Lemma length_arr_add a i w : length (arr_add a i w) = length a.
Proof. apply length_arr_upd. Qed.

Lemma length_zeros n : length (zeros n) = n.
Proof. apply length_replicate. Qed.

Lemma sumZ_zeros n : sumZ (zeros n) = 0.
Proof. induction n as [|n IH]; simpl; [done|]. unfold zeros in IH. lia. Qed.

Lemma lookup_arr_upd f a i (j : nat) :
  arr_upd f a i !! j = if bool_decide (i = Z.of_nat j) then f <$> a !! j else a !! j.
Proof.
  unfold arr_upd. destruct (Z.ltb_spec i 0).
  - rewrite bool_decide_eq_false_2 by lia. done.
  - case_bool_decide as E.
    + subst i. rewrite Nat2Z.id. apply list_lookup_alter_eq.
    + apply list_lookup_alter_ne. lia.
Qed.

Lemma sumZ_app l1 l2 : sumZ (l1 ++ l2) = sumZ l1 + sumZ l2.
Proof. unfold sumZ. induction l1 as [|x l1 IH]; simpl; lia. Qed.

Lemma sumZ_abs_triangle l : Z.abs (sumZ l) ≤ sumZ (Z.abs <$> l).
Proof. unfold sumZ. induction l as [|x l IH]; csimpl; lia. Qed.

Lemma sumZ_abs_nonneg l : 0 ≤ sumZ (Z.abs <$> l).
Proof. unfold sumZ. induction l as [|x l IH]; csimpl; lia. Qed.

Lemma sumZ_abs_id l : Forall (λ x, 0 ≤ x) l → sumZ (Z.abs <$> l) = sumZ l.
Proof.
  unfold sumZ. induction 1 as [|x l Hx _ IH]; csimpl; [done|]. lia.
Qed.

Lemma sumZ_abs_lookup l (i : nat) x : l !! i = Some x → Z.abs x ≤ sumZ (Z.abs <$> l).
Proof.
  revert i. induction l as [|y l IH]; intros [|i] Hi; simplify_eq/=.
  - pose proof (sumZ_abs_nonneg l). unfold sumZ in *. csimpl. lia.
  - specialize (IH _ Hi). unfold sumZ in *. csimpl. lia.
Qed.

(** ** Rounding *)

(** A whole number of at most [p] bits, and the power [2 ^ p] itself, is a
    value of the format. *)
Lemma round_to_small p x : 0 < p → Z.abs x ≤ 2 ^ p → round_to p x = x.
Proof.
  intros Hp Hx. unfold round_to.
  destruct (Z.leb_spec (Z.log2 (Z.abs x) + 1 - p) 0) as [|He]; [done|].
  assert (Hm : 0 < Z.abs x).
  { destruct (decide (Z.abs x = 0)) as [E|]; [|lia]. rewrite E in He. simpl in He. lia. }
  pose proof (Z.log2_spec _ Hm) as [Hlo _].
  assert (Hpow : 2 ^ p ≤ 2 ^ Z.log2 (Z.abs x)) by (apply Z.pow_le_mono_r; lia).
  assert (E : Z.abs x = 2 ^ p) by lia.
  rewrite E, Z.log2_pow2 by lia.
  replace (p + 1 - p) with 1 by lia. change (2 ^ (1 - 1)) with 1. change (2 ^ 1) with 2.
  assert (Hhalf : 2 ^ p = 2 ^ (p - 1) * 2).
  { replace p with (Z.succ (p - 1)) at 1 by lia. rewrite Z.pow_succ_r by lia. lia. }
  rewrite Hhalf. rewrite Z.mod_mul, Z.div_mul by lia. simpl.
  rewrite <- Hhalf. rewrite <- E, Z.mul_comm. apply Z.abs_sgn.
Qed.

(** Beyond 24 bits the low bits are lost, to the even significand on a
    tie. *)
Example to_float32_examples :
  to_float32 16777217 = 16777216 ∧ to_float32 16777219 = 16777220
  ∧ to_float32 (-16777217) = -16777216 ∧ to_float32 33554438 = 33554440
  ∧ to_float32 (2 ^ 25 - 1) = 2 ^ 25 ∧ float32_add 16777216 1 = 16777216.
Proof. by vm_compute. Qed.

Lemma to_float32_small x : Z.abs x ≤ 2 ^ 24 → to_float32 x = x.
Proof. apply round_to_small. lia. Qed.

Lemma to_float64_small x : Z.abs x ≤ 2 ^ 53 → to_float64 x = x.
Proof. apply round_to_small. lia. Qed.

Lemma float32_add_small x w : Z.abs (x + w) ≤ 2 ^ 24 → float32_add x w = x + w.
Proof.
  intros H. unfold float32_add. rewrite to_float64_small by lia.
  by apply to_float32_small.
Qed.

(** Rounding keeps the sign. *)
Lemma round_to_nonneg p x : 0 ≤ x → 0 ≤ round_to p x.
Proof.
  intros Hx. unfold round_to. cbv zeta.
  destruct (Z.leb_spec (Z.log2 (Z.abs x) + 1 - p) 0) as [|He]; [done|].
  set (e := Z.log2 (Z.abs x) + 1 - p) in *.
  assert (Hpow : 0 < 2 ^ e) by (apply Z.pow_pos_nonneg; lia).
  assert (Hq : 0 ≤ Z.abs x / 2 ^ e) by (apply Z.div_pos; lia).
  assert (Hq' : 0 ≤ (if Z.abs x mod 2 ^ e <? 2 ^ (e - 1) then Z.abs x / 2 ^ e
                     else if 2 ^ (e - 1) <? Z.abs x mod 2 ^ e then Z.abs x / 2 ^ e + 1
                          else if Z.even (Z.abs x / 2 ^ e) then Z.abs x / 2 ^ e
                               else Z.abs x / 2 ^ e + 1)).
  { repeat match goal with |- context [if ?b then _ else _] => destruct b end; lia. }
  assert (0 ≤ Z.sgn x) by lia. nia.
Qed.

Lemma float32_add_nonneg x w : 0 ≤ x → 0 ≤ w → 0 ≤ float32_add x w.
Proof.
  intros Hx Hw. unfold float32_add, to_float32, to_float64.
  apply round_to_nonneg, round_to_nonneg. lia.
Qed.

(** ** Sums that a [Float32Array] holds as they are *)

Lemma sumZ_abs_alter (g : Z → Z) (a : list Z) (i : nat) c :
  0 ≤ c → (∀ x, a !! i = Some x → Z.abs (g x) ≤ Z.abs x + c) →
  sumZ (Z.abs <$> alter g i a) ≤ sumZ (Z.abs <$> a) + c.
Proof.
  intros Hc. revert i. induction a as [|y a IH]; intros [|i] Hg; csimpl.
  - unfold sumZ. simpl. lia.
  - unfold sumZ. simpl. lia.
  - specialize (Hg y eq_refl). unfold sumZ in *. csimpl. lia.
  - specialize (IH i Hg). unfold sumZ in *. csimpl. lia.
Qed.

(** While the absolute values of the cells and of the weight add up to at
    most [2 ^ 24], the store of [a[i] += w] rounds nothing. *)
Lemma arr_add_small a i w :
  sumZ (Z.abs <$> a) + Z.abs w ≤ 2 ^ 24 →
  arr_add a i w = arr_upd (λ x, x + w) a i
  ∧ sumZ (Z.abs <$> arr_add a i w) ≤ sumZ (Z.abs <$> a) + Z.abs w.
Proof.
  intros Hb. unfold arr_add, arr_upd. destruct (i <? 0); [split; [done|lia]|].
  assert (Hex : ∀ x, a !! Z.to_nat i = Some x → float32_add x w = x + w).
  { intros x Hx. apply float32_add_small.
    pose proof (sumZ_abs_lookup _ _ _ Hx). lia. }
  split.
  - apply list_alter_ext; [|done]. intros x Hx. by apply Hex.
  - apply sumZ_abs_alter; [lia|]. intros x Hx. rewrite (Hex x Hx). lia.
Qed.

Lemma sumZ_alter (f : Z → Z) (a : list Z) (i : nat) x :
  a !! i = Some x → sumZ (alter f i a) = sumZ a + (f x - x).
Proof.
  revert i. induction a as [|y a IH]; intros [|i] Hi; simplify_eq/=.
  - lia.
  - rewrite (IH _ Hi). lia.
Qed.

Lemma sumZ_arr_add a (i : nat) w :
  (i < length a)%nat → sumZ (Z.abs <$> a) + Z.abs w ≤ 2 ^ 24 →
  sumZ (arr_add a (Z.of_nat i) w) = sumZ a + w.
Proof.
  intros Hi Hb. rewrite (proj1 (arr_add_small a _ w Hb)). unfold arr_upd.
  destruct (Z.ltb_spec (Z.of_nat i) 0) as [?|_]; [lia|].
  rewrite Nat2Z.id. destruct (lookup_lt_is_Some_2 a i Hi) as [x Hx].
  rewrite (sumZ_alter _ _ _ _ Hx). lia.
Qed.

(** ** The scenario with three samples *)

(** C1, as the specification states it, fails on the code: the total of the
    root [A] is 3 after the reverse loop, which is below 10, so the snap of
    the first total sets it to 0. *)
Lemma scenario_root_total_is_not_3 :
  Scenario.view ≠
    ([0%nat],
     [ (Some (mkCallNodeData "A" 3 0), [1%nat]);
       (Some (mkCallNodeData "B" 3 0), [2%nat]);
       (Some (mkCallNodeData "C" 3 3), []) ]).
Proof. vm_compute. discriminate. Qed.

(** C1 (amended): in the scenario the tree has the single root [A] with
    self 0 and total 0 (the accumulated 3 is snapped), whose only child is
    [B] with total 3 and self 0, whose only child is [C] with total 3 and
    self 3; [C] has no children. *)
Theorem scenario_call_tree :
  Scenario.view =
    ([0%nat],
     [ (Some (mkCallNodeData "A" 0 0), [1%nat]);
       (Some (mkCallNodeData "B" 3 0), [2%nat]);
       (Some (mkCallNodeData "C" 3 3), []) ])
  ∧ accumulatedTotals Scenario.samples Scenario.info false = [3; 3; 3].
Proof. split; vm_compute; reflexivity. Qed.

(** ** The snap of the first total *)

(** C3, as the specification states it (the test is on the absolute value),
    fails on the code: a first total of -100 is set to 0. *)
Lemma snap_is_not_on_absolute_value :
  ¬ (∀ samples info interval invertCallstack (i : nat) t,
       accumulatedTotals samples info invertCallstack !! i = Some t →
       total (callNodeSummary
                (computeCallTreeCountsAndSummary samples info interval invertCallstack)) !! i
       = Some (if negb invertCallstack && bool_decide (i = 0%nat) && (Z.abs t <? 10)
               then 0 else t)).
Proof.
  intros H.
  specialize (H Scenario.negSamples Scenario.negInfo 1 false 0%nat (-100)).
  vm_compute in H. specialize (H eq_refl). discriminate.
Qed.

(** C3 (amended): the total of a call node is set to 0 exactly when the tree
    is not inverted, the node is index 0 and the accumulated total is below
    10 in the signed order; every other total, and every total of 10 or
    more, is the accumulated one.  Negative totals of any size are below 10
    and so are set to 0. *)
Theorem snap_root_total samples info interval invertCallstack (i : nat) t :
  accumulatedTotals samples info invertCallstack !! i = Some t →
  total (callNodeSummary
           (computeCallTreeCountsAndSummary samples info interval invertCallstack)) !! i
  = Some (if negb invertCallstack && bool_decide (i = 0%nat) && (t <? 10)
          then 0 else t).
Proof.
  unfold accumulatedTotals, computeCallTreeCountsAndSummary; simpl.
  set (tot := ts_total _). intros Hi. unfold snap_root.
  destruct i as [|i].
  - rewrite Hi. rewrite bool_decide_eq_true_2 by done. rewrite andb_true_r.
    destruct (negb invertCallstack && (t <? 10)) eqn:E; [|done].
    apply list_lookup_insert_eq. by eapply lookup_lt_Some.
  - rewrite bool_decide_eq_false_2 by done. rewrite andb_false_r. simpl.
    destruct (tot !! 0%nat) as [t0|] eqn:E0; [|done].
    destruct (negb invertCallstack && (t0 <? 10)); [|done].
    by rewrite list_lookup_insert_ne.
Qed.

Lemma snap_root_total_witness :
  accumulatedTotals Scenario.negSamples Scenario.negInfo false !! 0%nat = Some (-100)
  ∧ total (callNodeSummary
           (computeCallTreeCountsAndSummary Scenario.negSamples Scenario.negInfo 1 false))
    !! 0%nat = Some 0.
Proof.
  split; [reflexivity|].
  apply (snap_root_total Scenario.negSamples Scenario.negInfo 1 false 0%nat (-100)).
  reflexivity.
Defined.

(** ** Self weights add up to the weight of the samples *)

Lemma table_wfb_lookup t (i : nat) p :
  table_wfb t = true → cn_prefix t !! i = Some p → p = -1 ∨ 0 ≤ p < Z.of_nat i.
Proof.
  intros Hwf Hi. unfold table_wfb in Hwf.
  apply andb_true_iff in Hwf as [_ Hwf].
  rewrite forallb_forall in Hwf.
  specialize (Hwf (i, p)). simpl in Hwf.
  assert (Hin : In (i, p) (imap pair (cn_prefix t))).
  { apply list_elem_of_In, list_elem_of_lookup. exists i.
    rewrite list_lookup_imap, Hi. done. }
  specialize (Hwf Hin). apply orb_true_iff in Hwf as [H|H]; [left; lia|right; lia].
Qed.

Lemma table_wfb_length t : table_wfb t = true → Z.of_nat (cn_length t) < 2 ^ 31.
Proof. unfold table_wfb. intros H. apply andb_true_iff in H as [H _]. lia. Qed.

Lemma samples_wfb_weight samples info w :
  samples_wfb samples info = true → s_weight samples = Some w →
  length w = length (s_stack samples).
Proof.
  unfold samples_wfb. intros H Hw. rewrite Hw in H.
  apply andb_true_iff in H as [H _]. by apply bool_decide_eq_true in H.
Qed.

Lemma samples_wfb_stack samples info (i s : nat) :
  samples_wfb samples info = true → s_stack samples !! i = Some (Some s) →
  ∃ c, stackIndexToCallNodeIndex info !! s = Some c
       ∧ (c < cn_length (callNodeTable info))%nat.
Proof.
  unfold samples_wfb. intros H Hi.
  apply andb_true_iff in H as [_ H]. rewrite forallb_forall in H.
  specialize (H (Some s)). simpl in H.
  assert (Hin : In (Some s) (s_stack samples)).
  { apply list_elem_of_In, list_elem_of_lookup. eauto. }
  specialize (H Hin). destruct (stackIndexToCallNodeIndex info !! s) as [c|]; [|done].
  exists c. split; [done|]. by apply bool_decide_eq_true in H.
Qed.

(** The entries the sample loops run over: in range, and with a call node
    exactly where the sample has a stack. *)
Lemma sample_entries_in_range samples info :
  samples_wfb samples info = true →
  Forall (λ e : nat * option nat,
            ∀ c, e.2 = Some c → (c < cn_length (callNodeTable info))%nat)
    (imap pair (getSampleIndexToCallNodeIndex (s_stack samples)
                  (stackIndexToCallNodeIndex info))).
Proof.
  intros Hwf. apply Forall_lookup_2. intros i [j o] Hi c Hc. simpl in Hc. subst o.
  rewrite list_lookup_imap in Hi. unfold getSampleIndexToCallNodeIndex in Hi.
  rewrite list_lookup_fmap in Hi.
  destruct (s_stack samples !! i) as [[s|]|] eqn:Es; simplify_eq/=.
  destruct (samples_wfb_stack _ _ _ _ Hwf Es) as (c' & Hc' & Hlt).
  rewrite Hc' in H0. by simplify_eq.
Qed.

Lemma sample_entries_weight samples info :
  samples_wfb samples info = true →
  sumZ (entry_weight samples <$>
          imap pair (getSampleIndexToCallNodeIndex (s_stack samples)
                       (stackIndexToCallNodeIndex info)))
  = weightOfNonNullStacks samples.
Proof.
  intros Hwf. unfold weightOfNonNullStacks, getSampleIndexToCallNodeIndex.
  rewrite imap_fmap, fmap_imap. f_equal. apply imap_ext.
  intros i [s|] Hi; simpl; [|done].
  destruct (samples_wfb_stack _ _ _ _ Hwf Hi) as (c & Hc & _).
  unfold entry_weight. simpl. by rewrite Hc.
Qed.

Lemma stackSelf_fold_length samples es acc :
  length (foldl (stackSelf_step samples) acc es) = length acc.
Proof.
  revert acc. induction es as [|e es IH]; intros acc; simpl; [done|].
  rewrite IH. unfold stackSelf_step. destruct (e.2); [apply length_arr_add|done].
Qed.

Lemma sample_entries_magnitude samples info :
  samples_wfb samples info = true →
  entries_magnitude samples
    (imap pair (getSampleIndexToCallNodeIndex (s_stack samples)
                  (stackIndexToCallNodeIndex info)))
  = magnitudeOfNonNullStacks samples.
Proof.
  intros Hwf. unfold entries_magnitude, magnitudeOfNonNullStacks,
    getSampleIndexToCallNodeIndex.
  rewrite imap_fmap, fmap_imap. f_equal. apply imap_ext.
  intros i [s|] Hi; simpl; [|done].
  destruct (samples_wfb_stack _ _ _ _ Hwf Hi) as (c & Hc & _).
  unfold entry_weight. simpl. by rewrite Hc.
Qed.

Lemma entries_magnitude_cons samples e es :
  entries_magnitude samples (e :: es)
  = Z.abs (entry_weight samples e) + entries_magnitude samples es.
Proof. done. Qed.

Lemma entries_magnitude_nonneg samples es : 0 ≤ entries_magnitude samples es.
Proof.
  induction es as [|e es IH]; [done|]. rewrite entries_magnitude_cons. lia.
Qed.

Lemma sumZ_abs_zeros n : sumZ (Z.abs <$> zeros n) = 0.
Proof. unfold zeros. rewrite fmap_replicate. apply sumZ_zeros. Qed.

(** One round of the sample loop of [_getStackSelf] while the sums stay
    within 24 bits. *)
Lemma stackSelf_step_small samples acc e :
  sumZ (Z.abs <$> acc) + Z.abs (entry_weight samples e) ≤ 2 ^ 24 →
  stackSelf_step samples acc e
  = match e.2 with
    | Some c => arr_upd (λ x, x + sample_weight samples e.1) acc (Z.of_nat c)
    | None => acc
    end
  ∧ sumZ (Z.abs <$> stackSelf_step samples acc e)
    ≤ sumZ (Z.abs <$> acc) + Z.abs (entry_weight samples e).
Proof.
  unfold stackSelf_step, entry_weight. destruct (e.2); [apply arr_add_small|].
  intros _. split; [done|lia].
Qed.

Lemma stackSelf_fold_magnitude samples es acc :
  sumZ (Z.abs <$> acc) + entries_magnitude samples es ≤ 2 ^ 24 →
  sumZ (Z.abs <$> foldl (stackSelf_step samples) acc es)
  ≤ sumZ (Z.abs <$> acc) + entries_magnitude samples es.
Proof.
  revert acc. induction es as [|e es IH]; intros acc Hb.
  - simpl. unfold entries_magnitude, sumZ. simpl. lia.
  - rewrite entries_magnitude_cons in Hb |- *.
    pose proof (entries_magnitude_nonneg samples es) as Hnn.
    destruct (stackSelf_step_small samples acc e ltac:(lia)) as [_ Hmag].
    simpl foldl. specialize (IH (stackSelf_step samples acc e) ltac:(lia)). lia.
Qed.

Lemma stackSelf_fold_sum samples es acc :
  Forall (λ e : nat * option nat, ∀ c, e.2 = Some c → (c < length acc)%nat) es →
  sumZ (Z.abs <$> acc) + entries_magnitude samples es ≤ 2 ^ 24 →
  sumZ (foldl (stackSelf_step samples) acc es)
  = sumZ acc + sumZ (entry_weight samples <$> es).
Proof.
  revert acc. induction es as [|e es IH]; intros acc Hes Hb; [simpl; lia|].
  apply Forall_cons in Hes as [He Hes]. rewrite entries_magnitude_cons in Hb.
  pose proof (entries_magnitude_nonneg samples es) as Hnn.
  destruct (stackSelf_step_small samples acc e ltac:(lia)) as [_ Hmag].
  rewrite fmap_cons. simpl. rewrite IH.
  - unfold stackSelf_step, entry_weight at 2. destruct (e.2) as [c|] eqn:Ec; [|lia].
    rewrite sumZ_arr_add; [lia|auto|].
    unfold entry_weight in Hb. rewrite Ec in Hb. lia.
  - eapply Forall_impl; [exact Hes|]. intros e' He' c Hc.
    unfold stackSelf_step. destruct (e.2); [rewrite length_arr_add|]; auto.
  - lia.
Qed.

(** The cell of a call node gains the weight of the samples on it. *)
Lemma stackSelf_fold_at samples es acc (j : nat) :
  (j < length acc)%nat →
  sumZ (Z.abs <$> acc) + entries_magnitude samples es ≤ 2 ^ 24 →
  default 0 (foldl (stackSelf_step samples) acc es !! j)
  = default 0 (acc !! j)
    + sumZ ((λ e : nat * option nat,
               match e.2 with
               | Some c => if bool_decide (c = j) then sample_weight samples e.1 else 0
               | None => 0
               end) <$> es).
Proof.
  revert acc. induction es as [|e es IH]; intros acc Hj Hb.
  - unfold sumZ. simpl. lia.
  - rewrite entries_magnitude_cons in Hb.
    pose proof (entries_magnitude_nonneg samples es) as Hnn.
    destruct (stackSelf_step_small samples acc e ltac:(lia)) as [Hstep Hmag].
    rewrite fmap_cons. simpl foldl. rewrite IH.
    + rewrite Hstep. destruct (e.2) as [c|]; [|unfold sumZ; simpl; lia].
      destruct (lookup_lt_is_Some_2 acc j Hj) as [x Hx].
      rewrite lookup_arr_upd, Hx.
      case_bool_decide as H1; case_bool_decide as H2; try lia;
        unfold sumZ; simpl; lia.
    + unfold stackSelf_step. destruct (e.2); [by rewrite length_arr_add|done].
    + lia.
Qed.

Lemma to_int32_small z : 0 ≤ z < 2 ^ 31 → to_int32 z = z.
Proof. intros Hz. unfold to_int32. rewrite Z.mod_small; lia. Qed.

(** The root column: after the rows below [k] are filled, each of them holds
    a root of the table. *)
Lemma callNodeToRoot_fold t k :
  table_wfb t = true → (k ≤ cn_length t)%nat →
  let ctr := foldl (callNodeToRoot_step t) (zeros (cn_length t)) (seq 0 k) in
  length ctr = cn_length t
  ∧ ∀ c, (c < k)%nat →
      ∃ r : nat, ctr !! c = Some (Z.of_nat r) ∧ cn_prefix t !! r = Some (-1).
Proof.
  intros Hwf. induction k as [|k IH]; intros Hk; cbv zeta.
  - split; [apply length_zeros|]. intros c Hc. lia.
  - rewrite seq_S, foldl_app. simpl.
    destruct IH as [Hlen IH]; [lia|].
    set (ctr := foldl _ _ _) in *.
    assert (Hkn : (k < cn_length t)%nat) by lia.
    destruct (lookup_lt_is_Some_2 (cn_prefix t) k Hkn) as [p Hp].
    pose proof (table_wfb_lookup _ _ _ Hwf Hp) as Hpk.
    pose proof (table_wfb_length _ Hwf) as Hn.
    unfold callNodeToRoot_step, prefix_at. rewrite Hp. simpl.
    destruct (Z.eqb_spec p (-1)) as [->|Hne].
    + split; [by rewrite length_insert|].
      intros c Hc. destruct (decide (c = k)) as [->|Hck].
      * exists k. rewrite list_lookup_insert_eq by lia.
        rewrite to_int32_small by lia. done.
      * rewrite list_lookup_insert_ne by done. apply IH. lia.
    + destruct Hpk as [?|Hpk]; [done|].
      split; [by rewrite length_insert|].
      intros c Hc. destruct (decide (c = k)) as [->|Hck].
      * destruct (IH (Z.to_nat p)) as (r & Hr & Hroot); [lia|].
        exists r. rewrite list_lookup_insert_eq by lia.
        unfold arr_get. destruct (Z.ltb_spec p 0); [lia|]. by rewrite Hr.
      * rewrite list_lookup_insert_ne by done. apply IH. lia.
Qed.

Lemma computeCallNodeToRoot_roots t c :
  table_wfb t = true → (c < cn_length t)%nat →
  ∃ r : nat, computeCallNodeToRoot t !! c = Some (Z.of_nat r)
             ∧ cn_prefix t !! r = Some (-1).
Proof.
  intros Hwf Hc. destruct (callNodeToRoot_fold t (cn_length t) Hwf) as [_ H]; [done|].
  by apply H.
Qed.

(** One round of the sample loop of [_getInvertedStackSelf] while the sums
    stay within 24 bits. *)
Lemma invertedSelf_step_small samples ctr acc e :
  sumZ (Z.abs <$> callNodeSelf acc) + Z.abs (entry_weight samples e) ≤ 2 ^ 24 →
  sumZ (Z.abs <$> callNodeLeaf acc) + Z.abs (entry_weight samples e) ≤ 2 ^ 24 →
  invertedSelf_step samples ctr acc e
  = match e.2 with
    | Some c =>
        mkStackSelf
          match ctr !! c with
          | Some rootIndex =>
              arr_upd (λ x, x + sample_weight samples e.1) (callNodeSelf acc) rootIndex
          | None => callNodeSelf acc
          end
          (arr_upd (λ x, x + sample_weight samples e.1) (callNodeLeaf acc) (Z.of_nat c))
    | None => acc
    end
  ∧ sumZ (Z.abs <$> callNodeSelf (invertedSelf_step samples ctr acc e))
    ≤ sumZ (Z.abs <$> callNodeSelf acc) + Z.abs (entry_weight samples e)
  ∧ sumZ (Z.abs <$> callNodeLeaf (invertedSelf_step samples ctr acc e))
    ≤ sumZ (Z.abs <$> callNodeLeaf acc) + Z.abs (entry_weight samples e).
Proof.
  unfold invertedSelf_step, entry_weight.
  destruct (e.2) as [c|]; [|intros; split_and!; [done|lia|lia]].
  intros Hs Hl. cbv zeta. simpl.
  destruct (arr_add_small (callNodeLeaf acc) (Z.of_nat c) _ Hl) as [El Hl'].
  destruct (ctr !! c) as [rootIndex|].
  - destruct (arr_add_small (callNodeSelf acc) rootIndex _ Hs) as [Es Hs'].
    split_and!; [by rewrite Es, El|done|done].
  - split_and!; [by rewrite El|lia|done].
Qed.

(** The sample loop of the inverted variant: both arrays keep their length,
    both gain the weight of the entries, and [self] changes at roots only. *)
Lemma invertedSelf_fold samples t ctr es acc :
  (∀ c, (c < cn_length t)%nat →
     ∃ r : nat, ctr !! c = Some (Z.of_nat r) ∧ cn_prefix t !! r = Some (-1)) →
  length (callNodeSelf acc) = cn_length t →
  length (callNodeLeaf acc) = cn_length t →
  Forall (λ e : nat * option nat, ∀ c, e.2 = Some c → (c < cn_length t)%nat) es →
  sumZ (Z.abs <$> callNodeSelf acc) + entries_magnitude samples es ≤ 2 ^ 24 →
  sumZ (Z.abs <$> callNodeLeaf acc) + entries_magnitude samples es ≤ 2 ^ 24 →
  let res := foldl (invertedSelf_step samples ctr) acc es in
  length (callNodeSelf res) = cn_length t
  ∧ length (callNodeLeaf res) = cn_length t
  ∧ sumZ (callNodeSelf res) = sumZ (callNodeSelf acc) + sumZ (entry_weight samples <$> es)
  ∧ sumZ (callNodeLeaf res) = sumZ (callNodeLeaf acc) + sumZ (entry_weight samples <$> es)
  ∧ ∀ j, is_non_root t j → callNodeSelf res !! j = callNodeSelf acc !! j.
Proof.
  intros Hctr. revert acc. induction es as [|e es IH]; intros acc Hs Hl Hes Hbs Hbl.
  - simpl. repeat split; auto; lia.
  - apply Forall_cons in Hes as [He Hes].
    rewrite entries_magnitude_cons in Hbs, Hbl.
    pose proof (entries_magnitude_nonneg samples es) as Hnn.
    destruct (invertedSelf_step_small samples ctr acc e ltac:(lia) ltac:(lia))
      as (_ & Hms & Hml).
    rewrite fmap_cons. cbv zeta. simpl foldl. simpl sumZ.
    assert (Hstep : ∃ acc', invertedSelf_step samples ctr acc e = acc'
              ∧ length (callNodeSelf acc') = cn_length t
              ∧ length (callNodeLeaf acc') = cn_length t
              ∧ sumZ (callNodeSelf acc') = sumZ (callNodeSelf acc) + entry_weight samples e
              ∧ sumZ (callNodeLeaf acc') = sumZ (callNodeLeaf acc) + entry_weight samples e
              ∧ ∀ j, is_non_root t j → callNodeSelf acc' !! j = callNodeSelf acc !! j).
    { eexists; split; [reflexivity|].
      unfold invertedSelf_step, entry_weight.
      destruct (e.2) as [c|] eqn:Ec; [|repeat split; auto; lia].
      unfold entry_weight in Hbs, Hbl. rewrite Ec in Hbs, Hbl.
      specialize (He c eq_refl).
      destruct (Hctr c He) as (r & Hr & Hroot). rewrite Hr. simpl.
      assert (Hrn : (r < cn_length t)%nat) by (by eapply lookup_lt_Some).
      rewrite !length_arr_add, !sumZ_arr_add by lia.
      repeat split; auto.
      intros j (p & Hp & Hne). unfold arr_add. rewrite lookup_arr_upd.
      case_bool_decide as E; [|done].
      apply Nat2Z.inj in E. subst j. congruence. }
    destruct Hstep as (acc' & Hacc' & Hs' & Hl' & Hsum & Hleaf & Hnr).
    rewrite Hacc' in Hms, Hml. rewrite Hacc'.
    destruct (IH acc' Hs' Hl' Hes ltac:(lia) ltac:(lia)) as (H1 & H2 & H3 & H4 & H5).
    repeat split; auto; try lia.
    intros j Hj. rewrite (H5 j Hj). by apply Hnr.
Qed.

Lemma invertedSelf_fold_leaf samples n ctr es acc :
  length (callNodeLeaf acc) = n →
  Forall (λ e : nat * option nat, ∀ c, e.2 = Some c → (c < n)%nat) es →
  sumZ (Z.abs <$> callNodeLeaf acc) + entries_magnitude samples es ≤ 2 ^ 24 →
  let res := foldl (invertedSelf_step samples ctr) acc es in
  length (callNodeLeaf res) = n
  ∧ sumZ (callNodeLeaf res) = sumZ (callNodeLeaf acc) + sumZ (entry_weight samples <$> es).
Proof.
  revert acc. induction es as [|e es IH]; intros acc Hl Hes Hb.
  - simpl. split; [done|lia].
  - apply Forall_cons in Hes as [He Hes].
    rewrite entries_magnitude_cons in Hb.
    pose proof (entries_magnitude_nonneg samples es) as Hnn.
    assert (Hml : sumZ (Z.abs <$> callNodeLeaf (invertedSelf_step samples ctr acc e))
                  ≤ sumZ (Z.abs <$> callNodeLeaf acc) + Z.abs (entry_weight samples e)).
    { unfold invertedSelf_step, entry_weight. destruct (e.2) as [c|] eqn:Ec; [|lia].
      simpl. apply arr_add_small. unfold entry_weight in Hb. rewrite Ec in Hb. lia. }
    rewrite fmap_cons. cbv zeta. simpl foldl. simpl sumZ.
    destruct (IH (invertedSelf_step samples ctr acc e)) as [H1 H2]; auto.
    + unfold invertedSelf_step. destruct (e.2); [simpl; by rewrite length_arr_add|done].
    + lia.
    + split; [done|]. rewrite H2. unfold invertedSelf_step, entry_weight.
      destruct (e.2) as [c|] eqn:Ec; [|lia]. simpl.
      unfold entry_weight in Hb. rewrite Ec in Hb.
      rewrite sumZ_arr_add by (specialize (He c eq_refl); lia). lia.
Qed.

(** The cell of a root gains the weight of the samples that the root column
    sends to it. *)
Lemma invertedSelf_fold_at samples ctr es acc (j : nat) :
  (j < length (callNodeSelf acc))%nat →
  sumZ (Z.abs <$> callNodeSelf acc) + entries_magnitude samples es ≤ 2 ^ 24 →
  sumZ (Z.abs <$> callNodeLeaf acc) + entries_magnitude samples es ≤ 2 ^ 24 →
  default 0 (callNodeSelf (foldl (invertedSelf_step samples ctr) acc es) !! j)
  = default 0 (callNodeSelf acc !! j)
    + sumZ ((λ e : nat * option nat,
               match e.2 with
               | Some c =>
                   if bool_decide (ctr !! c = Some (Z.of_nat j))
                   then sample_weight samples e.1 else 0
               | None => 0
               end) <$> es).
Proof.
  revert acc. induction es as [|e es IH]; intros acc Hj Hbs Hbl.
  - unfold sumZ. simpl. lia.
  - rewrite entries_magnitude_cons in Hbs, Hbl.
    pose proof (entries_magnitude_nonneg samples es) as Hnn.
    destruct (invertedSelf_step_small samples ctr acc e ltac:(lia) ltac:(lia))
      as (Hstep & Hms & Hml).
    rewrite fmap_cons. simpl foldl. rewrite IH; [| |lia|lia].
    + rewrite Hstep. destruct (e.2) as [c|]; [|unfold sumZ; simpl; lia].
      simpl callNodeSelf.
      destruct (lookup_lt_is_Some_2 _ j Hj) as [x Hx].
      destruct (ctr !! c) as [rootIndex|] eqn:Ec.
      * rewrite lookup_arr_upd, Hx.
        case_bool_decide as H1; case_bool_decide as H2; simplify_eq; try lia;
          unfold sumZ; simpl; lia.
      * rewrite bool_decide_eq_false_2 by done. unfold sumZ. simpl. lia.
    + unfold invertedSelf_step. destruct (e.2) as [c|]; [|done]. simpl.
      destruct (ctr !! c); [by rewrite length_arr_add|done].
Qed.

(** The root column holds, for every row, the root at the end of its chain
    of prefixes. *)
Lemma callNodeToRoot_fold_root_of t k :
  table_wfb t = true → (k ≤ cn_length t)%nat →
  let ctr := foldl (callNodeToRoot_step t) (zeros (cn_length t)) (seq 0 k) in
  length ctr = cn_length t
  ∧ ∀ c, (c < k)%nat → ∃ r : nat, ctr !! c = Some (Z.of_nat r) ∧ root_of t c r.
Proof.
  intros Hwf. induction k as [|k IH]; intros Hk; cbv zeta.
  - split; [apply length_zeros|]. intros c Hc. lia.
  - rewrite seq_S, foldl_app. simpl.
    destruct IH as [Hlen IH]; [lia|].
    set (ctr := foldl _ _ _) in *.
    assert (Hkn : (k < cn_length t)%nat) by lia.
    destruct (lookup_lt_is_Some_2 (cn_prefix t) k Hkn) as [p Hp].
    pose proof (table_wfb_lookup _ _ _ Hwf Hp) as Hpk.
    pose proof (table_wfb_length _ Hwf) as Hn.
    unfold callNodeToRoot_step, prefix_at. rewrite Hp. simpl.
    destruct (Z.eqb_spec p (-1)) as [->|Hne].
    + split; [by rewrite length_insert|].
      intros c Hc. destruct (decide (c = k)) as [->|Hck].
      * exists k. rewrite list_lookup_insert_eq by lia.
        rewrite to_int32_small by lia. split; [done|by constructor].
      * rewrite list_lookup_insert_ne by done. apply IH. lia.
    + destruct Hpk as [?|Hpk]; [done|].
      split; [by rewrite length_insert|].
      intros c Hc. destruct (decide (c = k)) as [->|Hck].
      * destruct (IH (Z.to_nat p)) as (r & Hr & Hroot); [lia|].
        exists r. rewrite list_lookup_insert_eq by lia.
        unfold arr_get. destruct (Z.ltb_spec p 0); [lia|]. rewrite Hr.
        split; [done|]. apply (root_of_child t k (Z.to_nat p) r); [|done].
        by rewrite Z2Nat.id by lia.
      * rewrite list_lookup_insert_ne by done. apply IH. lia.
Qed.

Lemma computeCallNodeToRoot_root_of t c :
  table_wfb t = true → (c < cn_length t)%nat →
  ∃ r : nat, computeCallNodeToRoot t !! c = Some (Z.of_nat r) ∧ root_of t c r.
Proof.
  intros Hwf Hc.
  destruct (callNodeToRoot_fold_root_of t (cn_length t) Hwf) as [_ H]; [done|].
  by apply H.
Qed.

(** A call node has one root. *)
Lemma root_of_unique t c r r' : root_of t c r → root_of t c r' → r = r'.
Proof.
  intros H. revert r'. induction H as [c Hc|c p r Hc _ IH]; intros r' H'.
  - inversion H' as [c' Hc'|c' p' r'' Hc' Hp']; simplify_eq; [done|lia].
  - inversion H' as [c' Hc'|c' p' r'' Hc' Hp']; simplify_eq; [lia|].
    by apply IH.
Qed.

(** The weight of the samples that pass a test depends on the test at the
    call nodes of the samples only. *)
Lemma weightOfSamples_ext samples entries (test test' : nat → bool) :
  (∀ i c, entries !! i = Some (Some c) → test c = test' c) →
  weightOfSamples samples entries test = weightOfSamples samples entries test'.
Proof.
  intros H. unfold weightOfSamples. f_equal. apply list_eq. intros i.
  rewrite !list_lookup_fmap, !list_lookup_imap.
  destruct (entries !! i) as [[c|]|] eqn:E; simpl; [|done|done].
  by rewrite (H i c E).
Qed.

(** C4, as the specification states it, fails on the code: the cells of
    [callNodeSelf] are binary32 floats, and a single sample of weight
    [2 ^ 24 + 1] leaves the self weight [2 ^ 24]. *)
Lemma self_weights_sum_is_rounded :
  ¬ (∀ samples info interval,
       samples_wfb samples info = true →
       sumZ (self (callNodeSummary
                     (computeCallTreeCountsAndSummary samples info interval false)))
       = weightOfNonNullStacks samples).
Proof.
  intros H. specialize (H HeavySample.samples HeavySample.info 1 eq_refl).
  vm_compute in H. discriminate.
Qed.

(** C4 (amended): for a samples-like table whose references are rows of
    their tables and whose weights are whole numbers with absolute values
    that add up to at most [2 ^ 24] over the samples that have a stack, the
    self weights of the un-inverted summary add up to the weight of those
    samples (1 per sample without a weight column); in the inverted variant
    the leaf array adds up to the same weight, and on a call node table in
    parent-before-child order so does [self], which is 0 at every row that
    is not a root and holds, at every row, the weight of the samples whose
    call node has that row as the root at the end of its chain of
    prefixes. *)
Theorem self_weights_sum samples info interval :
  samples_wfb samples info = true →
  magnitudeOfNonNullStacks samples ≤ 2 ^ 24 →
  let table := callNodeTable info in
  let entries := getSampleIndexToCallNodeIndex (s_stack samples)
                   (stackIndexToCallNodeIndex info) in
  sumZ (self (callNodeSummary (computeCallTreeCountsAndSummary samples info interval false)))
    = weightOfNonNullStacks samples
  ∧ sumZ (callNodeLeaf (_getInvertedStackSelf samples table entries))
    = weightOfNonNullStacks samples
  ∧ (table_wfb table = true →
       let invertedSelf :=
         self (callNodeSummary
                 (computeCallTreeCountsAndSummary samples info interval true)) in
       sumZ invertedSelf = weightOfNonNullStacks samples
       ∧ (∀ j, is_non_root table j → invertedSelf !! j = Some 0)
       ∧ (∀ (j : nat) (rooted_at_j : nat → bool),
            (j < cn_length table)%nat →
            (∀ c, (c < cn_length table)%nat →
                  rooted_at_j c = true ↔ root_of table c j) →
            invertedSelf !! j = Some (weightOfSamples samples entries rooted_at_j))).
Proof.
  intros Hwf Hmag table entries.
  pose proof (sample_entries_in_range _ _ Hwf) as Hrange.
  pose proof (sample_entries_weight _ _ Hwf) as Hweight.
  pose proof (sample_entries_magnitude _ _ Hwf) as Hentries.
  fold entries in Hrange, Hweight, Hentries. fold table in Hrange.
  assert (Hzero : sumZ (Z.abs <$> zeros (cn_length table))
                  + entries_magnitude samples (imap pair entries) ≤ 2 ^ 24).
  { rewrite sumZ_abs_zeros, Hentries. lia. }
  split; [|split].
  - unfold computeCallTreeCountsAndSummary. simpl. fold table entries.
    rewrite stackSelf_fold_sum.
    + rewrite sumZ_zeros, Hweight. lia.
    + by rewrite length_zeros.
    + done.
  - unfold _getInvertedStackSelf.
    destruct (invertedSelf_fold_leaf samples (cn_length table)
                (computeCallNodeToRoot table) (imap pair entries)
                (mkStackSelf (zeros (cn_length table)) (zeros (cn_length table))))
      as [_ H]; [apply length_zeros|done|done|].
    rewrite H. simpl. rewrite sumZ_zeros, Hweight. lia.
  - intros Htable invertedSelf. subst invertedSelf.
    unfold computeCallTreeCountsAndSummary. simpl. fold table entries.
    unfold _getInvertedStackSelf.
    destruct (invertedSelf_fold samples table (computeCallNodeToRoot table)
                (imap pair entries)
                (mkStackSelf (zeros (cn_length table)) (zeros (cn_length table))))
      as (Hlen & _ & Hsum & _ & Hnr); simpl; try apply length_zeros; try done.
    { intros c Hc. by apply computeCallNodeToRoot_roots. }
    split_and!.
    + rewrite Hsum. simpl. rewrite sumZ_zeros, Hweight. lia.
    + intros j Hj. rewrite (Hnr j Hj). simpl.
      apply lookup_replicate_2. destruct Hj as (p & Hp & _).
      by eapply lookup_lt_Some.
    + intros j rooted_at_j Hj Htest.
      destruct (lookup_lt_is_Some_2 _ j ltac:(rewrite Hlen; exact Hj)) as [x Hx].
      rewrite Hx. f_equal.
      pose proof (invertedSelf_fold_at samples (computeCallNodeToRoot table)
                    (imap pair entries)
                    (mkStackSelf (zeros (cn_length table)) (zeros (cn_length table))) j
                    ltac:(simpl; by rewrite length_zeros) Hzero Hzero) as H.
      rewrite Hx in H. simpl in H. unfold zeros in H at 1.
      rewrite lookup_replicate_2 in H by done. simpl in H.
      rewrite (weightOfSamples_ext samples entries rooted_at_j
                 (λ c, bool_decide (computeCallNodeToRoot table !! c
                                    = Some (Z.of_nat j)))).
      * unfold weightOfSamples. lia.
      * intros i c Hi.
        assert (Hc : (c < cn_length table)%nat).
        { rewrite Forall_lookup in Hrange.
          apply (Hrange i (i, Some c)); [|done].
          by rewrite list_lookup_imap, Hi. }
        destruct (computeCallNodeToRoot_root_of table c Htable Hc) as (r & Hr & Hroot).
        rewrite Hr. destruct (rooted_at_j c) eqn:Et.
        -- apply Htest in Et; [|done].
           rewrite (root_of_unique _ _ _ _ Hroot Et).
           symmetry. by apply bool_decide_eq_true.
        -- symmetry. apply bool_decide_eq_false. intros E.
           assert (r = j) as -> by (injection E; lia).
           apply Htest in Hroot; [|done]. congruence.
Qed.

Lemma self_weights_sum_witness :
  samples_wfb Scenario.samples Scenario.info = true
  ∧ magnitudeOfNonNullStacks Scenario.samples ≤ 2 ^ 24
  ∧ table_wfb (callNodeTable Scenario.info) = true
  ∧ sumZ (self (callNodeSummary
                  (computeCallTreeCountsAndSummary Scenario.samples Scenario.info 1 false)))
    = 3
  ∧ sumZ (self (callNodeSummary
                  (computeCallTreeCountsAndSummary Scenario.samples Scenario.info 1 true)))
    = 3
  ∧ self (callNodeSummary
            (computeCallTreeCountsAndSummary Scenario.samples Scenario.info 1 true))
      !! 0%nat
    = Some (weightOfSamples Scenario.samples
              (getSampleIndexToCallNodeIndex (s_stack Scenario.samples)
                 (stackIndexToCallNodeIndex Scenario.info))
              (λ _, true)).
Proof.
  assert (Hmag : magnitudeOfNonNullStacks Scenario.samples ≤ 2 ^ 24)
    by (vm_compute; discriminate).
  pose proof (self_weights_sum Scenario.samples Scenario.info 1 eq_refl Hmag)
    as (H1 & _ & H3).
  destruct (H3 eq_refl) as (H4 & _ & H5).
  split; [reflexivity|]. split; [exact Hmag|]. split; [reflexivity|].
  split; [exact H1|]. split; [exact H4|].
  apply (H5 0%nat (λ _, true)); [vm_compute; lia|].
  intros c Hc. split; [intros _|done].
  assert (H0 : root_of (callNodeTable Scenario.info) 0 0) by (by constructor).
  assert (H1' : root_of (callNodeTable Scenario.info) 1 0)
    by (by apply (root_of_child _ 1 0 0)).
  destruct c as [|[|[|c]]]; [exact H0|exact H1'| |vm_compute in Hc; lia].
  by apply (root_of_child _ 2 1 0).
Defined.

(** ** Sorting with a comparator *)

Section js_sort.
Context {A : Type} (cmp : A → A → Z).

Lemma sort_insert_perm x l : sort_insert cmp x l ≡ₚ x :: l.
Proof.
  induction l as [|y l IH]; simpl; [done|].
  destruct (cmp x y <=? 0); [done|].
  rewrite IH. apply Permutation_swap.
Qed.

Lemma js_sort_perm l : js_sort cmp l ≡ₚ l.
Proof.
  induction l as [|x l IH]; simpl; [done|].
  unfold js_sort in *. simpl. rewrite sort_insert_perm. by rewrite IH.
Qed.

(** A comparator that is consistent: what it does not put before, it puts
    after, and "not after" is transitive. *)
Hypothesis cmp_total : ∀ a b, 0 < cmp a b → cmp b a ≤ 0.
Hypothesis cmp_trans : ∀ a b c, cmp a b ≤ 0 → cmp b c ≤ 0 → cmp a c ≤ 0.


End js_sort.




(** ** The scan for the children of a node *)

Lemma children_scan_take t node count cands acc :
  children_scan t node count cands acc
  = acc ++ take (Z.to_nat (count - Z.of_nat (length acc)))
             (List.filter (is_child t node) cands).
Proof.
  revert acc. induction cands as [|c cands IH]; intros acc; simpl.
  - by rewrite take_nil, app_nil_r.
  - destruct (Z.ltb_spec (Z.of_nat (length acc)) count) as [Hlt|Hge].
    + rewrite IH. destruct (is_child t node c).
      * rewrite length_app. simpl. rewrite <- app_assoc. simpl. f_equal.
        replace (Z.to_nat (count - Z.of_nat (length acc)))
          with (S (Z.to_nat (count - Z.of_nat (length acc + 1)))) by lia.
        done.
      * done.
    + replace (Z.to_nat (count - Z.of_nat (length acc))) with O by lia.
      by rewrite take_0, app_nil_r.
Qed.

(** ** The reverse loop of the aggregation *)

Lemma totals_step_spec table leaf k st p :
  cn_prefix table !! k = Some p → p = -1 ∨ 0 ≤ p < Z.of_nat k →
  let st' := totals_step table leaf k st in
  let act := step_active leaf k st in
  length (ts_total st') = length (ts_total st)
  ∧ length (ts_childCount st') = length (ts_childCount st)
  ∧ (∀ j, (k < j)%nat → ts_total st' !! j = ts_total st !! j)
  ∧ ts_total st' !! k = (λ x, float32_add x (default 0 (leaf !! k))) <$> ts_total st !! k
  ∧ (∀ j, ts_childCount st' !! j
          = if act && bool_decide (p = Z.of_nat j)
            then (λ x, to_uint32 (x + 1)) <$> ts_childCount st !! j
            else ts_childCount st !! j)
  ∧ ts_rootCount st' = ts_rootCount st + (if act && (p =? -1) then 1 else 0).
Proof.
  intros Hp Hpk st' act. subst st' act.
  unfold totals_step, step_active, prefix_at. rewrite Hp. simpl.
  set (leafHere := default 0 (leaf !! k)).
  set (total1 := arr_add (ts_total st) (Z.of_nat k) leafHere).
  set (hc := negb (default 0 (ts_childCount st !! k) =? 0)).
  set (ht := negb (default 0 (total1 !! k) =? 0)).
  assert (Ht1 : ∀ j, total1 !! j
            = if bool_decide (Z.of_nat k = Z.of_nat j)
              then (λ x, float32_add x leafHere) <$> ts_total st !! j
              else ts_total st !! j).
  { intros j. unfold total1, arr_add. apply lookup_arr_upd. }
  rewrite <- negb_orb.
  destruct (hc || ht) eqn:Eact; simpl.
  - destruct (Z.eqb_spec p (-1)) as [->|Hne]; simpl.
    + split_and!.
      * unfold total1. apply length_arr_add.
      * done.
      * intros j Hj. rewrite Ht1. by rewrite bool_decide_eq_false_2 by lia.
      * rewrite Ht1. by rewrite bool_decide_eq_true_2 by lia.
      * intros j. by rewrite bool_decide_eq_false_2 by lia.
      * lia.
    + destruct Hpk as [?|Hpk]; [done|]. split_and!.
      * unfold total1. by rewrite !length_arr_add.
      * unfold arr_incr32. apply length_arr_upd.
      * intros j Hj. unfold arr_add at 1. rewrite lookup_arr_upd.
        rewrite bool_decide_eq_false_2 by lia.
        rewrite Ht1. by rewrite bool_decide_eq_false_2 by lia.
      * unfold arr_add at 1. rewrite lookup_arr_upd.
        rewrite bool_decide_eq_false_2 by lia.
        rewrite Ht1. by rewrite bool_decide_eq_true_2 by lia.
      * intros j. unfold arr_incr32. apply lookup_arr_upd.
      * lia.
  - split_and!.
    + unfold total1. apply length_arr_add.
    + done.
    + intros j Hj. rewrite Ht1. by rewrite bool_decide_eq_false_2 by lia.
    + rewrite Ht1. by rewrite bool_decide_eq_true_2 by lia.
    + done.
    + lia.
Qed.

Lemma totals_loop_length table leaf k st :
  table_wfb table = true → (k ≤ cn_length table)%nat →
  let fin := totals_loop table leaf k st in
  length (ts_total fin) = length (ts_total st)
  ∧ length (ts_childCount fin) = length (ts_childCount st).
Proof.
  intros Hwf. revert st. induction k as [|k IH]; intros st Hk; simpl; [done|].
  destruct (lookup_lt_is_Some_2 (cn_prefix table) k) as [p Hp]; [unfold cn_length in Hk; lia|].
  pose proof (table_wfb_lookup _ _ _ Hwf Hp) as Hpk.
  destruct (totals_step_spec table leaf k st p Hp Hpk) as (H1 & H2 & _).
  destruct (IH (totals_step table leaf k st)) as [H3 H4]; [lia|].
  simpl in H3, H4. split; congruence.
Qed.

(** Rows at and above [k] are final once the loop has only the rows below
    [k] left. *)
Lemma totals_loop_frozen table leaf k st j :
  table_wfb table = true → (k ≤ cn_length table)%nat → (k ≤ j)%nat →
  let fin := totals_loop table leaf k st in
  ts_total fin !! j = ts_total st !! j
  ∧ ts_childCount fin !! j = ts_childCount st !! j.
Proof.
  intros Hwf. revert st. induction k as [|k IH]; intros st Hk Hj; simpl; [done|].
  destruct (lookup_lt_is_Some_2 (cn_prefix table) k) as [p Hp]; [unfold cn_length in Hk; lia|].
  pose proof (table_wfb_lookup _ _ _ Hwf Hp) as Hpk.
  destruct (totals_step_spec table leaf k st p Hp Hpk) as (_ & _ & H3 & _ & H5 & _).
  destruct (IH (totals_step table leaf k st)) as [H6 H7]; [lia|lia|].
  simpl in H6, H7. rewrite H6, H7, H3, H5 by lia.
  rewrite bool_decide_eq_false_2 by lia. by rewrite andb_false_r.
Qed.

Lemma to_uint32_range z : 0 ≤ to_uint32 z < 2 ^ 32.
Proof. unfold to_uint32. apply Z.mod_pos_bound. lia. Qed.

Lemma counted_rows_S table fin node k :
  counted_rows table fin node (S k)
  = counted_rows table fin node k + (if counted_row table fin node k then 1 else 0).
Proof.
  unfold counted_rows. rewrite seq_S, List.filter_app, length_app. simpl.
  destruct (counted_row table fin node k); simpl; lia.
Qed.

Lemma counted_rows_bounds table fin node k :
  0 ≤ counted_rows table fin node k ≤ Z.of_nat k.
Proof.
  unfold counted_rows. pose proof (List.filter_length_le (counted_row table fin node) (seq 0 k)) as H.
  rewrite length_seq in H. lia.
Qed.

(** What the reverse loop has counted when it ends: for every row [q] the
    number of rows with prefix [q] that are not skipped, and for the roots
    the number of rows with prefix [-1] that are not skipped. *)
Lemma totals_loop_counts table leaf k st :
  table_wfb table = true → (k ≤ cn_length table)%nat →
  Forall (λ x, 0 ≤ x < 2 ^ 32) (ts_childCount st) →
  let fin := totals_loop table leaf k st in
  (∀ (q : nat) x, ts_childCount st !! q = Some x →
     ts_childCount fin !! q
     = Some ((x + counted_rows table fin (Z.of_nat q) k) mod 2 ^ 32))
  ∧ ts_rootCount fin = ts_rootCount st + counted_rows table fin (-1) k.
Proof.
  intros Hwf. revert st. induction k as [|k IH]; intros st Hk Hrange.
  - simpl. split.
    + intros q x Hq. unfold counted_rows. simpl. rewrite Z.add_0_r.
      rewrite Z.mod_small; [done|]. eapply Forall_lookup_1 in Hrange; eauto.
    + unfold counted_rows. simpl. lia.
  - cbv zeta. simpl totals_loop.
    destruct (lookup_lt_is_Some_2 (cn_prefix table) k) as [p Hp]; [unfold cn_length in Hk; lia|].
    pose proof (table_wfb_lookup _ _ _ Hwf Hp) as Hpk.
    destruct (totals_step_spec table leaf k st p Hp Hpk) as (_ & _ & _ & H4 & H5 & H6).
    set (st' := totals_step table leaf k st) in *.
    set (act := step_active leaf k st) in *.
    assert (Hrange' : Forall (λ x, 0 ≤ x < 2 ^ 32) (ts_childCount st')).
    { apply Forall_lookup_2. intros j y Hj. rewrite H5 in Hj.
      destruct (act && bool_decide (p = Z.of_nat j)).
      - destruct (ts_childCount st !! j); simplify_eq/=. apply to_uint32_range.
      - eapply Forall_lookup_1 in Hrange; eauto. }
    destruct (IH st') as [IHc IHr]; [lia|done|].
    destruct (totals_loop_frozen table leaf k st' k Hwf) as [Hft Hfc]; [lia|lia|].
    set (fin := totals_loop table leaf k st') in *.
    assert (Hrow : ∀ node, counted_row table fin node k = (p =? node) && act).
    { intros node. unfold counted_row, prefix_at. rewrite Hp. simpl. f_equal.
      rewrite Hft, Hfc, H4, H5.
      rewrite bool_decide_eq_false_2 by lia. rewrite andb_false_r.
      unfold act, step_active, arr_add. rewrite lookup_arr_upd.
      rewrite bool_decide_eq_true_2 by done. apply orb_comm. }
    split.
    + intros q x Hq. rewrite counted_rows_S, Hrow.
      specialize (H5 q). rewrite Hq in H5. simpl in H5.
      destruct act; simpl in *.
      * case_bool_decide as E.
        -- rewrite (IHc q _ H5). destruct (Z.eqb_spec p (Z.of_nat q)); [|done].
           f_equal. unfold to_uint32. rewrite Z.add_mod_idemp_l by lia. f_equal. simpl. lia.
        -- rewrite (IHc q _ H5). destruct (Z.eqb_spec p (Z.of_nat q)); [done|].
           simpl. f_equal. f_equal. lia.
      * rewrite (IHc q _ H5). rewrite andb_false_r. f_equal. f_equal. lia.
    + rewrite counted_rows_S, Hrow, IHr, H6.
      destruct act, (p =? -1); simpl; lia.
Qed.

(** ** The children of a call node *)

Lemma filter_length_mono {A} (f g : A → bool) l :
  (∀ x, x ∈ l → f x = true → g x = true) →
  (length (List.filter f l) ≤ length (List.filter g l))%nat.
Proof.
  induction l as [|x l IH]; intros H; simpl; [done|].
  assert (IH' : (length (List.filter f l) ≤ length (List.filter g l))%nat).
  { apply IH. intros y Hy. apply H. by right. }
  destruct (f x) eqn:Ef.
  - rewrite (H x) by (done || by left). simpl. lia.
  - destruct (g x); simpl; lia.
Qed.

Lemma filter_nil_iff {A} (f : A → bool) l :
  (∀ x, x ∈ l → f x = false) → List.filter f l = [].
Proof.
  induction l as [|x l IH]; intros H; simpl; [done|].
  rewrite (H x) by by left. apply IH. intros y Hy. apply H. by right.
Qed.

Section children.
Context (thread : Thread) (samples : SamplesLikeTable) (info : CallNodeInfo).
Context (interval : Z) (invertCallstack : bool).

Let table := callNodeTable info.
Let n := cn_length table.
Let counts := computeCallTreeCountsAndSummary samples info interval invertCallstack.
Let tree := getCallTree thread info counts.

Hypothesis Hwf : table_wfb table = true.

(** The state of the reverse loop that [counts] is read from. *)
Let fin : TotalsState :=
  let entries := getSampleIndexToCallNodeIndex (s_stack samples)
                   (stackIndexToCallNodeIndex info) in
  let ss := if invertCallstack
            then _getInvertedStackSelf samples table entries
            else _getStackSelf samples table entries in
  totals_loop table (callNodeLeaf ss) n (mkTotals (zeros n) (zeros n) 0 0).

Local Lemma tree_fields :
  _callNodeTable tree = table
  ∧ _callNodeChildCount tree = ts_childCount fin
  ∧ total (_callNodeSummary tree) = snap_root invertCallstack (ts_total fin)
  ∧ _rootCount tree = ts_rootCount fin.
Proof. done. Qed.

Local Lemma fin_lengths :
  length (ts_total fin) = n ∧ length (ts_childCount fin) = n.
Proof.
  destruct (totals_loop_length table
              (callNodeLeaf (if invertCallstack
                 then _getInvertedStackSelf samples table
                        (getSampleIndexToCallNodeIndex (s_stack samples)
                           (stackIndexToCallNodeIndex info))
                 else _getStackSelf samples table
                        (getSampleIndexToCallNodeIndex (s_stack samples)
                           (stackIndexToCallNodeIndex info))))
              n (mkTotals (zeros n) (zeros n) 0 0) Hwf) as [H1 H2]; [done|].
  simpl in H1, H2. rewrite length_zeros in H1, H2. done.
Qed.

Local Lemma fin_counts (node : Z) :
  node = -1 ∨ 0 ≤ node < Z.of_nat n →
  (if node =? -1 then Some (_rootCount tree)
   else arr_get (_callNodeChildCount tree) node)
  = Some (counted_rows table fin node n).
Proof.
  intros Hnode.
  destruct (totals_loop_counts table
              (callNodeLeaf (if invertCallstack
                 then _getInvertedStackSelf samples table
                        (getSampleIndexToCallNodeIndex (s_stack samples)
                           (stackIndexToCallNodeIndex info))
                 else _getStackSelf samples table
                        (getSampleIndexToCallNodeIndex (s_stack samples)
                           (stackIndexToCallNodeIndex info))))
              n (mkTotals (zeros n) (zeros n) 0 0) Hwf) as [Hc Hr]; [done| |].
  { simpl. apply Forall_forall. intros x Hx.
    apply elem_of_replicate in Hx as [-> _]. lia. }
  fold fin in Hc, Hr. simpl in Hc, Hr.
  destruct (Z.eqb_spec node (-1)) as [->|Hne].
  - f_equal. change (_rootCount tree) with (ts_rootCount fin). lia.
  - destruct Hnode as [?|Hnode]; [done|].
    change (_callNodeChildCount tree) with (ts_childCount fin).
    unfold arr_get. destruct (Z.ltb_spec node 0); [lia|].
    rewrite (Hc (Z.to_nat node) 0).
    + rewrite Z2Nat.id by lia. f_equal. rewrite Z.add_0_l.
      apply Z.mod_small.
      pose proof (counted_rows_bounds table fin node n) as Hb.
      pose proof (table_wfb_length _ Hwf) as Hlen.
      change (cn_length table) with n in Hlen. lia.
    + apply lookup_replicate_2. lia.
Qed.

Local Lemma snap_root_nonzero (c : nat) :
  is_nonzero (snap_root invertCallstack (ts_total fin) !! c) = true →
  (c < n)%nat →
  negb (default 0 (ts_total fin !! c) =? 0) = true.
Proof.
  intros Hnz Hc. destruct fin_lengths as [Hlen _].
  destruct (lookup_lt_is_Some_2 (ts_total fin) c) as [x Hx]; [lia|].
  rewrite Hx. simpl. unfold snap_root in Hnz.
  destruct (ts_total fin !! 0%nat) as [t0|] eqn:E0.
  - destruct (negb invertCallstack && (t0 <? 10)).
    + destruct c as [|c].
      * rewrite list_lookup_insert_eq in Hnz by lia. done.
      * rewrite list_lookup_insert_ne in Hnz by done. rewrite Hx in Hnz.
        simpl in Hnz. by destruct x.
    + rewrite Hx in Hnz. simpl in Hnz. by destruct x.
  - rewrite Hx in Hnz. simpl in Hnz. by destruct x.
Qed.

Local Lemma is_child_counted node (c : nat) :
  (c < n)%nat → is_child tree node c = true → counted_row table fin node c = true.
Proof.
  intros Hc Hch. unfold is_child in Hch.
  apply andb_true_iff in Hch as [Hp Hnz]. apply bool_decide_eq_true in Hp.
  change (_callNodeTable tree) with table in Hp.
  unfold counted_row, prefix_at. rewrite Hp. simpl. rewrite Z.eqb_refl. simpl.
  apply orb_true_iff in Hnz as [Hnz|Hnz]; apply orb_true_iff.
  - left. by apply snap_root_nonzero.
  - right. change (_callNodeChildCount tree) with (ts_childCount fin) in Hnz.
    destruct fin_lengths as [_ Hlen].
    destruct (lookup_lt_is_Some_2 (ts_childCount fin) c) as [y Hy]; [lia|].
    rewrite Hy in Hnz |- *. simpl in *. by destruct y.
Qed.

Local Lemma is_child_above node (c : nat) :
  is_child tree node c = true → node < Z.of_nat c ∧ (c < n)%nat.
Proof.
  intros Hch. unfold is_child in Hch.
  apply andb_true_iff in Hch as [Hp _]. apply bool_decide_eq_true in Hp.
  change (_callNodeTable tree) with table in Hp.
  split; [|by eapply lookup_lt_Some].
  destruct (table_wfb_lookup _ _ _ Hwf Hp); lia.
Qed.

(** On a miss of the cache, the scan finds every row that passes the test
    of [getChildren]: the count that bounds it is never too small. *)
Lemma computeChildren_all node :
  node = -1 ∨ 0 ≤ node < Z.of_nat n →
  computeChildren tree node
  = js_sort (compareChildren tree) (List.filter (is_child tree node) (seq 0 n)).
Proof.
  intros Hnode. unfold computeChildren. rewrite (fin_counts node Hnode).
  f_equal. rewrite children_scan_take. simpl.
  change (cn_length (_callNodeTable tree)) with n.
  set (start := Z.to_nat (node + 1)).
  assert (Hstart : (start ≤ n)%nat) by lia.
  assert (Hseq : seq 0 n = seq 0 start ++ seq start (n - start)).
  { replace n with (start + (n - start))%nat at 1 by lia. apply seq_app. }
  rewrite Hseq, List.filter_app.
  rewrite (filter_nil_iff _ (seq 0 start)).
  - simpl. apply take_ge. rewrite Z.sub_0_r.
    transitivity (length (List.filter (counted_row table fin node) (seq 0 n))).
    + rewrite Hseq, List.filter_app, length_app.
      etransitivity; [|apply Nat.le_add_l].
      apply filter_length_mono. intros x Hx. apply is_child_counted.
      apply elem_of_seq in Hx. lia.
    + unfold counted_rows. lia.
  - intros x Hx. apply elem_of_seq in Hx.
    destruct (is_child tree node x) eqn:E; [|done].
    apply is_child_above in E. lia.
Qed.
End children.


(** The answer of a miss does not depend on the cache. *)
Lemma children_scan_ext t1 t2 node count cands acc :
  (∀ c, is_child t1 node c = is_child t2 node c) →
  children_scan t1 node count cands acc = children_scan t2 node count cands acc.
Proof.
  intros H. revert acc. induction cands as [|c cands IH]; intros acc; simpl; [done|].
  rewrite H. by rewrite !IH.
Qed.

Lemma js_sort_ext {A} (cmp1 cmp2 : A → A → Z) l :
  (∀ a b, cmp1 a b = cmp2 a b) → js_sort cmp1 l = js_sort cmp2 l.
Proof.
  intros H. unfold js_sort. induction l as [|x l IH]; simpl; [done|].
  rewrite IH. generalize (foldr (sort_insert cmp2) [] l). intros k.
  induction k as [|y k IHk]; simpl; [done|]. by rewrite H, IHk.
Qed.

Lemma computeChildren_cache t cache i :
  computeChildren
    (mkCallTree (_thread t) (_callNodeTable t) (_callNodeSummary t)
       (_callNodeChildCount t) (_rootTotalSummary t) (_rootCount t) cache) i
  = computeChildren t i.
Proof.
  unfold computeChildren. simpl.
  rewrite (js_sort_ext _ (compareChildren t)) by done.
  f_equal. destruct (if i =? -1 then _ else _); [|done].
  by apply children_scan_ext.
Qed.

(** The cache only ever holds what a miss computes. *)
Lemma queried_from_cache t0 t :
  _children t0 = ∅ → queried_from t0 t →
  ∃ cache,
    t = mkCallTree (_thread t0) (_callNodeTable t0) (_callNodeSummary t0)
          (_callNodeChildCount t0) (_rootTotalSummary t0) (_rootCount t0) cache
    ∧ ∀ i l, cache !! i = Some l → l = computeChildren t0 i.
Proof.
  intros Hempty. induction 1 as [|t i Hq (cache & -> & Hcache)].
  - exists ∅. split; [destruct t0; simpl in *; by subst|]. intros i l Hl.
    by rewrite lookup_empty in Hl.
  - unfold getChildren. simpl.
    destruct (cache !! i) as [l|] eqn:E; simpl; [eauto|].
    eexists. split; [reflexivity|].
    intros j l Hl. destruct (decide (i = j)) as [->|Hij].
    + rewrite lookup_insert_eq in Hl. simplify_eq. apply computeChildren_cache.
    + rewrite lookup_insert_ne in Hl by done. eauto.
Qed.

Lemma getChildren_queried t0 t i :
  _children t0 = ∅ → queried_from t0 t → (getChildren t i).1 = computeChildren t0 i.
Proof.
  intros Hempty Hq. destruct (queried_from_cache t0 t Hempty Hq) as (cache & -> & Hcache).
  unfold getChildren. simpl. destruct (cache !! i) as [l|] eqn:E; simpl; [eauto|].
  apply computeChildren_cache.
Qed.



(** The order in the diff scenario: 20 before -20 before 5 before -5. *)
Example diff_scenario_children :
  (getChildren DiffScenario.tree 0).1 = [4; 3; 2; 1]%nat
  ∧ (getRoots DiffScenario.tree).1 = [0%nat].
Proof. split; vm_compute; reflexivity. Qed.

(** ** Substitution of funcs *)

Lemma applyFuncSubstitution_fold (m : FuncToFuncsMap) (path acc : list nat) :
  foldl (λ accum oldFunc,
           match m !! oldFunc with
           | None => accum ++ [oldFunc]
           | Some newFuncs => accum ++ newFuncs
           end) acc path
  = acc ++ (path ≫= funcSubstitution m).
Proof.
  revert acc. induction path as [|f path IH]; intros acc; simpl.
  - by rewrite app_nil_r.
  - rewrite IH. unfold funcSubstitution at 2.
    destruct (m !! f); simpl; by rewrite <- app_assoc.
Qed.

Lemma applyFuncSubstitution_bind (m : FuncToFuncsMap) (path : list nat) :
  applyFuncSubstitutionToCallPath m path = path ≫= funcSubstitution m.
Proof. unfold applyFuncSubstitutionToCallPath. by rewrite applyFuncSubstitution_fold. Qed.

Lemma applyFuncSubstitution_app (m : FuncToFuncsMap) (p q : list nat) :
  applyFuncSubstitutionToCallPath m (p ++ q)
  = applyFuncSubstitutionToCallPath m p ++ applyFuncSubstitutionToCallPath m q.
Proof. rewrite !applyFuncSubstitution_bind. apply bind_app. Qed.

Lemma applyFuncSubstitution_singleton (m : FuncToFuncsMap) (f : nat) :
  applyFuncSubstitutionToCallPath m [f] = funcSubstitution m f.
Proof. rewrite applyFuncSubstitution_bind. simpl. apply app_nil_r. Qed.

Lemma substitutedPaths_spec (m : FuncToFuncsMap) (p q : list nat) :
  q ∈ substitutedPaths m p
  ↔ q = applyFuncSubstitutionToCallPath m p
    ∨ ∃ p' leaf fs k,
        p = p' ++ [leaf] ∧ m !! leaf = Some fs ∧ (1 ≤ k < length fs)%nat
        ∧ q = applyFuncSubstitutionToCallPath m p' ++ take k fs.
Proof.
  unfold substitutedPaths. rewrite elem_of_cons.
  apply or_iff_compat_l.
  destruct (last p) as [leaf|] eqn:Elast.
  - apply last_Some in Elast as [p' ->].
    rewrite applyFuncSubstitution_app, applyFuncSubstitution_singleton.
    unfold funcSubstitution. destruct (m !! leaf) as [fs|] eqn:Em; simpl.
    + destruct (Nat.ltb_spec 1 (length fs)) as [Hlen|Hlen].
      * rewrite list_elem_of_fmap. split.
        -- intros (i & -> & Hi). apply elem_of_seq in Hi.
           exists p', leaf, fs, (length fs - i)%nat.
           split_and!; [done|done|lia|lia|].
           rewrite length_app. rewrite take_app_ge by lia.
           f_equal. f_equal. lia.
        -- intros (p'' & leaf' & fs' & k & Heq & Hm & Hk & ->).
           apply app_inj_tail in Heq as [-> ->]. simplify_eq.
           exists (length fs - k)%nat. split.
           ++ rewrite length_app. rewrite take_app_ge by lia.
              f_equal. f_equal. lia.
           ++ apply elem_of_seq. lia.
      * split; [by intros ?%elem_of_nil|].
        intros (p'' & leaf' & fs' & k & Heq & Hm & Hk & ->).
        apply app_inj_tail in Heq as [-> ->]. simplify_eq. lia.
    + split; [by intros ?%elem_of_nil|].
      intros (p'' & leaf' & fs' & k & Heq & Hm & Hk & ->).
      apply app_inj_tail in Heq as [-> ->]. congruence.
  - apply last_None in Elast as ->. simpl.
    split; [by intros ?%elem_of_nil|].
    intros (p'' & leaf' & fs' & k & Heq & _). by destruct p''.
Qed.

Lemma newPathSet_fold (m : FuncToFuncsMap) (paths acc : list (list nat)) :
  foldl (λ newPathSet callPath, newPathSet ++ substitutedPaths m callPath) acc paths
  = acc ++ (paths ≫= substitutedPaths m).
Proof.
  revert acc. induction paths as [|p paths IH]; intros acc; simpl.
  - by rewrite app_nil_r.
  - rewrite IH. by rewrite <- app_assoc.
Qed.

(** C7: the substitution of a call path replaces, from left to right, each
    func that is a key of the map by the list the map gives for it and keeps
    every other func; the substitution of a path set holds the substituted
    paths and, for a path whose leaf is replaced by several funcs, the
    substituted path cut after each but the last of them.  With
    [7 ↦ [7; 9]], the path [1; 7; 3] becomes [1; 7; 9; 3] and the set
    [{[1; 7]}] becomes [{[1; 7; 9], [1; 7]}]. *)
Theorem func_substitution :
  (∀ (m : FuncToFuncsMap) (path : list nat),
     applyFuncSubstitutionToCallPath m path
     = path ≫= λ f, match m !! f with Some newFuncs => newFuncs | None => [f] end)
  ∧ (∀ (m : FuncToFuncsMap) (pathSet : PathSet) (q : list nat),
       q ∈ applyFuncSubstitutionToPathSetAndIncludeNewAncestors m pathSet
       ↔ ∃ p, p ∈ pathSet
              ∧ (q = applyFuncSubstitutionToCallPath m p
                 ∨ ∃ p' leaf fs k,
                     p = p' ++ [leaf] ∧ m !! leaf = Some fs
                     ∧ (1 ≤ k < length fs)%nat
                     ∧ q = applyFuncSubstitutionToCallPath m p' ++ take k fs))
  ∧ applyFuncSubstitutionToCallPath Inlining.map Inlining.path = [1; 7; 9; 3]%nat
  ∧ applyFuncSubstitutionToPathSetAndIncludeNewAncestors Inlining.map Inlining.pathSet
    = {[ [1; 7; 9]%nat; [1; 7]%nat ]}.
Proof.
  assert (Hset : ∀ (m : FuncToFuncsMap) (pathSet : PathSet) (q : list nat),
       q ∈ applyFuncSubstitutionToPathSetAndIncludeNewAncestors m pathSet
       ↔ ∃ p, p ∈ pathSet
              ∧ (q = applyFuncSubstitutionToCallPath m p
                 ∨ ∃ p' leaf fs k,
                     p = p' ++ [leaf] ∧ m !! leaf = Some fs
                     ∧ (1 ≤ k < length fs)%nat
                     ∧ q = applyFuncSubstitutionToCallPath m p' ++ take k fs)).
  { intros m pathSet q.
    unfold applyFuncSubstitutionToPathSetAndIncludeNewAncestors.
    rewrite elem_of_list_to_set, newPathSet_fold. simpl.
    rewrite list_elem_of_bind. split.
    - intros (p & Hq & Hp). exists p. split; [by apply elem_of_elements|].
      by apply substitutedPaths_spec.
    - intros (p & Hp & Hq). exists p. split; [by apply substitutedPaths_spec|].
      by apply elem_of_elements. }
  split_and!.
  - intros m path. rewrite applyFuncSubstitution_bind. f_equal.
  - exact Hset.
  - reflexivity.
  - apply set_eq. intros q. rewrite Hset. unfold Inlining.pathSet, Inlining.map.
    rewrite elem_of_union, !elem_of_singleton. split.
    + intros (p & Hp & Hq). apply elem_of_singleton in Hp as ->.
      destruct Hq as [->|(p' & leaf & fs & k & Heq & Hm & Hk & ->)].
      * by left.
      * change [1; 7]%nat with ([1%nat] ++ [7%nat]) in Heq.
        apply app_inj_tail in Heq as [<- <-].
        rewrite lookup_singleton_eq in Hm. simplify_eq. simpl in Hk.
        assert (k = 1%nat) as -> by lia. by right.
    + intros [->| ->]; exists [1; 7]%nat; (split; [by apply elem_of_singleton|]).
      * by left.
      * right. exists [1%nat], 7%nat, [7; 9]%nat, 1%nat.
        split; [done|]. split; [apply lookup_singleton_eq|].
        split; [simpl; lia|done].
Qed.

(** ** The strategy of the call tree summary *)

(** C10: on a thread whose samples table is empty and whose native
    allocations table exists and is not empty, the strategy [timing] is
    replaced by [native_allocations]; without a JS allocations table
    [js_allocations] becomes [timing], and without a native allocations table
    each of the four native strategies becomes [timing]. *)
Theorem summary_strategy_fallbacks (thread : Thread) :
  (s_length (th_samples thread) = 0%nat →
   (∃ nativeAllocations,
      th_nativeAllocations thread = Some nativeAllocations
      ∧ (0 < s_length nativeAllocations)%nat) →
   getCallTreeSummaryStrategy thread timing = native_allocations)
  ∧ (th_jsAllocations thread = None →
     getCallTreeSummaryStrategy thread js_allocations = timing)
  ∧ (th_nativeAllocations thread = None →
     ∀ s, uses_native_allocations s = true →
          getCallTreeSummaryStrategy thread s = timing).
Proof.
  split_and!.
  - intros Hlen (na & Hna & Hpos). unfold getCallTreeSummaryStrategy.
    rewrite Hlen, Hna. simpl.
    destruct (Nat.ltb_spec 0 (s_length na)); [done|lia].
  - intros Hjs. unfold getCallTreeSummaryStrategy. by rewrite Hjs.
  - intros Hna s Hs. unfold getCallTreeSummaryStrategy. rewrite Hna.
    by destruct s.
Qed.

Lemma summary_strategy_fallbacks_witness :
  s_length (th_samples allocationsOnlyThread) = 0%nat
  ∧ th_jsAllocations allocationsOnlyThread = None
  ∧ th_nativeAllocations Scenario.thread = None
  ∧ getCallTreeSummaryStrategy allocationsOnlyThread timing = native_allocations
  ∧ getCallTreeSummaryStrategy allocationsOnlyThread js_allocations = timing
  ∧ getCallTreeSummaryStrategy Scenario.thread native_retained_allocations = timing.
Proof.
  destruct (summary_strategy_fallbacks allocationsOnlyThread) as (H1 & H2 & _).
  destruct (summary_strategy_fallbacks Scenario.thread) as (_ & _ & H3).
  split; [reflexivity|]. split; [reflexivity|]. split; [reflexivity|].
  split; [|split].
  - apply H1; [reflexivity|]. eexists. split; [reflexivity|].
    unfold s_length. simpl. lia.
  - apply H2. reflexivity.
  - apply H3; reflexivity.
Defined.

(** ** Correspondence of the call nodes of two trees *)

Section Correspondence_facts.
Context (cyrb53 : string → N).
Context (getFileNameAnnotationForFunc : option nat → Thread → string).

Local Abbreviation pathHash' := (pathHash cyrb53 getFileNameAnnotationForFunc).
Local Abbreviation pathHashes_upto' :=
  (pathHashes_upto cyrb53 getFileNameAnnotationForFunc).
Local Abbreviation pathHashes' := (pathHashes cyrb53 getFileNameAnnotationForFunc).
Local Abbreviation rollingHash' := (rollingHash cyrb53 getFileNameAnnotationForFunc).
Local Abbreviation compare_loop' := (compare_loop cyrb53 getFileNameAnnotationForFunc).
Local Abbreviation selected_loop' :=
  (selected_loop cyrb53 getFileNameAnnotationForFunc).


Lemma pathHashes_upto_S t k :
  pathHashes_upto' t (S k) = <[k := rollingHash' t k]> (pathHashes_upto' t k).
Proof. unfold pathHashes_upto. by rewrite seq_S, foldl_app. Qed.

Lemma length_pathHashes_upto t k :
  length (pathHashes_upto' t k) = cn_length (_callNodeTable t).
Proof.
  induction k as [|k IH]; [apply length_replicate|].
  by rewrite pathHashes_upto_S, length_insert.
Qed.

(** The hash of a call node stays in the array once its round is over. *)
Lemma pathHashes_upto_lookup t k j :
  (j < k)%nat → (j < cn_length (_callNodeTable t))%nat →
  pathHashes_upto' t k !! j = Some (rollingHash' t j).
Proof.
  intros Hjk Hj. induction k as [|k IH]; [lia|].
  rewrite pathHashes_upto_S. destruct (decide (j = k)) as [->|Hne].
  - apply list_lookup_insert_eq. by rewrite length_pathHashes_upto.
  - rewrite list_lookup_insert_ne by done. apply IH. lia.
Qed.

Lemma compare_loop_S t k :
  compare_loop' t (S k)
  = (<[k := pathHash' t (compare_loop' t k).1 k]> (compare_loop' t k).1,
     <[pathHash' t (compare_loop' t k).1 k := k]> (compare_loop' t k).2).
Proof. unfold compare_loop. by rewrite seq_S, foldl_app. Qed.

Lemma compare_loop_paths t k : (compare_loop' t k).1 = pathHashes_upto' t k.
Proof.
  induction k as [|k IH]; [done|].
  rewrite compare_loop_S, pathHashes_upto_S. simpl. by rewrite IH.
Qed.

(** The record after [k] rounds: a hash leads to the last of the first [k]
    call nodes that has it. *)
Lemma compare_loop_cache t k h j :
  (compare_loop' t k).2 !! h = Some j
  ↔ (j < k)%nat ∧ rollingHash' t j = h
    ∧ ∀ j', (j < j' < k)%nat → rollingHash' t j' ≠ h.
Proof.
  revert j. induction k as [|k IH]; intros j.
  - simpl. rewrite lookup_empty. split; [done|]. intros [? _]. lia.
  - rewrite compare_loop_S. simpl. rewrite compare_loop_paths.
    fold (rollingHash' t k).
    destruct (decide (rollingHash' t k = h)) as [Heq|Hne].
    + rewrite Heq, lookup_insert_eq. split.
      * intros [= <-]. split_and!; [lia|done|]. intros j' Hj'. lia.
      * intros (Hj & Hh & Hlast). f_equal.
        destruct (decide (j = k)) as [->|Hjk]; [done|].
        exfalso. apply (Hlast k); [lia|done].
    + rewrite lookup_insert_ne by done. rewrite IH. split.
      * intros (Hj & Hh & Hlast). split_and!; [lia|done|].
        intros j' Hj'. destruct (decide (j' = k)) as [->|?]; [done|].
        apply Hlast. lia.
      * intros (Hj & Hh & Hlast).
        assert (j ≠ k) by congruence.
        split_and!; [lia|done|]. intros j' Hj'. apply Hlast. lia.
Qed.

Lemma compare_loop_cache_None t k h :
  (compare_loop' t k).2 !! h = None ↔ ∀ j, (j < k)%nat → rollingHash' t j ≠ h.
Proof.
  induction k as [|k IH].
  - simpl. rewrite lookup_empty. split; [|done]. intros _ j Hj. lia.
  - rewrite compare_loop_S. simpl. rewrite compare_loop_paths.
    fold (rollingHash' t k).
    destruct (decide (rollingHash' t k = h)) as [Heq|Hne].
    + rewrite Heq, lookup_insert_eq. split; [done|].
      intros H. exfalso. apply (H k); [lia|done].
    + rewrite lookup_insert_ne by done. rewrite IH. split.
      * intros H j Hj. destruct (decide (j = k)) as [->|?]; [done|].
        apply H. lia.
      * intros H j Hj. apply H. lia.
Qed.

Lemma selected_loop_S t cache k :
  selected_loop' t cache (S k)
  = (<[k := pathHash' t (selected_loop' t cache k).1 k]> (selected_loop' t cache k).1,
     <[k := cache !! pathHash' t (selected_loop' t cache k).1 k]>
       (selected_loop' t cache k).2).
Proof. unfold selected_loop. by rewrite seq_S, foldl_app. Qed.

Lemma selected_loop_paths t cache k :
  (selected_loop' t cache k).1 = pathHashes_upto' t k.
Proof.
  induction k as [|k IH]; [done|].
  rewrite selected_loop_S, pathHashes_upto_S. simpl. by rewrite IH.
Qed.

(** The [Map] after [k] rounds has a key for each of the first [k] call
    nodes and no other. *)
Lemma selected_loop_table t cache k i :
  (selected_loop' t cache k).2 !! i
  = if decide (i < k)%nat then Some (cache !! rollingHash' t i) else None.
Proof.
  induction k as [|k IH].
  - simpl. rewrite lookup_empty. by destruct (decide (i < 0)%nat); [lia|].
  - rewrite selected_loop_S. simpl. rewrite selected_loop_paths.
    fold (rollingHash' t k).
    destruct (decide (i = k)) as [->|Hne].
    + rewrite lookup_insert_eq. by rewrite decide_True by lia.
    + rewrite lookup_insert_ne by done. rewrite IH.
      destruct (decide (i < k)%nat), (decide (i < S k)%nat); (done || lia).
Qed.

(** The hash of a call node is the hash of the hash of its prefix (0 for a
    root) followed by the annotation of the node. *)
Lemma rollingHash_unfold t (i : nat) p :
  (i < cn_length (_callNodeTable t))%nat →
  cn_prefix (_callNodeTable t) !! i = Some p →
  rollingHash' t i
  = cyrb53 (pretty (if decide (0 ≤ p < Z.of_nat i)
                    then rollingHash' t (Z.to_nat p) else 0%N)
            +:+ _getFileNameAnnotation getFileNameAnnotationForFunc t i).
Proof.
  intros Hi Hp. unfold rollingHash at 1, pathHash, prefix_at.
  rewrite Hp. simpl. f_equal. f_equal. f_equal.
  unfold prefixPath_at. destruct (Z.ltb_spec p 0) as [Hneg|Hpos].
  - by rewrite decide_False by lia.
  - destruct (decide (0 ≤ p < Z.of_nat i)) as [Hlt|Hge].
    + rewrite pathHashes_upto_lookup by lia. done.
    + destruct (decide (Z.to_nat p < cn_length (_callNodeTable t))%nat) as [Hin|Hout].
      * assert (Hfill : ∀ k j, (k ≤ j)%nat →
                  (j < cn_length (_callNodeTable t))%nat →
                  pathHashes_upto' t k !! j = Some 0%N).
        { intros k j Hkj Hj. induction k as [|k IH].
          - by apply lookup_replicate_2.
          - rewrite pathHashes_upto_S, list_lookup_insert_ne by lia.
            apply IH. lia. }
        rewrite Hfill by lia. done.
      * rewrite lookup_ge_None_2; [done|].
        rewrite length_pathHashes_upto. lia.
Qed.
(** C8 (amended): the resulting [Map] has a key for every call node of the
    selected tree and no other key.  Its value for a selected call node is
    the last call node of the compare tree, in index order, whose rolling
    path hash equals that of the selected node, and [undefined] when the
    compare tree has no such call node, so that [get] answers a call node
    exactly when the hashes are equal; the rolling path hash of a call
    node is the hash of the decimal numeral of its prefix's hash (0 for a
    root) followed by the annotation of the node. *)
Theorem diff_correspondence_table (selected compare : CallTree) (i : nat) :
  let table :=
    getCallNodeIndexToCompareCallNodeIndexTable cyrb53 getFileNameAnnotationForFunc
      selected compare in
  let ns := cn_length (_callNodeTable selected) in
  let nc := cn_length (_callNodeTable compare) in
  ((i < ns)%nat →
     is_Some (table !! i)
     ∧ (∀ j, table !! i = Some (Some j)
             ↔ (j < nc)%nat
               ∧ rollingHash' compare j = rollingHash' selected i
               ∧ ∀ j', (j < j' < nc)%nat →
                       rollingHash' compare j' ≠ rollingHash' selected i)
     ∧ (table !! i = Some None
        ↔ ∀ j, (j < nc)%nat → rollingHash' compare j ≠ rollingHash' selected i))
  ∧ ((ns ≤ i)%nat → table !! i = None)
  ∧ (∀ j, Map_get table i = Some j
          ↔ (i < ns)%nat ∧ (j < nc)%nat
            ∧ rollingHash' compare j = rollingHash' selected i
            ∧ ∀ j', (j < j' < nc)%nat →
                    rollingHash' compare j' ≠ rollingHash' selected i)
  ∧ (∀ t (j : nat) p,
       (j < cn_length (_callNodeTable t))%nat →
       cn_prefix (_callNodeTable t) !! j = Some p →
       pathHashes' t !! j = Some (rollingHash' t j)
       ∧ rollingHash' t j
         = cyrb53 (pretty (if decide (0 ≤ p < Z.of_nat j)
                           then rollingHash' t (Z.to_nat p) else 0%N)
                   +:+ _getFileNameAnnotation getFileNameAnnotationForFunc t j)).
Proof.
  intros table ns nc. subst table.
  unfold getCallNodeIndexToCompareCallNodeIndexTable.
  rewrite selected_loop_table. fold ns nc.
  split_and!.
  - intros Hi. rewrite decide_True by done. split_and!.
    + by eexists.
    + intros j. rewrite <- compare_loop_cache. split; [by intros [= ->]|by intros ->].
    + rewrite <- compare_loop_cache_None. split; [by intros [= ->]|by intros ->].
  - intros Hi. by rewrite decide_False by lia.
  - intros j. unfold Map_get. rewrite selected_loop_table. fold ns nc.
    destruct (decide (i < ns)%nat) as [Hi|Hi]; simpl.
    + rewrite compare_loop_cache. tauto.
    + split; [done|]. intros [? _]. lia.
  - intros t j p Hj Hp. split.
    + by apply pathHashes_upto_lookup.
    + by apply rollingHash_unfold.
Qed.
End Correspondence_facts.

(** C8, as the specification states it, fails on the code: for a selected
    call node without an equal hash in the compare tree the [Map] still has
    an entry (whose value is [undefined]). *)
Lemma unmatched_node_has_entry :
  ¬ (∀ (cyrb53 : string → N) (annotation : option nat → Thread → string)
       (selected compare : CallTree) (i : nat),
       (i < cn_length (_callNodeTable selected))%nat →
       (∀ j, (j < cn_length (_callNodeTable compare))%nat →
             rollingHash cyrb53 annotation compare j
             ≠ rollingHash cyrb53 annotation selected i) →
       Map_has (getCallNodeIndexToCompareCallNodeIndexTable cyrb53 annotation
                  selected compare) i = false).
Proof.
  intros H.
  specialize (H (λ _, 0%N) (λ _ _, EmptyString) Scenario.tree emptyTree 0%nat).
  assert (H1 : (0 < cn_length (_callNodeTable Scenario.tree))%nat).
  { unfold cn_length. simpl. lia. }
  specialize (H H1).
  assert (H2 : ∀ j, (j < cn_length (_callNodeTable emptyTree))%nat →
                rollingHash (λ _, 0%N) (λ _ _, EmptyString) emptyTree j
                ≠ rollingHash (λ _, 0%N) (λ _ _, EmptyString) Scenario.tree 0).
  { intros j Hj. unfold cn_length in Hj. simpl in Hj. lia. }
  specialize (H H2). vm_compute in H. discriminate.
Qed.

Lemma diff_correspondence_table_witness :
  (0 < cn_length (_callNodeTable Scenario.tree))%nat
  ∧ getCallNodeIndexToCompareCallNodeIndexTable (λ _, 0%N) (λ _ _, EmptyString)
      Scenario.tree Scenario.tree !! 0%nat = Some (Some 2%nat)
  ∧ getCallNodeIndexToCompareCallNodeIndexTable (λ _, 0%N) (λ _ _, EmptyString)
      Scenario.tree emptyTree !! 0%nat = Some None.
Proof.
  assert (H1 : (0 < cn_length (_callNodeTable Scenario.tree))%nat).
  { unfold cn_length. simpl. lia. }
  split; [exact H1|].
  destruct (diff_correspondence_table (λ _, 0%N) (λ _ _, EmptyString)
              Scenario.tree Scenario.tree 0) as [Ha _].
  destruct (Ha H1) as (_ & Hsome & _).
  destruct (diff_correspondence_table (λ _, 0%N) (λ _ _, EmptyString)
              Scenario.tree emptyTree 0) as [Hb _].
  destruct (Hb H1) as (_ & _ & Hnone).
  split.
  - apply Hsome. split; [unfold cn_length; simpl; lia|]. split; [reflexivity|].
    intros j' Hj'. unfold cn_length in Hj'. simpl in Hj'. lia.
  - apply Hnone. intros j Hj. unfold cn_length in Hj. simpl in Hj. lia.
Defined.

(** ** Splitting and joining strings *)

Lemma string_app_cons c (s1 s2 : string) : String c s1 +:+ s2 = String c (s1 +:+ s2).
Proof. done. Qed.

Lemma string_app_nil_l (s : string) : EmptyString +:+ s = s.
Proof. done. Qed.

Lemma string_app_nil_r (s : string) : s +:+ EmptyString = s.
Proof. induction s as [|c s IH]; [done|]. rewrite string_app_cons. by f_equal. Qed.

Lemma string_app_assoc (s1 s2 s3 : string) : (s1 +:+ s2) +:+ s3 = s1 +:+ s2 +:+ s3.
Proof.
  induction s1 as [|c s1 IH]; [done|].
  rewrite !string_app_cons. by f_equal.
Qed.

Lemma split_no_sep sep s : no_sep sep s = true → split sep s = [s].
Proof.
  induction s as [|c s IH]; simpl; [done|].
  intros [Hc Hs]%andb_true_iff. rewrite (negb_true_iff _) in Hc.
  rewrite Hc, (IH Hs). done.
Qed.

Lemma split_app_sep sep x rest :
  no_sep sep x = true → split sep (x +:+ String sep rest) = x :: split sep rest.
Proof.
  induction x as [|c x IH]; rewrite ?string_app_cons, ?string_app_nil_l; simpl.
  - intros _. by rewrite Ascii.eqb_refl.
  - intros [Hc Hx]%andb_true_iff. rewrite (negb_true_iff _) in Hc.
    rewrite Hc, (IH Hx). done.
Qed.

Lemma concat_cons2 sep x y l :
  String.concat sep (x :: y :: l) = x +:+ sep +:+ String.concat sep (y :: l).
Proof. done. Qed.

Lemma concat_cons2_char (sep : ascii) x y l :
  String.concat (String sep EmptyString) (x :: y :: l)
  = x +:+ String sep (String.concat (String sep EmptyString) (y :: l)).
Proof. done. Qed.

Lemma split_concat (sep : ascii) fields :
  fields ≠ [] → Forall (λ f, no_sep sep f = true) fields →
  split sep (String.concat (String sep EmptyString) fields) = fields.
Proof.
  induction fields as [|x fields IH]; [done|]. intros _ Hall.
  apply Forall_cons in Hall as [Hx Hall].
  destruct fields as [|y fields].
  - simpl. by apply split_no_sep.
  - rewrite concat_cons2_char.
    rewrite split_app_sep by done. f_equal. by apply IH.
Qed.

Lemma no_sep_app sep x y :
  no_sep sep (x +:+ y) = no_sep sep x && no_sep sep y.
Proof.
  induction x as [|c x IH]; [done|].
  rewrite string_app_cons. simpl. by rewrite IH, andb_assoc.
Qed.

Lemma no_sep_concat (sep : ascii) (glue : string) fields :
  no_sep sep glue = true → Forall (λ f, no_sep sep f = true) fields →
  no_sep sep (String.concat glue fields) = true.
Proof.
  intros Hglue. induction fields as [|x fields IH]; intros Hall; [done|].
  apply Forall_cons in Hall as [Hx Hall]. destruct fields as [|y fields]; [done|].
  rewrite concat_cons2, !no_sep_app, Hx, Hglue. simpl. by apply IH.
Qed.

(** ** Decimal numerals *)

Lemma digit_value_pretty_N_char d :
  (d < 10)%N → digit_value (pretty_N_char d) = Some d.
Proof.
  intros Hd.
  assert (d = 0 ∨ d = 1 ∨ d = 2 ∨ d = 3 ∨ d = 4 ∨ d = 5 ∨ d = 6 ∨ d = 7
          ∨ d = 8 ∨ d = 9)%N as Hcases by lia.
  repeat destruct Hcases as [->|Hcases]; try done. by subst.
Qed.

Lemma pretty_N_go_app x s : pretty_N_go x s = pretty_N_go x EmptyString +:+ s.
Proof.
  revert s. induction (N.lt_wf_0 x) as [x _ IH]; intros s.
  assert (x = 0 ∨ 0 < x)%N as [->|Hx] by lia; [by rewrite !pretty_N_go_0|].
  assert (Hlt : (x `div` 10 < x)%N) by (by apply N.div_lt).
  rewrite !(pretty_N_go_step x) by done.
  rewrite (IH _ Hlt (String _ s)), (IH _ Hlt (String _ EmptyString)).
  by rewrite string_app_assoc.
Qed.

Lemma all_digits_app s1 s2 :
  all_digits (s1 +:+ s2) = all_digits s1 && all_digits s2.
Proof.
  induction s1 as [|c s1 IH]; [done|].
  rewrite string_app_cons. simpl. by rewrite IH, andb_assoc.
Qed.

Lemma all_digits_pretty_N_go x : all_digits (pretty_N_go x EmptyString) = true.
Proof.
  induction (N.lt_wf_0 x) as [x _ IH].
  assert (x = 0 ∨ 0 < x)%N as [->|Hx] by lia; [done|].
  assert (Hlt : (x `div` 10 < x)%N) by (by apply N.div_lt).
  rewrite pretty_N_go_step, pretty_N_go_app, all_digits_app by done.
  rewrite (IH _ Hlt). simpl.
  rewrite digit_value_pretty_N_char by (by apply N.mod_lt). done.
Qed.

Lemma parse_digits_app s1 s2 acc :
  all_digits s1 = true →
  parse_digits (s1 +:+ s2) acc = parse_digits s2 (parse_digits s1 acc).
Proof.
  revert acc. induction s1 as [|c s1 IH]; intros acc; [done|].
  rewrite string_app_cons. simpl.
  intros [Hc Hs]%andb_true_iff. apply bool_decide_eq_true in Hc as [d Hd].
  rewrite Hd. by apply IH.
Qed.

Lemma parse_digits_pretty_N_go x :
  (0 < x)%N → parse_digits (pretty_N_go x EmptyString) None = Some x.
Proof.
  induction (N.lt_wf_0 x) as [x _ IH]. intros Hx.
  assert (Hlt : (x `div` 10 < x)%N) by (by apply N.div_lt).
  rewrite pretty_N_go_step, pretty_N_go_app by done.
  rewrite parse_digits_app by apply all_digits_pretty_N_go.
  simpl. rewrite digit_value_pretty_N_char by (by apply N.mod_lt).
  destruct (N.eq_0_gt_0_cases (x `div` 10)) as [H0|Hpos].
  - rewrite H0, pretty_N_go_0. simpl. f_equal.
    pose proof (N.div_mod x 10). lia.
  - rewrite (IH _ Hlt Hpos). simpl. f_equal.
    pose proof (N.div_mod x 10). lia.
Qed.

Lemma pretty_N_digits (n : N) :
  all_digits (pretty n) = true ∧ pretty n ≠ EmptyString
  ∧ parse_digits (pretty n) None = Some n.
Proof.
  unfold pretty, pretty_N. destruct (decide (n = 0%N)) as [->|Hn]; [done|].
  split_and!.
  - apply all_digits_pretty_N_go.
  - intros H. pose proof (parse_digits_pretty_N_go n) as Hp.
    rewrite H in Hp. simpl in Hp. assert (0 < n)%N by lia. naive_solver.
  - apply parse_digits_pretty_N_go. lia.
Qed.

(** A string that starts with a digit is read from its first character. *)
Lemma parseInt_digit_start c rest :
  is_Some (digit_value c) →
  parseInt (Some (String c rest))
  = (λ n, 1 * to_float64 (Z.of_N n)) <$> parse_digits (String c rest) None.
Proof.
  intros [d Hd]. revert Hd.
  destruct c as [[] [] [] [] [] [] [] []]; try discriminate; intros _; reflexivity.
Qed.

Lemma parseInt_pretty (n : N) :
  (n ≤ 2 ^ 53)%N → parseInt (Some (pretty n)) = Some (Z.of_N n).
Proof.
  intros Hn. destruct (pretty_N_digits n) as (Hall & Hne & Hval).
  destruct (pretty n) as [|c rest] eqn:E; [done|].
  simpl in Hall. apply andb_true_iff in Hall as [Hc _].
  apply bool_decide_eq_true in Hc.
  rewrite parseInt_digit_start by done. rewrite Hval. simpl. f_equal.
  rewrite to_float64_small by lia. lia.
Qed.

Lemma pretty_Z_of_N (n : N) : pretty (Z.of_N n) = pretty n.
Proof. by destruct n. Qed.

Lemma all_digits_no_sep sep s :
  digit_value sep = None → all_digits s = true → no_sep sep s = true.
Proof.
  intros Hsep. induction s as [|c s IH]; simpl; [done|].
  intros [Hc Hs]%andb_true_iff. apply bool_decide_eq_true in Hc as [d Hd].
  rewrite IH by done. rewrite andb_true_r. apply negb_true_iff.
  destruct (Ascii.eqb_spec c sep) as [->|?]; [congruence|done].
Qed.

(** ** Parsing and printing transform stacks *)

Example parse_examples :
  ToyCodec.parse "f-js-xxx-i~mf-325~zz-1~cr-cpp-3-8~df-~fg-x~rec-js-7"
  = Some [ FocusSubtree js [3%nat] true; MergeFunction 325;
           CollapseResource 3 8 cpp; CollapseDirectRecursion 7 js ]
  ∧ ToyCodec.parse EmptyString = Some []
  ∧ ToyCodec.parse "mcn" = None
  ∧ ToyCodec.stringify [ FocusSubtree js [3%nat] true; MergeFunction 325 ]
    = Some "f-js-xxx-i~mf-325"%string.
Proof. repeat split; vm_compute; reflexivity. Qed.

(** A numeral beyond [2 ^ 53] is read as the nearest number. *)
Example parse_long_numeral :
  ToyCodec.parse "mf-9007199254740993" = Some [MergeFunction 9007199254740992].
Proof. by vm_compute. Qed.

Lemma SHORT_KEY_TO_TRANSFORM_spec key type :
  SHORT_KEY_TO_TRANSFORM !! key = Some type ↔ key = shortKeyOf type.
Proof.
  unfold SHORT_KEY_TO_TRANSFORM, transformTypes. simpl.
  split.
  - intros H.
    repeat (rewrite lookup_insert in H; case_decide as E;
            [by simplify_eq|clear E]).
    by rewrite lookup_empty in H.
  - intros ->. by destruct type.
Qed.

Section Transforms_facts.
Context (toValidImplementationFilter : option string → ImplementationFilter).
Context (decodeUintArrayFromUrlComponent : option string → option (list nat)).
Context (encodeUintArrayForUrlComponent : list nat → string).

Local Abbreviation parseTransform' :=
  (parseTransform toValidImplementationFilter decodeUintArrayFromUrlComponent).
Local Abbreviation parse_step' :=
  (parse_step toValidImplementationFilter decodeUintArrayFromUrlComponent).
Local Abbreviation parseTransforms' :=
  (parseTransforms toValidImplementationFilter decodeUintArrayFromUrlComponent).
Local Abbreviation stringifyTransform' :=
  (stringifyTransform encodeUintArrayForUrlComponent).
Local Abbreviation stringifyTransforms' :=
  (stringifyTransforms encodeUintArrayForUrlComponent).

Local Abbreviation parseTuple' :=
  (parseTuple toValidImplementationFilter decodeUintArrayFromUrlComponent).

Lemma parseTuple_skipped type tuple :
  parseTuple' type tuple = Skipped ↔ numeric_fields_ok type tuple = false.
Proof.
  unfold parseTuple, numeric_fields_ok, index_field_ok.
  destruct type.
  - destruct (decodeUintArrayFromUrlComponent (tuple !! 2%nat)); by split.
  - destruct (parseInt (tuple !! 1%nat)) as [z|]; [|by split].
    by destruct (0 <=? z).
  - destruct (parseInt (tuple !! 1%nat)) as [z|]; [|by split].
    by destruct (0 <=? z).
  - destruct (decodeUintArrayFromUrlComponent (tuple !! 2%nat)); by split.
  - destruct (parseInt (tuple !! 1%nat)) as [z|]; [|by split].
    by destruct (0 <=? z).
  - destruct (parseInt (tuple !! 1%nat)) as [z|]; [|by split].
    by destruct (0 <=? z).
  - destruct (parseInt (tuple !! 2%nat)) as [z|]; [|by split].
    destruct (parseInt (tuple !! 3%nat)) as [z'|].
    + rewrite bool_decide_eq_true_2 by by eexists. rewrite andb_true_r.
      by destruct (0 <=? z).
    + rewrite bool_decide_eq_false_2 by (by intros [? ?]).
      by rewrite andb_false_r.
  - destruct (parseInt (tuple !! 2%nat)) as [z|]; [|by split].
    rewrite Z.leb_antisym. by destruct (z <? 0).
  - destruct (parseInt (tuple !! 2%nat)) as [z|]; [|by split].
    rewrite Z.leb_antisym. by destruct (z <? 0).
  - destruct (parseInt (tuple !! 1%nat)) as [z|]; [|by split].
    by destruct (0 <=? z).
Qed.

Lemma parseTuple_thrown type tuple :
  parseTuple' type tuple = Thrown →
  (type = focus_subtree ∨ type = merge_call_node)
  ∧ decodeUintArrayFromUrlComponent (tuple !! 2%nat) = None.
Proof.
  unfold parseTuple.
  destruct type; try (destruct (decodeUintArrayFromUrlComponent (tuple !! 2%nat));
                      [done|]; intros _; split; [by (left + right)|done]).
  - destruct (parseInt (tuple !! 1%nat)) as [z|]; [|done]. by destruct (0 <=? z).
  - destruct (parseInt (tuple !! 1%nat)) as [z|]; [|done]. by destruct (0 <=? z).
  - destruct (parseInt (tuple !! 1%nat)) as [z|]; [|done]. by destruct (0 <=? z).
  - destruct (parseInt (tuple !! 1%nat)) as [z|]; [|done]. by destruct (0 <=? z).
  - destruct (parseInt (tuple !! 2%nat)) as [z|]; [|done].
    destruct (parseInt (tuple !! 3%nat)) as [z'|]; [|done]. by destruct (0 <=? z).
  - destruct (parseInt (tuple !! 2%nat)) as [z|]; [|done]. by destruct (z <? 0).
  - destruct (parseInt (tuple !! 2%nat)) as [z|]; [|done]. by destruct (z <? 0).
  - destruct (parseInt (tuple !! 1%nat)) as [z|]; [|done]. by destruct (0 <=? z).
Qed.

Lemma parseTransform_entry_type e :
  parseTransform' e
  = match entry_type e with
    | None => Skipped
    | Some type => parseTuple' type (split "-" e)
    end.
Proof. done. Qed.

Lemma parseTransform_skipped e :
  parseTransform' e = Skipped
  ↔ entry_type e = None
    ∨ ∃ type, entry_type e = Some type
              ∧ numeric_fields_ok type (split "-" e) = false.
Proof.
  rewrite parseTransform_entry_type.
  destruct (entry_type e) as [type|]; [|by split; [left|]].
  rewrite parseTuple_skipped. split.
  - intros H. right. by exists type.
  - by intros [?|(type' & [= <-] & H)].
Qed.

(** An exception can only come from the decoder of call node paths. *)
Lemma parseTransform_thrown e :
  parseTransform' e = Thrown →
  (entry_type e = Some focus_subtree ∨ entry_type e = Some merge_call_node)
  ∧ decodeUintArrayFromUrlComponent (split "-" e !! 2%nat) = None.
Proof.
  rewrite parseTransform_entry_type.
  destruct (entry_type e) as [type|]; [|done].
  intros [[-> | ->] H]%parseTuple_thrown; auto.
Qed.

Lemma parseTransform_throws e :
  entry_type e = Some focus_subtree ∨ entry_type e = Some merge_call_node →
  decodeUintArrayFromUrlComponent (split "-" e !! 2%nat) = None →
  parseTransform' e = Thrown.
Proof.
  rewrite parseTransform_entry_type.
  intros [-> | ->] Hdec; unfold parseTuple; by rewrite Hdec.
Qed.

Lemma parse_fold_None es : foldl parse_step' None es = None.
Proof. induction es as [|e es IH]; simpl; [done|]. apply IH. Qed.

Lemma parse_fold_skipped pre e post st :
  parseTransform' e = Skipped →
  foldl parse_step' st (pre ++ e :: post) = foldl parse_step' st (pre ++ post).
Proof.
  intros He. rewrite !foldl_app. simpl. f_equal.
  unfold parse_step at 1. destruct (foldl _ st pre); [|done]. by rewrite He.
Qed.

Lemma parse_fold_pushed es acc :
  (∀ e, e ∈ es → parseTransform' e ≠ Thrown) →
  foldl parse_step' (Some acc) es
  = Some (acc ++ omap (λ e, pushed_transform (parseTransform' e)) es).
Proof.
  revert acc. induction es as [|e es IH]; intros acc Hes; simpl.
  - by rewrite app_nil_r.
  - assert (He : parseTransform' e ≠ Thrown) by (apply Hes; by left).
    assert (Hes' : ∀ e', e' ∈ es → parseTransform' e' ≠ Thrown)
      by (intros e' He'; apply Hes; by right).
    destruct (parseTransform' e) as [|t|] eqn:E; simpl; [..|done].
    + by apply IH.
    + rewrite IH by done. by rewrite <- app_assoc.
Qed.

Lemma parse_fold_thrown es acc :
  (∃ e, e ∈ es ∧ parseTransform' e = Thrown) →
  foldl parse_step' (Some acc) es = None.
Proof.
  revert acc. induction es as [|e es IH]; intros acc (e' & Hin & He').
  - by apply elem_of_nil in Hin.
  - simpl. apply elem_of_cons in Hin as [->|Hin].
    + rewrite He'. apply parse_fold_None.
    + destruct (parseTransform' e); [apply IH; eauto..|apply parse_fold_None].
Qed.

Lemma parse_fold_None_inv es acc :
  foldl parse_step' (Some acc) es = None →
  ∃ e, e ∈ es ∧ parseTransform' e = Thrown.
Proof.
  revert acc. induction es as [|e es IH]; intros acc; simpl; [done|].
  destruct (parseTransform' e) as [|t|] eqn:E.
  - intros (e' & Hin & He')%IH. exists e'. split; [by right|done].
  - intros (e' & Hin & He')%IH. exists e'. split; [by right|done].
  - intros _. exists e. split; [by left|done].
Qed.

Lemma parseTransform_empty : parseTransform' EmptyString = Skipped.
Proof. done. Qed.

Lemma concat_tilde_empty es :
  es ≠ [] → String.concat "~" es = EmptyString → es = [EmptyString].
Proof.
  destruct es as [|x [|y es]]; [done| |].
  - intros _ H. change (x = EmptyString) in H. by subst.
  - intros _ H. rewrite concat_cons2 in H. by destruct x.
Qed.

(** The parser runs the callback over the entries between the ["~"]. *)
Lemma parseTransforms_concat es :
  Forall (λ e, no_sep "~" e = true) es →
  parseTransforms' (String.concat "~" es) = foldl parse_step' (Some []) es.
Proof.
  intros Hes. unfold parseTransforms.
  destruct es as [|x es]; [done|].
  destruct (String.eqb_spec (String.concat "~" (x :: es)) EmptyString) as [Hempty|Hne].
  - apply concat_tilde_empty in Hempty as [= -> ->]; [|done].
    simpl. by rewrite parseTransform_empty.
  - by rewrite (split_concat "~"%char).
Qed.

Lemma split_no_sep_all sep s : Forall (λ e, no_sep sep e = true) (split sep s).
Proof.
  induction s as [|c s IH]; simpl; [by repeat constructor|].
  destruct (Ascii.eqb_spec c sep) as [->|Hne].
  - by constructor.
  - destruct (split sep s) as [|x xs]; simpl.
    + repeat constructor. simpl. by rewrite (proj2 (Ascii.eqb_neq c sep)).
    + apply Forall_cons in IH as [Hx Hxs]. constructor; [|done].
      simpl. by rewrite (proj2 (Ascii.eqb_neq c sep)).
Qed.

(** C9 (amended): the parser skips exactly the entries whose short key is
    none of the ten and those whose numeric fields fail the validation (a
    field is not a number, or the index compared with 0 is negative).
    Unless the decoder of call node paths throws, the result holds the
    transform of every other entry, in order (for numeric fields of at most
    20 characters, which [parseInt] reads as the language defines it).  A
    skipped entry leaves the result as it is without the entry.  The parser
    catches nothing: the one exception that can leave it is that of the
    decoder on an entry of a focus-subtree or merge-call-node transform, and
    it leaves the parser whenever the decoder throws. *)
Theorem parseTransforms_skips_entries :
  (∀ key type, SHORT_KEY_TO_TRANSFORM !! key = Some type ↔ key = shortKeyOf type)
  ∧ (∀ e, parseTransform' e = Skipped
          ↔ entry_type e = None
            ∨ ∃ type, entry_type e = Some type
                      ∧ numeric_fields_ok type (split "-" e) = false)
  ∧ (∀ s, numerals_in_range s = true →
          (∀ e, e ∈ split "~" s → parseTransform' e ≠ Thrown) →
          parseTransforms' s
          = Some (omap (λ e, pushed_transform (parseTransform' e)) (split "~" s)))
  ∧ (∀ pre e post,
       Forall (λ e, no_sep "~" e = true) (pre ++ e :: post) →
       parseTransform' e = Skipped →
       parseTransforms' (String.concat "~" (pre ++ e :: post))
       = parseTransforms' (String.concat "~" (pre ++ post)))
  ∧ (∀ s, parseTransforms' s = None →
          ∃ e, e ∈ split "~" s
               ∧ (entry_type e = Some focus_subtree
                  ∨ entry_type e = Some merge_call_node)
               ∧ decodeUintArrayFromUrlComponent (split "-" e !! 2%nat) = None)
  ∧ (∀ s e, s ≠ EmptyString → e ∈ split "~" s →
            (entry_type e = Some focus_subtree ∨ entry_type e = Some merge_call_node) →
            decodeUintArrayFromUrlComponent (split "-" e !! 2%nat) = None →
            parseTransforms' s = None).
Proof.
  split_and!.
  - apply SHORT_KEY_TO_TRANSFORM_spec.
  - apply parseTransform_skipped.
  - intros s _ Hs. unfold parseTransforms.
    destruct (String.eqb_spec s EmptyString) as [Heq|Hne]; [by rewrite Heq|].
    by rewrite parse_fold_pushed.
  - intros pre e post Hall He.
    rewrite !parseTransforms_concat.
    + by apply parse_fold_skipped.
    + apply Forall_app in Hall as [Hpre Hpost].
      apply Forall_cons in Hpost as [_ Hpost]. by apply Forall_app.
    + done.
  - intros s Hs. unfold parseTransforms in Hs.
    destruct (String.eqb s EmptyString); [done|].
    apply parse_fold_None_inv in Hs as (e & Hin & He).
    exists e. split; [done|]. by apply parseTransform_thrown.
  - intros s e Hne Hin Htype Hdec. unfold parseTransforms.
    destruct (String.eqb_spec s EmptyString) as [?|_]; [done|].
    apply parse_fold_thrown. exists e. split; [done|].
    by apply parseTransform_throws.
Qed.
(** *** Canonical strings survive parsing and printing *)

Local Abbreviation canonical_entry' :=
  (canonical_entry toValidImplementationFilter decodeUintArrayFromUrlComponent
     encodeUintArrayForUrlComponent).

Lemma shortKeyOf_no_sep type :
  no_sep "-" (shortKeyOf type) = true ∧ no_sep "~" (shortKeyOf type) = true.
Proof. by destruct type. Qed.

Lemma canonical_number_facts f :
  canonical_number f →
  no_sep "-" f = true ∧ no_sep "~" f = true
  ∧ ∃ z, parseInt (Some f) = Some z ∧ 0 ≤ z ∧ pretty z = f.
Proof.
  intros (n & Hn & ->). destruct (pretty_N_digits n) as (Hall & _ & _).
  split_and!; [by apply all_digits_no_sep..|].
  exists (Z.of_N n). split_and!; [apply parseInt_pretty; lia|lia|apply pretty_Z_of_N].
Qed.

Lemma canonical_implementation_facts f :
  canonical_implementation toValidImplementationFilter f →
  no_sep "-" f = true ∧ no_sep "~" f = true.
Proof.
  unfold canonical_implementation. intros <-.
  by destruct (toValidImplementationFilter _).
Qed.

(** The tuple and the type of an entry that is a short key and fields
    joined by ["-"]. *)
Lemma entry_of_fields type fields :
  Forall (λ f, no_sep "-" f = true) fields →
  split "-" (String.concat "-" (shortKeyOf type :: fields)) = shortKeyOf type :: fields
  ∧ entry_type (String.concat "-" (shortKeyOf type :: fields)) = Some type.
Proof.
  intros Hfields.
  assert (Hsplit : split "-" (String.concat "-" (shortKeyOf type :: fields))
                   = shortKeyOf type :: fields).
  { apply (split_concat "-"%char); [done|].
    constructor; [apply shortKeyOf_no_sep|done]. }
  split; [done|]. unfold entry_type. rewrite Hsplit. simpl.
  by apply SHORT_KEY_TO_TRANSFORM_spec.
Qed.

Lemma parseTransform_of_fields type fields :
  Forall (λ f, no_sep "-" f = true) fields →
  parseTransform' (String.concat "-" (shortKeyOf type :: fields))
  = parseTuple' type (shortKeyOf type :: fields).
Proof.
  intros Hfields. rewrite parseTransform_entry_type.
  destruct (entry_of_fields type fields Hfields) as [-> ->]. done.
Qed.

Lemma no_sep_tilde_fields type fields :
  Forall (λ f, no_sep "~" f = true) fields →
  no_sep "~" (String.concat "-" (shortKeyOf type :: fields)) = true.
Proof.
  intros Hfields. apply no_sep_concat; [done|].
  constructor; [apply shortKeyOf_no_sep|done].
Qed.

(** A canonical entry holds no ["~"], is parsed to a transform, and the
    transform is printed as the entry. *)
Lemma canonical_entry_roundtrip e :
  canonical_entry' e →
  no_sep "~" e = true
  ∧ ∃ t, parseTransform' e = Pushed t ∧ stringifyTransform' t = Some e.
Proof.
  destruct 1 as [type f Htype Hf|f Hf|im r c Him Hr Hc|type im f Htype Him Hf
                |im x inverted Him Hx|im x Him Hx].
  - destruct (canonical_number_facts f Hf) as (Hd & Ht & z & Hparse & Hz & Hpretty).
    change (shortKeyOf type +:+ "-" +:+ f)
      with (String.concat "-" (shortKeyOf type :: [f])).
    split; [apply no_sep_tilde_fields; by repeat constructor|].
    rewrite parseTransform_of_fields by (by repeat constructor).
    unfold parseTuple, funcIndexTypes in *.
    repeat (apply elem_of_cons in Htype as [->|Htype]);
      [..|by apply elem_of_nil in Htype];
      simpl; rewrite Hparse; destruct (Z.leb_spec 0 z); try lia;
      eexists; (split; [reflexivity|]); unfold stringifyTransform; simpl;
      by rewrite Hpretty.
  - destruct (canonical_number_facts f Hf) as (Hd & Ht & z & Hparse & Hz & Hpretty).
    change (shortKeyOf focus_category +:+ "-" +:+ f)
      with (String.concat "-" (shortKeyOf focus_category :: [f])).
    split; [apply no_sep_tilde_fields; by repeat constructor|].
    rewrite parseTransform_of_fields by (by repeat constructor).
    unfold parseTuple. simpl. rewrite Hparse. destruct (Z.leb_spec 0 z); try lia.
    eexists. split; [reflexivity|]. unfold stringifyTransform. simpl.
    by rewrite Hpretty.
  - destruct (canonical_number_facts r Hr) as (Hd & Ht & z & Hparse & Hz & Hpretty).
    destruct (canonical_number_facts c Hc)
      as (Hd' & Ht' & z' & Hparse' & Hz' & Hpretty').
    destruct (canonical_implementation_facts im Him) as [Hid Hit].
    change (shortKeyOf collapse_resource +:+ "-" +:+ im +:+ "-" +:+ r +:+ "-" +:+ c)
      with (String.concat "-" (shortKeyOf collapse_resource :: [im; r; c])).
    split; [apply no_sep_tilde_fields; by repeat constructor|].
    rewrite parseTransform_of_fields by (by repeat constructor).
    unfold parseTuple. simpl. rewrite Hparse, Hparse'.
    destruct (Z.leb_spec 0 z); try lia.
    eexists. split; [reflexivity|]. unfold stringifyTransform. simpl.
    rewrite Hpretty, Hpretty'. unfold canonical_implementation in Him.
    by rewrite Him.
  - destruct (canonical_number_facts f Hf) as (Hd & Ht & z & Hparse & Hz & Hpretty).
    destruct (canonical_implementation_facts im Him) as [Hid Hit].
    change (shortKeyOf type +:+ "-" +:+ im +:+ "-" +:+ f)
      with (String.concat "-" (shortKeyOf type :: [im; f])).
    split; [apply no_sep_tilde_fields; by repeat constructor|].
    rewrite parseTransform_of_fields by (by repeat constructor).
    unfold parseTuple, recursionTypes, canonical_implementation in *.
    repeat (apply elem_of_cons in Htype as [->|Htype]);
      [..|by apply elem_of_nil in Htype];
      simpl; rewrite Hparse; destruct (Z.ltb_spec z 0); try lia;
      eexists; (split; [reflexivity|]); unfold stringifyTransform; simpl;
      by rewrite Hpretty, Him.
  - destruct Hx as (Hxd & Hxt & path & Hdec & Henc).
    destruct (canonical_implementation_facts im Him) as [Hid Hit].
    unfold canonical_implementation in Him.
    destruct inverted.
    + change (shortKeyOf focus_subtree +:+ "-" +:+ im +:+ "-" +:+ x +:+ "-i")
        with (String.concat "-" (shortKeyOf focus_subtree :: [im; x; "i"%string])).
      split; [apply no_sep_tilde_fields; by repeat constructor|].
      rewrite parseTransform_of_fields by (by repeat constructor).
      unfold parseTuple. simpl. rewrite Hdec.
      eexists. split; [reflexivity|]. unfold stringifyTransform. simpl.
      rewrite Him, Henc. by rewrite !string_app_assoc.
    + replace (shortKeyOf focus_subtree +:+ "-" +:+ im +:+ "-" +:+ x +:+ EmptyString)
        with (String.concat "-" (shortKeyOf focus_subtree :: [im; x])).
      2:{ by rewrite (string_app_nil_r x). }
      split; [apply no_sep_tilde_fields; by repeat constructor|].
      rewrite parseTransform_of_fields by (by repeat constructor).
      unfold parseTuple. simpl. rewrite Hdec.
      eexists. split; [reflexivity|]. unfold stringifyTransform. simpl.
      by rewrite Him, Henc.
  - destruct Hx as (Hxd & Hxt & path & Hdec & Henc).
    destruct (canonical_implementation_facts im Him) as [Hid Hit].
    unfold canonical_implementation in Him.
    change (shortKeyOf merge_call_node +:+ "-" +:+ im +:+ "-" +:+ x)
      with (String.concat "-" (shortKeyOf merge_call_node :: [im; x])).
    split; [apply no_sep_tilde_fields; by repeat constructor|].
    rewrite parseTransform_of_fields by (by repeat constructor).
    unfold parseTuple. simpl. rewrite Hdec.
    eexists. split; [reflexivity|]. unfold stringifyTransform. simpl.
    by rewrite Him, Henc.
Qed.
Lemma parse_fold_canonical es acc :
  Forall (λ e, ∃ t, parseTransform' e = Pushed t ∧ stringifyTransform' t = Some e) es →
  ∃ ts, foldl parse_step' (Some acc) es = Some (acc ++ ts)
        ∧ mapM stringifyTransform' ts = Some es.
Proof.
  revert acc. induction es as [|e es IH]; intros acc Hes.
  - exists []. by rewrite app_nil_r.
  - apply Forall_cons in Hes as [(t & Hparse & Hprint) Hes].
    destruct (IH (acc ++ [t]) Hes) as (ts & Hfold & Hmap).
    exists (t :: ts). split.
    + simpl. rewrite Hparse, Hfold. by rewrite <- app_assoc.
    + simpl. rewrite Hprint. simpl. rewrite Hmap. done.
Qed.

(** C6: a canonical transform stack string (canonical entries joined by
    ["~"], the empty string included) is parsed without an exception, and
    the stack it is parsed to is printed as the same string. *)
Theorem parse_stringify_roundtrip :
  (∀ s,
     canonical_string toValidImplementationFilter decodeUintArrayFromUrlComponent
       encodeUintArrayForUrlComponent s →
     ∃ ts, parseTransforms' s = Some ts ∧ stringifyTransforms' ts = Some s)
  ∧ parseTransforms' EmptyString = Some []
  ∧ stringifyTransforms' [] = Some EmptyString.
Proof.
  split; [|done].
  intros s (entries & Hentries & ->).
  assert (Hall : Forall (λ e, no_sep "~" e = true
                   ∧ ∃ t, parseTransform' e = Pushed t
                          ∧ stringifyTransform' t = Some e) entries).
  { eapply Forall_impl; [exact Hentries|]. apply canonical_entry_roundtrip. }
  apply Forall_and in Hall as [Hsep Hround].
  rewrite parseTransforms_concat by done.
  destruct (parse_fold_canonical entries [] Hround) as (ts & Hfold & Hmap).
  exists ts. split; [done|].
  unfold stringifyTransforms. by rewrite Hmap.
Qed.
End Transforms_facts.

Lemma parse_stringify_roundtrip_witness :
  canonical_string ToyCodec.toValid ToyCodec.decode ToyCodec.encode "f-js-xxx-i~mf-325"
  ∧ ∃ ts, ToyCodec.parse "f-js-xxx-i~mf-325" = Some ts
          ∧ ToyCodec.stringify ts = Some "f-js-xxx-i~mf-325"%string.
Proof.
  assert (H : canonical_string ToyCodec.toValid ToyCodec.decode ToyCodec.encode
                "f-js-xxx-i~mf-325").
  { exists ["f-js-xxx-i"; "mf-325"]%string. split; [|reflexivity].
    repeat constructor.
    - apply (canonical_focus_subtree _ _ _ "js" "xxx" true); [reflexivity|].
      split; [reflexivity|]. split; [reflexivity|]. exists [3%nat]. by split.
    - apply (canonical_funcIndex _ _ _ merge_function "325").
      + unfold funcIndexTypes. apply elem_of_cons. by left.
      + exists 325%N. split; [reflexivity|reflexivity]. }
  split; [exact H|].
  exact (proj1 (parse_stringify_roundtrip ToyCodec.toValid ToyCodec.decode
                  ToyCodec.encode) _ H).
Defined.

(** C9, as the specification states it, fails on the code: nothing in
    [parseTransforms] catches an exception.  With a decoder of call node
    paths that throws when the path field is absent, the entry ["f-js"],
    whose short key is known and which has no numeric field, makes the
    whole parse throw. *)
Lemma parseTransforms_throws_on_pathless_entry :
  ¬ (∀ toValidImplementationFilter decodeUintArrayFromUrlComponent transformString,
       is_Some (parseTransforms toValidImplementationFilter
                  decodeUintArrayFromUrlComponent transformString)).
Proof.
  intros H.
  destruct (H ToyCodec.toValid ToyCodec.decode "mf-1~f-js"%string) as [stack Hs].
  vm_compute in Hs. discriminate.
Qed.

Lemma parseTransforms_skips_entries_witness :
  Forall (λ e, no_sep "~" e = true) ["mf-325"; "zz-1"; "df-7"]%string
  ∧ parseTransform ToyCodec.toValid ToyCodec.decode "zz-1" = Skipped
  ∧ ToyCodec.parse (String.concat "~" ["mf-325"; "zz-1"; "df-7"]%string)
    = ToyCodec.parse (String.concat "~" ["mf-325"; "df-7"]%string).
Proof.
  assert (H1 : Forall (λ e, no_sep "~" e = true)
                 ["mf-325"; "zz-1"; "df-7"]%string).
  { by repeat constructor. }
  assert (H2 : parseTransform ToyCodec.toValid ToyCodec.decode "zz-1" = Skipped).
  { reflexivity. }
  split; [exact H1|]. split; [exact H2|].
  destruct (parseTransforms_skips_entries ToyCodec.toValid ToyCodec.decode)
    as (_ & _ & _ & H & _).
  exact (H ["mf-325"%string] "zz-1"%string ["df-7"%string] H1 H2).
Defined.

(** ** The pipeline of thread filters *)

(** C2, as the specification states it, fails on the code: with a transform
    stack that drops every sample, the filtered thread of the code still has
    its samples. *)
Lemma pipeline_ignores_transforms :
  ¬ (∀ (processThreadCPUDelta : Thread → unit → Z → Thread)
       (filterThreadByTab : Thread → gset nat → Thread)
       (filterThreadSamplesToRange : Thread → Z → Z → Thread)
       (filterThreadByImplementation : Thread → ImplementationFilter → nat → unit → Thread)
       (filterThreadToSearchStrings : Thread → option (list string) → Thread)
       (invertCallstack : Thread → nat → Thread)
       (applyTransformStack : TransformStack → Thread → Thread)
       (state : SelectorState unit unit),
       getFilteredThread unit unit processThreadCPUDelta filterThreadByTab
         filterThreadSamplesToRange filterThreadByImplementation
         filterThreadToSearchStrings invertCallstack state
       = getFilteredThread_spec unit unit processThreadCPUDelta filterThreadByTab
           filterThreadSamplesToRange filterThreadByImplementation
           filterThreadToSearchStrings invertCallstack applyTransformStack state).
Proof.
  intros H.
  specialize (H (λ t _ _, t) (λ t _, t) (λ t _ _, t) (λ t _ _ _, t) (λ t _, t)
                (λ t _, t) PipelineExample.dropsAllSamples PipelineExample.state).
  vm_compute in H. discriminate.
Qed.

Section Pipeline_facts.
Context (SampleUnits CategoryList : Type).
Context (processThreadCPUDelta : Thread → SampleUnits → Z → Thread).
Context (filterThreadByTab : Thread → gset nat → Thread).
Context (filterThreadSamplesToRange : Thread → Z → Z → Thread).
Context (filterThreadByImplementation :
           Thread → ImplementationFilter → nat → CategoryList → Thread).
Context (filterThreadToSearchStrings : Thread → option (list string) → Thread).
Context (invertCallstack : Thread → nat → Thread).

Local Abbreviation getFilteredThread' :=
  (getFilteredThread SampleUnits CategoryList processThreadCPUDelta
     filterThreadByTab filterThreadSamplesToRange filterThreadByImplementation
     filterThreadToSearchStrings invertCallstack).
Local Abbreviation getTabFilteredThread' :=
  (getTabFilteredThread SampleUnits CategoryList processThreadCPUDelta
     filterThreadByTab).

(** C2 (amended): the filtered thread is the thread after the tab filter,
    then the range filter, then the implementation filter, then the search
    filter, then the invert filter; the transform stack of the thread is
    not applied, so the filtered thread is the same for every transform
    stack. *)
Theorem filtered_thread_pipeline (state : SelectorState SampleUnits CategoryList) :
  getFilteredThread' state
  = (let tab := getTabFilteredThread' state in
     let range := filterThreadSamplesToRange tab (st_committedRange state).1
                    (st_committedRange state).2 in
     let implementation :=
       filterThreadByImplementation range (st_implementationFilter state)
         (st_defaultCategory state) (st_categories state) in
     let search := filterThreadToSearchStrings implementation (st_searchStrings state) in
     if st_invertCallstack state
     then invertCallstack search (st_defaultCategory state) else search)
  ∧ ∀ stack,
      getFilteredThread' (with_transformStack SampleUnits CategoryList state stack)
      = getFilteredThread' state.
Proof.
  split.
  - unfold getFilteredThread, _getImplementationAndSearchFilteredThread,
      _getImplementationFilteredThread, getRangeFilteredThread.
    by destruct (st_committedRange state).
  - intros stack. by destruct state.
Qed.
End Pipeline_facts.

(** * More of the call tree *)

(** ** Children and parents *)

Lemma computeChildren_elem t node (c : nat) :
  c ∈ computeChildren t node →
  is_child t node c = true
  ∧ (Z.to_nat (node + 1) ≤ c < cn_length (_callNodeTable t))%nat.
Proof.
  unfold computeChildren. rewrite js_sort_perm.
  destruct (if node =? -1 then Some (_rootCount t)
            else arr_get (_callNodeChildCount t) node) as [count|].
  - rewrite children_scan_take. simpl. intros Hc.
    apply subseteq_take in Hc.
    apply list_elem_of_In, filter_In in Hc as [Hc Hch].
    apply list_elem_of_In, elem_of_seq in Hc. split; [done|lia].
  - intros Hc. by apply elem_of_nil in Hc.
Qed.

Lemma computeChildren_above t node (c : nat) :
  c ∈ computeChildren t node →
  cn_prefix (_callNodeTable t) !! c = Some node
  ∧ node < Z.of_nat c ∧ (c < cn_length (_callNodeTable t))%nat.
Proof.
  intros Hc. apply computeChildren_elem in Hc as [Hch [Hlo Hhi]].
  unfold is_child in Hch. apply andb_true_iff in Hch as [Hp _].
  apply bool_decide_eq_true in Hp. split_and!; [done|lia|done].
Qed.

Lemma queried_from_table t0 t :
  _children t0 = ∅ → queried_from t0 t → _callNodeTable t = _callNodeTable t0.
Proof.
  intros He Hq. destruct (queried_from_cache t0 t He Hq) as (cache & -> & _). done.
Qed.

(** X1: every call node that [getChildren] returns for a node has that node
    as its [getParent], and stands after it in the table; this holds for
    every tree whose cache starts empty, whatever was queried before. *)
Theorem getChildren_getParent (t0 t : CallTree) (node : Z) (c : nat) :
  _children t0 = ∅ → queried_from t0 t →
  c ∈ (getChildren t node).1 →
  getParent (getChildren t node).2 (Z.of_nat c) = Some node
  ∧ node < Z.of_nat c
  ∧ (c < cn_length (_callNodeTable t))%nat.
Proof.
  intros He Hq Hc. rewrite (getChildren_queried t0 t node He Hq) in Hc.
  apply computeChildren_above in Hc as (Hp & Hlt & Hn).
  assert (Hq' : queried_from t0 (getChildren t node).2) by by constructor.
  unfold getParent. rewrite (queried_from_table _ _ He Hq'), (queried_from_table _ _ He Hq).
  split_and!; [|done|done].
  unfold arr_get. destruct (Z.ltb_spec (Z.of_nat c) 0); [lia|].
  by rewrite Nat2Z.id.
Qed.

Lemma getChildren_getParent_witness :
  _children DiffScenario.tree = ∅
  ∧ 3%nat ∈ (getChildren DiffScenario.tree 0).1
  ∧ getParent (getChildren DiffScenario.tree 0).2 3 = Some 0.
Proof.
  assert (H3 : 3%nat ∈ (getChildren DiffScenario.tree 0).1).
  { vm_compute. apply list_elem_of_further, list_elem_of_here. }
  split_and!; [reflexivity|exact H3|].
  apply (getChildren_getParent DiffScenario.tree DiffScenario.tree 0 3
           eq_refl (queried_refl _) H3).
Defined.

(** ** The number of children *)

Section children_count.
Context (thread : Thread) (samples : SamplesLikeTable) (info : CallNodeInfo).
Context (interval : Z) (invertCallstack : bool).

Let table := callNodeTable info.
Let n := cn_length table.
Let counts := computeCallTreeCountsAndSummary samples info interval invertCallstack.
Let tree := getCallTree thread info counts.

Hypothesis Hwf : table_wfb table = true.

Let fin : TotalsState :=
  let entries := getSampleIndexToCallNodeIndex (s_stack samples)
                   (stackIndexToCallNodeIndex info) in
  let ss := if invertCallstack
            then _getInvertedStackSelf samples table entries
            else _getStackSelf samples table entries in
  totals_loop table (callNodeLeaf ss) n (mkTotals (zeros n) (zeros n) 0 0).

(** Outside the first row, and everywhere in an inverted tree, the test of
    [getChildren] is the test of the reverse loop. *)
Lemma counted_is_child node (c : nat) :
  (c < n)%nat → c ≠ 0%nat ∨ invertCallstack = true →
  counted_row table fin node c = true → is_child tree node c = true.
Proof.
  intros Hc Hsnap Hcount. unfold counted_row in Hcount.
  apply andb_true_iff in Hcount as [Hp Hnz]. apply Z.eqb_eq in Hp.
  destruct (fin_lengths samples info invertCallstack Hwf) as [Ht Hcc].
  fold table n fin in Ht, Hcc.
  destruct (lookup_lt_is_Some_2 (cn_prefix table) c) as [p Hpc]; [done|].
  unfold prefix_at in Hp. rewrite Hpc in Hp. simpl in Hp. subst p.
  unfold is_child. change (_callNodeTable tree) with table.
  rewrite bool_decide_eq_true_2, andb_true_l by done.
  destruct (lookup_lt_is_Some_2 (ts_total fin) c) as [x Hx]; [lia|].
  destruct (lookup_lt_is_Some_2 (ts_childCount fin) c) as [y Hy]; [lia|].
  rewrite Hx, Hy in Hnz. simpl in Hnz.
  change (_callNodeChildCount tree) with (ts_childCount fin). rewrite Hy.
  assert (Hsn : total (_callNodeSummary tree) !! c = Some x).
  { change (total (_callNodeSummary tree)) with (snap_root invertCallstack (ts_total fin)).
    unfold snap_root. destruct (ts_total fin !! 0%nat) as [t0|]; [|done].
    destruct Hsnap as [Hc0| ->]; [|done].
    destruct (negb invertCallstack && (t0 <? 10)); [|done].
    by rewrite list_lookup_insert_ne. }
  rewrite Hsn. simpl. apply orb_true_iff in Hnz as [Hnz|Hnz];
    apply orb_true_iff; [left; by destruct x|right; by destruct y].
Qed.

Lemma filter_children_counted node (l : list nat) :
  (∀ c, c ∈ l → (c < n)%nat ∧ (c ≠ 0%nat ∨ invertCallstack = true)) →
  List.filter (is_child tree node) l = List.filter (counted_row table fin node) l.
Proof.
  intros Hl. apply List.filter_ext_in. intros c Hc.
  apply list_elem_of_In, Hl in Hc as [Hc Hsnap].
  destruct (counted_row table fin node c) eqn:E.
  - by apply counted_is_child.
  - destruct (is_child tree node c) eqn:E'; [|done].
    apply (is_child_counted thread samples info interval invertCallstack Hwf) in E';
      [|done]. fold table n fin in E'. congruence.
Qed.

(** X2: for a row of the table, the count that the aggregation stores in
    [callNodeChildCount] is the number of children that [getChildren]
    returns, so [hasChildren] is the test that this count is not zero. *)
Theorem child_count_is_number_of_children (node : Z) (t : CallTree) :
  0 ≤ node < Z.of_nat n →
  queried_from tree t →
  arr_get (_callNodeChildCount tree) node
    = Some (Z.of_nat (length (getChildren t node).1))
  ∧ (hasChildren t node).1
    = negb (default 0 (arr_get (callNodeChildCount counts) node) =? 0).
Proof.
  intros Hnode Hq.
  assert (Hlen : arr_get (_callNodeChildCount tree) node
                 = Some (Z.of_nat (length (getChildren t node).1))).
  { rewrite (getChildren_queried tree t node eq_refl Hq).
    rewrite (computeChildren_all thread samples info interval invertCallstack Hwf)
      by (right; done).
    fold table n counts tree. rewrite (Permutation_length (js_sort_perm _ _)).
    pose proof (fin_counts thread samples info interval invertCallstack Hwf node
                  (or_intror Hnode)) as Hfc.
    fold table n counts tree fin in Hfc.
    destruct (Z.eqb_spec node (-1)) as [?|_]; [lia|]. rewrite Hfc. f_equal.
    unfold counted_rows. do 2 f_equal. symmetry.
    assert (Hseq : seq 0 n = seq 0 (Z.to_nat (node + 1))
                             ++ seq (Z.to_nat (node + 1)) (n - Z.to_nat (node + 1))).
    { replace n with (Z.to_nat (node + 1) + (n - Z.to_nat (node + 1)))%nat at 1 by lia.
      apply seq_app. }
    rewrite Hseq, !List.filter_app. f_equal.
    - rewrite !filter_nil_iff; [done| |].
      + intros x Hx. apply elem_of_seq in Hx.
        destruct (counted_row table fin node x) eqn:E; [|done].
        unfold counted_row in E. apply andb_true_iff in E as [Hp _].
        apply Z.eqb_eq in Hp. unfold prefix_at in Hp.
        destruct (cn_prefix table !! x) as [p|] eqn:Hpx; simpl in Hp; [|lia].
        destruct (table_wfb_lookup _ _ _ Hwf Hpx); lia.
      + intros x Hx. apply elem_of_seq in Hx.
        destruct (is_child tree node x) eqn:E; [|done].
        apply (is_child_above thread samples info interval invertCallstack Hwf) in E.
        lia.
    - apply filter_children_counted. intros c Hc. apply elem_of_seq in Hc. lia. }
  split; [done|].
  change ((hasChildren t node).1) with (negb (length (getChildren t node).1 =? 0)%nat).
  change (callNodeChildCount counts) with (_callNodeChildCount tree).
  rewrite Hlen. simpl.
  destruct (length (getChildren t node).1); done.
Qed.

(** X3: the number of roots that [getRoots] returns is [rootCount] or one
    less, and it is [rootCount] in an inverted tree: the first row is counted
    as a root by the aggregation before its total is set to zero. *)
Theorem root_count_and_roots (t : CallTree) :
  queried_from tree t →
  let roots := (getRoots t).1 in
  Z.of_nat (length roots) ≤ rootCount counts ≤ Z.of_nat (length roots) + 1
  ∧ (invertCallstack = true → rootCount counts = Z.of_nat (length roots)).
Proof.
  intros Hq roots. subst roots. unfold getRoots.
  rewrite (getChildren_queried tree t (-1) eq_refl Hq).
  rewrite (computeChildren_all thread samples info interval invertCallstack Hwf)
    by (left; done).
  fold table n counts tree. rewrite (Permutation_length (js_sort_perm _ _)).
  pose proof (fin_counts thread samples info interval invertCallstack Hwf (-1)
                (or_introl eq_refl)) as Hfc.
  fold table n counts tree fin in Hfc.
  assert (Hrc : _rootCount tree = counted_rows table fin (-1) n)
    by (by injection Hfc).
  change (rootCount counts) with (_rootCount tree).
  rewrite Hrc. unfold counted_rows.
  split.
  - destruct (decide (n = 0%nat)) as [Hn0|Hn0]; [rewrite Hn0; simpl; lia|].
    assert (Hseq : seq 0 n = [0%nat] ++ seq 1 (n - 1)).
    { replace n with (1 + (n - 1))%nat at 1 by lia. apply seq_app. }
    rewrite Hseq, !List.filter_app.
    rewrite (filter_children_counted (-1) (seq 1 (n - 1))).
    + rewrite !length_app.
      assert (Hle : (length (List.filter (is_child tree (-1)) [0%nat])
                     ≤ length (List.filter (counted_row table fin (-1)) [0%nat]))%nat).
      { apply filter_length_mono. intros x Hx Hch.
        apply (is_child_counted thread samples info interval invertCallstack Hwf);
          [|done].
        apply list_elem_of_singleton in Hx. subst x. fold table n. lia. }
      assert (Hone : (length (List.filter (counted_row table fin (-1)) [0%nat]) ≤ 1)%nat).
      { simpl. destruct (counted_row table fin (-1) 0); simpl; lia. }
      lia.
    + intros c Hc. apply elem_of_seq in Hc. lia.
  - intros Hinv. rewrite filter_children_counted; [done|].
    intros c Hc. apply elem_of_seq in Hc. split; [lia|by right].
Qed.

End children_count.

Lemma child_count_is_number_of_children_witness :
  table_wfb (callNodeTable DiffScenario.info) = true
  ∧ 0 ≤ 0 < Z.of_nat (cn_length (callNodeTable DiffScenario.info))
  ∧ arr_get (_callNodeChildCount DiffScenario.tree) 0 = Some 4
  ∧ (hasChildren DiffScenario.tree 0).1 = true.
Proof.
  assert (Hwf : table_wfb (callNodeTable DiffScenario.info) = true) by reflexivity.
  assert (Hn : 0 ≤ 0 < Z.of_nat (cn_length (callNodeTable DiffScenario.info)))
    by (vm_compute; split; [discriminate|reflexivity]).
  destruct (child_count_is_number_of_children DiffScenario.thread DiffScenario.samples
              DiffScenario.info 1 false Hwf 0 DiffScenario.tree Hn (queried_refl _))
    as [H1 H2].
  split; [exact Hwf|]. split; [exact Hn|]. split; [exact H1|exact H2].
Defined.

Lemma root_count_and_roots_witness :
  table_wfb (callNodeTable SingleNode.info) = true
  ∧ (getRoots (SingleNode.tree false)).1 = []
  ∧ 0 ≤ rootCount (computeCallTreeCountsAndSummary SingleNode.samples SingleNode.info 1 false)
      ≤ 1
  ∧ rootCount (computeCallTreeCountsAndSummary SingleNode.samples SingleNode.info 1 true)
    = Z.of_nat (length (getRoots (SingleNode.tree true)).1).
Proof.
  assert (Hwf : table_wfb (callNodeTable SingleNode.info) = true) by reflexivity.
  destruct (root_count_and_roots SingleNode.thread SingleNode.samples SingleNode.info
              1 false Hwf (SingleNode.tree false) (queried_refl _)) as [H1 _].
  destruct (root_count_and_roots SingleNode.thread SingleNode.samples SingleNode.info
              1 true Hwf (SingleNode.tree true) (queried_refl _)) as [_ H2].
  split; [exact Hwf|]. split; [reflexivity|]. split; [exact H1|exact (H2 eq_refl)].
Defined.

(** ** All descendants *)

Lemma descendant_inv t node d :
  descendant t node d
  ↔ ∃ c, c ∈ computeChildren t node ∧ (d = c ∨ descendant t (Z.of_nat c) d).
Proof.
  split.
  - intros H. inversion H; subst; eauto.
  - intros (c & Hc & [->|Hd]); [by constructor|by econstructor].
Qed.

Lemma descendant_above t node d :
  descendant t node d →
  node < Z.of_nat d ∧ (d < cn_length (_callNodeTable t))%nat.
Proof.
  induction 1 as [node c Hc|node c d Hc _ IH].
  - apply computeChildren_above in Hc. lia.
  - apply computeChildren_above in Hc. lia.
Qed.

Section descendants.
Context (t0 : CallTree).
Hypothesis Hempty : _children t0 = ∅.

Let n := cn_length (_callNodeTable t0).

(** The loop of [_addDescendantsToSet] over the children that are left. *)
Let loop (fuel : nat) (acc : option (gset nat * CallTree)) (children : list nat) :=
  foldl (λ acc child,
           acc ≫= λ st : gset nat * CallTree,
             _addDescendantsToSet fuel st.2 (Z.of_nat child) ({[ child ]} ∪ st.1))
        acc children.

Lemma addDescendants_spec fuel :
  ∀ t node set,
    queried_from t0 t → (n - Z.to_nat (node + 1) < fuel)%nat →
    ∃ set' t',
      _addDescendantsToSet fuel t node set = Some (set', t')
      ∧ queried_from t0 t'
      ∧ ∀ d, d ∈ set' ↔ d ∈ set ∨ descendant t0 node d.
Proof.
  induction fuel as [|fuel IH]; intros t node set Hq Hfuel; [lia|].
  simpl. rewrite (getChildren_queried t0 t node Hempty Hq).
  assert (Hq1 : queried_from t0 (getChildren t node).2) by by constructor.
  assert (Hloop : ∀ children set1 t1,
            queried_from t0 t1 →
            (∀ c, c ∈ children → node < Z.of_nat c ∧ (c < n)%nat) →
            ∃ set' t',
              loop fuel (Some (set1, t1)) children = Some (set', t')
              ∧ queried_from t0 t'
              ∧ ∀ d, d ∈ set' ↔
                     d ∈ set1 ∨ ∃ c, c ∈ children ∧ (d = c ∨ descendant t0 (Z.of_nat c) d)).
  { induction children as [|c children IHc]; intros set1 t1 Hq' Hch.
    - exists set1, t1. split_and!; [done|done|].
      intros d. split; [by left|]. intros [?|(c & Hc & _)]; [done|].
      by apply elem_of_nil in Hc.
    - unfold loop. simpl.
      destruct (Hch c) as [Hlt Hcn]; [apply list_elem_of_here|].
      destruct (IH t1 (Z.of_nat c) ({[ c ]} ∪ set1) Hq') as (s2 & t2 & -> & Hq2 & Hs2);
        [lia|].
      destruct (IHc s2 t2 Hq2) as (s3 & t3 & Hl & Hq3 & Hs3).
      { intros c' Hc'. apply Hch. by apply list_elem_of_further. }
      exists s3, t3. split_and!; [exact Hl|done|].
      intros d. rewrite Hs3, Hs2, elem_of_union, elem_of_singleton. split.
      + intros [[[->|?]|?]|(c' & Hc' & Hd)].
        * right. exists c. split; [apply list_elem_of_here|by left].
        * by left.
        * right. exists c. split; [apply list_elem_of_here|by right].
        * right. exists c'. split; [by apply list_elem_of_further|done].
      + intros [?|(c' & Hc' & Hd)]; [by left; left; right|].
        apply elem_of_cons in Hc' as [->|Hc'].
        * destruct Hd as [->|Hd]; [by left; left; left|by left; right].
        * right. by exists c'. }
  destruct (Hloop (computeChildren t0 node) set (getChildren t node).2 Hq1)
    as (s' & t' & Hl & Hq' & Hs').
  { intros c Hc. apply computeChildren_above in Hc. fold n in Hc. lia. }
  exists s', t'. split_and!; [exact Hl|done|].
  intros d. rewrite Hs', descendant_inv. done.
Qed.

End descendants.

(** X4: on a tree whose cache starts empty, [getAllDescendants] returns
    (with a recursion depth beyond the number of rows) the set of the rows
    that are reached from the node by steps from a row to one of its
    children, and never the node itself. *)
Theorem getAllDescendants_descendants (t0 t : CallTree) (node : Z) (fuel : nat) :
  _children t0 = ∅ → queried_from t0 t →
  (cn_length (_callNodeTable t0) < fuel)%nat →
  ∃ set t',
    getAllDescendants fuel t node = Some (set, t')
    ∧ queried_from t0 t'
    ∧ (∀ d, d ∈ set ↔ descendant t0 node d)
    ∧ (∀ d, d ∈ set → node < Z.of_nat d).
Proof.
  intros He Hq Hfuel.
  destruct (addDescendants_spec t0 He fuel t node ∅ Hq) as (s & t' & Hr & Hq' & Hs);
    [lia|].
  exists s, t'. split_and!; [done|done| |].
  - intros d. rewrite Hs. split; [intros [H|H]; [set_solver|done]|by right].
  - intros d Hd. apply Hs in Hd as [Hd|Hd]; [set_solver|].
    apply descendant_above in Hd. lia.
Qed.

Lemma getAllDescendants_descendants_witness :
  _children Scenario.tree = ∅
  ∧ (cn_length (_callNodeTable Scenario.tree) < 4)%nat
  ∧ ∃ set t', getAllDescendants 4 Scenario.tree (-1) = Some (set, t')
              ∧ ∀ d, d ∈ set ↔ descendant Scenario.tree (-1) d.
Proof.
  assert (Hf : (cn_length (_callNodeTable Scenario.tree) < 4)%nat) by (vm_compute; lia).
  destruct (getAllDescendants_descendants Scenario.tree Scenario.tree (-1) 4
              eq_refl (queried_refl _) Hf) as (s & t' & H1 & _ & H2 & _).
  split; [reflexivity|]. split; [exact Hf|]. exists s, t'. split; [exact H1|exact H2].
Defined.

(** * More of the aggregation *)

Lemma totals_step_lengths table leaf k st :
  length (ts_total (totals_step table leaf k st)) = length (ts_total st)
  ∧ length (ts_childCount (totals_step table leaf k st)) = length (ts_childCount st).
Proof.
  unfold totals_step. cbv zeta.
  destruct (negb (negb _) && negb (negb _)); simpl;
    [by rewrite length_arr_add|].
  destruct (prefix_at table k =? -1); simpl;
    unfold arr_incr32; by rewrite ?length_arr_add, ?length_arr_upd.
Qed.

Lemma totals_loop_lengths table leaf k st :
  length (ts_total (totals_loop table leaf k st)) = length (ts_total st)
  ∧ length (ts_childCount (totals_loop table leaf k st)) = length (ts_childCount st).
Proof.
  revert st. induction k as [|k IH]; intros st; simpl; [done|].
  destruct (IH (totals_step table leaf k st)) as [-> ->].
  apply totals_step_lengths.
Qed.

Lemma totals_step_rootTotal table leaf k st :
  ts_rootTotal (totals_step table leaf k st)
  = to_float64 (ts_rootTotal st + Z.abs (default 0 (leaf !! k))).
Proof.
  unfold totals_step. cbv zeta.
  destruct (negb (negb _) && negb (negb _)); simpl; [done|].
  by destruct (prefix_at table k =? -1).
Qed.

Lemma take_S_abs (l : list Z) (k : nat) :
  sumZ (Z.abs <$> take (S k) l)
  = sumZ (Z.abs <$> take k l) + Z.abs (default 0 (l !! k)).
Proof.
  destruct (l !! k) as [x|] eqn:E.
  - rewrite (take_S_r _ _ _ E), fmap_app, sumZ_app. unfold sumZ. simpl. lia.
  - apply lookup_ge_None in E. rewrite !take_ge by lia. simpl. lia.
Qed.

(** While the sum stays below [2 ^ 53], no addition to [rootTotalSummary]
    is rounded. *)
Lemma totals_loop_rootTotal table leaf k st :
  0 ≤ ts_rootTotal st →
  ts_rootTotal st + sumZ (Z.abs <$> take k leaf) ≤ 2 ^ 53 →
  ts_rootTotal (totals_loop table leaf k st)
  = ts_rootTotal st + sumZ (Z.abs <$> take k leaf).
Proof.
  revert st. induction k as [|k IH]; intros st Hnn Hb; simpl totals_loop.
  - unfold sumZ. simpl. lia.
  - rewrite take_S_abs in Hb |- *.
    pose proof (sumZ_abs_nonneg (take k leaf)) as Hk.
    assert (Hstep : ts_rootTotal (totals_step table leaf k st)
                    = ts_rootTotal st + Z.abs (default 0 (leaf !! k))).
    { rewrite totals_step_rootTotal. apply to_float64_small. lia. }
    rewrite IH; rewrite Hstep; lia.
Qed.

Lemma invertedSelf_fold_lengths samples ctr es acc :
  let res := foldl (invertedSelf_step samples ctr) acc es in
  length (callNodeSelf res) = length (callNodeSelf acc)
  ∧ length (callNodeLeaf res) = length (callNodeLeaf acc).
Proof.
  revert acc. induction es as [|e es IH]; intros acc; simpl; [done|].
  destruct (IH (invertedSelf_step samples ctr acc e)) as [-> ->].
  unfold invertedSelf_step. destruct (e.2) as [c|]; [|done]. simpl.
  rewrite length_arr_add. split; [|done].
  destruct (ctr !! c); [apply length_arr_add|done].
Qed.

Lemma leafWeights_length samples info invertCallstack :
  length (leafWeights samples info invertCallstack) = cn_length (callNodeTable info).
Proof.
  unfold leafWeights. destruct invertCallstack.
  - unfold _getInvertedStackSelf.
    destruct (invertedSelf_fold_lengths samples
                (computeCallNodeToRoot (callNodeTable info))
                (imap pair (getSampleIndexToCallNodeIndex (s_stack samples)
                              (stackIndexToCallNodeIndex info)))
                (mkStackSelf (zeros (cn_length (callNodeTable info)))
                             (zeros (cn_length (callNodeTable info))))) as [_ H].
    rewrite H. apply length_zeros.
  - unfold _getStackSelf. simpl. rewrite stackSelf_fold_length. apply length_zeros.
Qed.

Lemma selfWeights_length samples info interval invertCallstack :
  length (self (callNodeSummary
                  (computeCallTreeCountsAndSummary samples info interval invertCallstack)))
  = cn_length (callNodeTable info).
Proof.
  unfold computeCallTreeCountsAndSummary. simpl. destruct invertCallstack.
  - unfold _getInvertedStackSelf.
    destruct (invertedSelf_fold_lengths samples
                (computeCallNodeToRoot (callNodeTable info))
                (imap pair (getSampleIndexToCallNodeIndex (s_stack samples)
                              (stackIndexToCallNodeIndex info)))
                (mkStackSelf (zeros (cn_length (callNodeTable info)))
                             (zeros (cn_length (callNodeTable info))))) as [H _].
    rewrite H. apply length_zeros.
  - unfold _getStackSelf. simpl. rewrite stackSelf_fold_length. apply length_zeros.
Qed.

Lemma length_snap_root invertCallstack totals :
  length (snap_root invertCallstack totals) = length totals.
Proof.
  unfold snap_root. destruct (totals !! 0%nat) as [t0|]; [|done].
  destruct (negb invertCallstack && (t0 <? 10)); [apply length_insert|done].
Qed.

(** X5: the three arrays that [computeCallTreeCountsAndSummary] returns
    ([self], [total] and [callNodeChildCount]) have one cell per row of the
    call node table, whatever the samples and the table hold. *)
Theorem summary_arrays_have_table_length samples info interval invertCallstack :
  let counts := computeCallTreeCountsAndSummary samples info interval invertCallstack in
  let n := cn_length (callNodeTable info) in
  length (self (callNodeSummary counts)) = n
  ∧ length (total (callNodeSummary counts)) = n
  ∧ length (callNodeChildCount counts) = n.
Proof.
  intros counts n. split; [apply selfWeights_length|].
  unfold counts, computeCallTreeCountsAndSummary. cbv zeta.
  unfold total, callNodeSummary, callNodeChildCount.
  rewrite length_snap_root.
  match goal with
  | |- context [totals_loop ?t ?l ?k ?st] =>
      destruct (totals_loop_lengths t l k st) as [-> ->]
  end.
  simpl. by rewrite length_zeros.
Qed.

(** ** The root total *)

Lemma invertedSelf_fold_magnitude samples ctr es acc :
  sumZ (Z.abs <$> callNodeSelf acc) + entries_magnitude samples es ≤ 2 ^ 24 →
  sumZ (Z.abs <$> callNodeLeaf acc) + entries_magnitude samples es ≤ 2 ^ 24 →
  let res := foldl (invertedSelf_step samples ctr) acc es in
  sumZ (Z.abs <$> callNodeSelf res)
    ≤ sumZ (Z.abs <$> callNodeSelf acc) + entries_magnitude samples es
  ∧ sumZ (Z.abs <$> callNodeLeaf res)
    ≤ sumZ (Z.abs <$> callNodeLeaf acc) + entries_magnitude samples es.
Proof.
  revert acc. induction es as [|e es IH]; intros acc Hbs Hbl.
  - simpl. unfold entries_magnitude, sumZ. simpl. lia.
  - rewrite entries_magnitude_cons in Hbs, Hbl |- *.
    pose proof (entries_magnitude_nonneg samples es) as Hnn.
    destruct (invertedSelf_step_small samples ctr acc e ltac:(lia) ltac:(lia))
      as (_ & Hms & Hml).
    cbv zeta. simpl foldl.
    destruct (IH (invertedSelf_step samples ctr acc e) ltac:(lia) ltac:(lia))
      as [H1 H2].
    cbv zeta in H1, H2. lia.
Qed.

(** The entries of the sample loops of a table, with their bound. *)
Lemma zeros_entries_magnitude samples info n :
  samples_wfb samples info = true →
  magnitudeOfNonNullStacks samples ≤ 2 ^ 24 →
  sumZ (Z.abs <$> zeros n)
  + entries_magnitude samples
      (imap pair (getSampleIndexToCallNodeIndex (s_stack samples)
                    (stackIndexToCallNodeIndex info)))
  ≤ 2 ^ 24.
Proof.
  intros Hs Hmag. rewrite sumZ_abs_zeros, (sample_entries_magnitude _ _ Hs). lia.
Qed.

Lemma leafWeights_magnitude samples info invertCallstack :
  samples_wfb samples info = true →
  magnitudeOfNonNullStacks samples ≤ 2 ^ 24 →
  sumZ (Z.abs <$> leafWeights samples info invertCallstack)
  ≤ magnitudeOfNonNullStacks samples.
Proof.
  intros Hs Hmag.
  pose proof (zeros_entries_magnitude samples info (cn_length (callNodeTable info))
                Hs Hmag) as Hzero.
  rewrite <- (sample_entries_magnitude samples info Hs).
  unfold leafWeights. destruct invertCallstack.
  - unfold _getInvertedStackSelf.
    destruct (invertedSelf_fold_magnitude samples
                (computeCallNodeToRoot (callNodeTable info))
                (imap pair (getSampleIndexToCallNodeIndex (s_stack samples)
                              (stackIndexToCallNodeIndex info)))
                (mkStackSelf (zeros (cn_length (callNodeTable info)))
                             (zeros (cn_length (callNodeTable info)))) Hzero Hzero)
      as [_ H].
    cbv zeta in H. simpl in H. rewrite sumZ_abs_zeros in H. lia.
  - unfold _getStackSelf. simpl.
    pose proof (stackSelf_fold_magnitude samples _ _ Hzero) as H.
    rewrite sumZ_abs_zeros in H. lia.
Qed.

Lemma leafWeights_sum samples info invertCallstack :
  samples_wfb samples info = true →
  magnitudeOfNonNullStacks samples ≤ 2 ^ 24 →
  sumZ (leafWeights samples info invertCallstack) = weightOfNonNullStacks samples.
Proof.
  intros Hs Hmag. pose proof (sample_entries_in_range samples info Hs) as Hin.
  pose proof (zeros_entries_magnitude samples info (cn_length (callNodeTable info))
                Hs Hmag) as Hzero.
  rewrite <- (sample_entries_weight samples info Hs).
  unfold leafWeights. destruct invertCallstack.
  - unfold _getInvertedStackSelf.
    destruct (invertedSelf_fold_leaf samples (cn_length (callNodeTable info))
                (computeCallNodeToRoot (callNodeTable info))
                (imap pair (getSampleIndexToCallNodeIndex (s_stack samples)
                              (stackIndexToCallNodeIndex info)))
                (mkStackSelf (zeros (cn_length (callNodeTable info)))
                             (zeros (cn_length (callNodeTable info)))))
      as [_ H]; [apply length_zeros|done|done|].
    rewrite H. simpl. rewrite sumZ_zeros. lia.
  - unfold _getStackSelf. simpl. rewrite stackSelf_fold_sum.
    + rewrite sumZ_zeros. lia.
    + by rewrite length_zeros.
    + done.
Qed.

Lemma arr_add_nonneg a i w :
  Forall (λ x, 0 ≤ x) a → 0 ≤ w → Forall (λ x, 0 ≤ x) (arr_add a i w).
Proof.
  intros Ha Hw. unfold arr_add, arr_upd. destruct (i <? 0); [done|].
  apply Forall_alter; [done|]. intros x _ Hx. by apply float32_add_nonneg.
Qed.

Lemma leafWeights_nonneg samples info invertCallstack :
  (∀ i, 0 ≤ sample_weight samples i) →
  Forall (λ x, 0 ≤ x) (leafWeights samples info invertCallstack).
Proof.
  intros Hw.
  assert (Hz : ∀ n, Forall (λ x, 0 ≤ x) (zeros n)).
  { intros n. apply Forall_forall. intros x Hx.
    apply elem_of_replicate in Hx as [-> _]. lia. }
  unfold leafWeights. destruct invertCallstack.
  - unfold _getInvertedStackSelf.
    generalize (imap pair (getSampleIndexToCallNodeIndex (s_stack samples)
                             (stackIndexToCallNodeIndex info))).
    intros es.
    assert (H : ∀ acc, Forall (λ x, 0 ≤ x) (callNodeLeaf acc) →
              Forall (λ x, 0 ≤ x)
                (callNodeLeaf (foldl (invertedSelf_step samples
                                 (computeCallNodeToRoot (callNodeTable info))) acc es))).
    { induction es as [|e es IH]; intros acc Hacc; simpl; [done|].
      apply IH. unfold invertedSelf_step. destruct (e.2); [|done]. simpl.
      by apply arr_add_nonneg. }
    apply H. simpl. apply Hz.
  - unfold _getStackSelf. simpl.
    generalize (imap pair (getSampleIndexToCallNodeIndex (s_stack samples)
                             (stackIndexToCallNodeIndex info))).
    intros es.
    assert (H : ∀ acc, Forall (λ x, 0 ≤ x) acc →
              Forall (λ x, 0 ≤ x) (foldl (stackSelf_step samples) acc es)).
    { induction es as [|e es IH]; intros acc Hacc; simpl; [done|].
      apply IH. unfold stackSelf_step. destruct (e.2); [|done].
      by apply arr_add_nonneg. }
    apply H, Hz.
Qed.

Lemma rootTotalSummary_leaf samples info interval invertCallstack :
  samples_wfb samples info = true →
  magnitudeOfNonNullStacks samples ≤ 2 ^ 24 →
  rootTotalSummary (computeCallTreeCountsAndSummary samples info interval invertCallstack)
  = sumZ (Z.abs <$> leafWeights samples info invertCallstack).
Proof.
  intros Hs Hmag.
  pose proof (leafWeights_length samples info invertCallstack) as Hlen.
  pose proof (leafWeights_magnitude samples info invertCallstack Hs Hmag) as Hleaf.
  unfold computeCallTreeCountsAndSummary. cbv zeta. unfold rootTotalSummary.
  fold (leafWeights samples info invertCallstack).
  rewrite totals_loop_rootTotal; simpl (ts_rootTotal (mkTotals _ _ _ _)).
  - rewrite <- Hlen, firstn_all. lia.
  - done.
  - rewrite <- Hlen, firstn_all. lia.
Qed.

(** X6: for whole-number weights whose absolute values add up to at most
    [2 ^ 24], [rootTotalSummary] is the sum of the absolute values of the
    leaf weights of the call nodes.  It is never negative, it is at least
    the absolute value of the weight of the samples that have a stack, and
    it is that weight when no sample has a negative weight. *)
Theorem root_total_summary samples info interval invertCallstack :
  samples_wfb samples info = true →
  magnitudeOfNonNullStacks samples ≤ 2 ^ 24 →
  let counts := computeCallTreeCountsAndSummary samples info interval invertCallstack in
  rootTotalSummary counts = sumZ (Z.abs <$> leafWeights samples info invertCallstack)
  ∧ 0 ≤ rootTotalSummary counts
  ∧ Z.abs (weightOfNonNullStacks samples) ≤ rootTotalSummary counts
  ∧ ((∀ i, 0 ≤ sample_weight samples i) →
     rootTotalSummary counts = weightOfNonNullStacks samples).
Proof.
  intros Hs Hmag counts. unfold counts. rewrite rootTotalSummary_leaf by done.
  split_and!; [done|apply sumZ_abs_nonneg| |].
  - rewrite <- (leafWeights_sum samples info invertCallstack Hs Hmag).
    apply sumZ_abs_triangle.
  - intros Hw. rewrite sumZ_abs_id by by apply leafWeights_nonneg.
    by apply leafWeights_sum.
Qed.

Lemma root_total_summary_witness :
  samples_wfb DiffScenario.samples DiffScenario.info = true
  ∧ magnitudeOfNonNullStacks DiffScenario.samples ≤ 2 ^ 24
  ∧ rootTotalSummary
      (computeCallTreeCountsAndSummary DiffScenario.samples DiffScenario.info 1 false)
    = sumZ (Z.abs <$> leafWeights DiffScenario.samples DiffScenario.info false)
  ∧ Z.abs (weightOfNonNullStacks DiffScenario.samples)
    ≤ rootTotalSummary
        (computeCallTreeCountsAndSummary DiffScenario.samples DiffScenario.info 1 false).
Proof.
  assert (Hs : samples_wfb DiffScenario.samples DiffScenario.info = true) by reflexivity.
  assert (Hmag : magnitudeOfNonNullStacks DiffScenario.samples ≤ 2 ^ 24)
    by (vm_compute; discriminate).
  destruct (root_total_summary DiffScenario.samples DiffScenario.info 1 false Hs Hmag)
    as (H1 & _ & H3 & _).
  split; [exact Hs|]. split; [exact Hmag|]. split; [exact H1|exact H3].
Defined.

(** ** Totals *)

Lemma sumZ_abs_take_pointwise (a b : list Z) (p w : Z) (k : nat) :
  (∀ j, (j < k)%nat →
     default 0 (b !! j)
     = default 0 (a !! j) + (if bool_decide (p = Z.of_nat j) then w else 0)) →
  sumZ (Z.abs <$> take k b)
  ≤ sumZ (Z.abs <$> take k a) + (if bool_decide (0 ≤ p < Z.of_nat k) then Z.abs w else 0).
Proof.
  induction k as [|k IH]; intros Hpt.
  - rewrite bool_decide_eq_false_2 by lia. unfold sumZ. simpl. lia.
  - rewrite !take_S_abs.
    specialize (IH ltac:(intros j Hj; apply Hpt; lia)).
    specialize (Hpt k ltac:(lia)). rewrite Hpt.
    repeat case_bool_decide; lia.
Qed.

(** One round of the reverse loop while the absolute values of the totals
    and of the leaf weights of the rows that are left add up to at most
    [2 ^ 24]: no store rounds, and the rows that are left after the round
    keep the bound. *)
Lemma totals_step_total table leaf k st p :
  cn_prefix table !! k = Some p → p = -1 ∨ 0 ≤ p < Z.of_nat k →
  (k < length (ts_total st))%nat →
  sumZ (Z.abs <$> take (S k) (ts_total st)) + sumZ (Z.abs <$> take (S k) leaf) ≤ 2 ^ 24 →
  let st' := totals_step table leaf k st in
  (∀ j : nat, (j < length (ts_total st))%nat →
     default 0 (ts_total st' !! j)
     = default 0 (ts_total st !! j)
       + (if bool_decide (j = k) then default 0 (leaf !! k)
          else if bool_decide (p = Z.of_nat j) then default 0 (ts_total st' !! k)
               else 0))
  ∧ sumZ (Z.abs <$> take k (ts_total st')) + sumZ (Z.abs <$> take k leaf)
    ≤ sumZ (Z.abs <$> take (S k) (ts_total st)) + sumZ (Z.abs <$> take (S k) leaf).
Proof.
  intros Hp Hpr Hk Hb st'.
  destruct (lookup_lt_is_Some_2 _ _ Hk) as [xk Hxk].
  set (lk := default 0 (leaf !! k)).
  rewrite !take_S_abs in Hb |- *. rewrite Hxk in Hb |- *. fold lk in Hb |- *.
  simpl (default _ (Some _)) in Hb |- *.
  pose proof (sumZ_abs_nonneg (take k (ts_total st))) as Hnn1.
  pose proof (sumZ_abs_nonneg (take k leaf)) as Hnn2.
  assert (Hex1 : float32_add xk lk = xk + lk) by (apply float32_add_small; lia).
  assert (H1 : ∀ i xi, ts_total st !! i = Some xi →
            arr_add (ts_total st) (Z.of_nat k) lk !! i
            = Some (if bool_decide (i = k) then xi + lk else xi)).
  { intros i xi Hi. unfold arr_add. rewrite lookup_arr_upd, Hi.
    case_bool_decide as E1; case_bool_decide as E2; try lia; [|done].
    subst i. simplify_eq. simpl. by rewrite Hex1. }
  assert (H2 : ∀ i xi, ts_total st !! i = Some xi → p ≠ -1 →
            arr_add (arr_add (ts_total st) (Z.of_nat k) lk) p (xk + lk) !! i
            = Some ((if bool_decide (i = k) then xi + lk else xi)
                    + (if bool_decide (p = Z.of_nat i) then xk + lk else 0))).
  { intros i xi Hi Hne. unfold arr_add at 1. rewrite lookup_arr_upd, (H1 i xi Hi).
    case_bool_decide as E; simpl; [|f_equal; lia].
    rewrite bool_decide_eq_false_2 by lia. f_equal. apply float32_add_small.
    assert (Hi' : take k (ts_total st) !! i = Some xi)
      by (rewrite lookup_take_lt by lia; done).
    pose proof (sumZ_abs_lookup _ _ _ Hi'). lia. }
  assert (Hpoint : ∀ j : nat, (j < length (ts_total st))%nat →
     default 0 (ts_total st' !! j)
     = default 0 (ts_total st !! j)
       + (if bool_decide (j = k) then lk
          else if bool_decide (p = Z.of_nat j) then default 0 (ts_total st' !! k)
               else 0)).
  { intros j Hj. destruct (lookup_lt_is_Some_2 _ _ Hj) as [xj Hxj].
    subst st'. unfold totals_step. cbv zeta. fold lk. unfold prefix_at. rewrite Hp.
    rewrite (H1 k xk Hxk). rewrite (bool_decide_eq_true_2 (k = k)) by done.
    rewrite Hxj. simpl (default _ (Some _)).
    destruct (negb (negb _) && negb (negb (xk + lk =? 0))) eqn:Eact.
    - apply andb_true_iff in Eact as [_ E]. rewrite negb_involutive in E.
      apply Z.eqb_eq in E. simpl.
      rewrite (H1 j xj Hxj), (H1 k xk Hxk). simpl.
      repeat case_bool_decide; simplify_eq; simpl; lia.
    - destruct (p =? -1) eqn:Ep.
      + apply Z.eqb_eq in Ep. simpl.
        rewrite (H1 j xj Hxj), (H1 k xk Hxk). simpl.
        repeat case_bool_decide; simplify_eq; simpl; lia.
      + apply Z.eqb_neq in Ep. simpl.
        rewrite (H2 j xj Hxj Ep), (H2 k xk Hxk Ep). simpl.
        repeat case_bool_decide; simplify_eq; simpl; lia. }
  split; [exact Hpoint|].
  pose proof (Hpoint k Hk) as Hkk. rewrite bool_decide_eq_true_2 in Hkk by done.
  rewrite Hxk in Hkk. simpl in Hkk.
  pose proof (sumZ_abs_take_pointwise (ts_total st) (ts_total st') p
                (default 0 (ts_total st' !! k)) k) as Hsum.
  assert (Hpt : ∀ j, (j < k)%nat →
            default 0 (ts_total st' !! j)
            = default 0 (ts_total st !! j)
              + (if bool_decide (p = Z.of_nat j) then default 0 (ts_total st' !! k)
                 else 0)).
  { intros j Hj. rewrite (Hpoint j ltac:(lia)).
    by rewrite bool_decide_eq_false_2 by lia. }
  specialize (Hsum Hpt). case_bool_decide; lia.
Qed.

Lemma filter_singleton {A} (f : A → bool) (x : A) :
  List.filter f [x] = if f x then [x] else [].
Proof. done. Qed.

Lemma totals_loop_totals table leaf k st :
  table_wfb table = true → (k ≤ cn_length table)%nat →
  length (ts_total st) = cn_length table →
  sumZ (Z.abs <$> take k (ts_total st)) + sumZ (Z.abs <$> take k leaf) ≤ 2 ^ 24 →
  let fin := totals_loop table leaf k st in
  ∀ j, (j < cn_length table)%nat →
    default 0 (ts_total fin !! j)
    = default 0 (ts_total st !! j)
      + (if (j <? k)%nat then default 0 (leaf !! j) else 0)
      + sumZ ((λ c : nat, default 0 (ts_total fin !! c))
                <$> List.filter (λ c, prefix_at table c =? Z.of_nat j) (seq 0 k)).
Proof.
  intros Hwf. revert st. induction k as [|k IH]; intros st Hk Hlen Hb fin j Hj.
  - subst fin. simpl. unfold sumZ. simpl. lia.
  - subst fin. simpl totals_loop.
    set (st' := totals_step table leaf k st).
    assert (Hlen' : length (ts_total st') = cn_length table).
    { unfold st'. by rewrite (proj1 (totals_step_lengths table leaf k st)). }
    destruct (lookup_lt_is_Some_2 (cn_prefix table) k) as [p Hp];
      [unfold cn_length in Hk; lia|].
    pose proof (table_wfb_lookup _ _ _ Hwf Hp) as Hpr.
    destruct (totals_step_total table leaf k st p Hp Hpr ltac:(lia) Hb)
      as [Hpoint Hpot]. fold st' in Hpoint, Hpot.
    specialize (IH st' ltac:(lia) Hlen' ltac:(lia) j Hj). cbv zeta in IH.
    destruct (totals_loop_frozen table leaf k st' k Hwf ltac:(lia) ltac:(lia))
      as [Hfrozen _]. cbv zeta in Hfrozen.
    pose proof (Hpoint j ltac:(lia)) as Hstep.
    rewrite seq_S, List.filter_app, fmap_app, sumZ_app. simpl (0 + k)%nat.
    rewrite filter_singleton. unfold prefix_at at 2. rewrite Hp. simpl (default _ (Some p)).
    rewrite IH, Hstep.
    destruct (Z.eqb_spec p (Z.of_nat j)) as [Heq|Hne].
    + rewrite (bool_decide_eq_true_2 (p = Z.of_nat j)) by done.
      rewrite (bool_decide_eq_false_2 (j = k)) by lia.
      csimpl. rewrite Hfrozen.
      destruct (Nat.ltb_spec j k); destruct (Nat.ltb_spec j (S k)); try lia;
        unfold sumZ; csimpl; lia.
    + rewrite (bool_decide_eq_false_2 (p = Z.of_nat j)) by done.
      case_bool_decide.
      * subst j. destruct (Nat.ltb_spec k k); destruct (Nat.ltb_spec k (S k)); try lia;
          unfold sumZ; csimpl; lia.
      * destruct (Nat.ltb_spec j k); destruct (Nat.ltb_spec j (S k)); try lia;
          unfold sumZ; csimpl; lia.
Qed.

Lemma accumulatedTotals_loop samples info invertCallstack :
  accumulatedTotals samples info invertCallstack
  = ts_total (totals_loop (callNodeTable info)
                (leafWeights samples info invertCallstack)
                (cn_length (callNodeTable info))
                (mkTotals (zeros (cn_length (callNodeTable info)))
                          (zeros (cn_length (callNodeTable info))) 0 0)).
Proof. done. Qed.

(** The bound with which the reverse loop starts. *)
Lemma totals_loop_start samples info invertCallstack (k : nat) :
  samples_wfb samples info = true →
  magnitudeOfNonNullStacks samples ≤ 2 ^ 24 →
  sumZ (Z.abs <$> take k (zeros (cn_length (callNodeTable info))))
  + sumZ (Z.abs <$> take k (leafWeights samples info invertCallstack)) ≤ 2 ^ 24.
Proof.
  intros Hs Hmag.
  pose proof (leafWeights_magnitude samples info invertCallstack Hs Hmag) as Hleaf.
  assert (H0 : sumZ (Z.abs <$> take k (zeros (cn_length (callNodeTable info)))) = 0).
  { unfold zeros. rewrite take_replicate. apply sumZ_abs_zeros. }
  assert (Hle : ∀ l : list Z, sumZ (Z.abs <$> take k l) ≤ sumZ (Z.abs <$> l)).
  { intros l. rewrite <- (take_drop k l) at 2. rewrite fmap_app, sumZ_app.
    pose proof (sumZ_abs_nonneg (drop k l)). lia. }
  specialize (Hle (leafWeights samples info invertCallstack)). lia.
Qed.

(** X7: for whole-number weights whose absolute values add up to at most
    [2 ^ 24], when the reverse loop of [computeCallTreeCountsAndSummary]
    ends the total of every call node is its own leaf weight plus the
    totals of the rows whose prefix it is. *)
Theorem total_is_leaf_plus_children samples info invertCallstack (j : nat) :
  let table := callNodeTable info in
  let totals := accumulatedTotals samples info invertCallstack in
  table_wfb table = true →
  samples_wfb samples info = true →
  magnitudeOfNonNullStacks samples ≤ 2 ^ 24 →
  (j < cn_length table)%nat →
  totals !! j
  = Some (default 0 (leafWeights samples info invertCallstack !! j)
          + totalOfChildren table totals (Z.of_nat j)).
Proof.
  intros table totals Hwf Hs Hmag Hj. subst table totals.
  set (table := callNodeTable info) in *.
  pose proof (totals_loop_totals table (leafWeights samples info invertCallstack)
                (cn_length table)
                (mkTotals (zeros (cn_length table)) (zeros (cn_length table)) 0 0)
                Hwf ltac:(lia) (length_zeros _)
                (totals_loop_start samples info invertCallstack _ Hs Hmag) j Hj) as H.
  cbv zeta in H. unfold table in H. rewrite <- accumulatedTotals_loop in H.
  fold table in H.
  set (totals := accumulatedTotals samples info invertCallstack) in *.
  simpl (ts_total (mkTotals _ _ _ _)) in H.
  unfold zeros in H at 1. rewrite lookup_replicate_2 in H by done.
  destruct (Nat.ltb_spec j (cn_length table)); [|lia].
  assert (Hlen : length totals = cn_length table).
  { unfold totals. rewrite accumulatedTotals_loop.
    rewrite (proj1 (totals_loop_lengths _ _ _ _)). apply length_zeros. }
  destruct (lookup_lt_is_Some_2 totals j) as [x Hx]; [lia|].
  rewrite Hx in H |- *. simpl in H. f_equal. unfold totalOfChildren. lia.
Qed.

Lemma total_is_leaf_plus_children_witness :
  table_wfb (callNodeTable DiffScenario.info) = true
  ∧ samples_wfb DiffScenario.samples DiffScenario.info = true
  ∧ magnitudeOfNonNullStacks DiffScenario.samples ≤ 2 ^ 24
  ∧ (0 < cn_length (callNodeTable DiffScenario.info))%nat
  ∧ accumulatedTotals DiffScenario.samples DiffScenario.info false !! 0%nat
    = Some (default 0 (leafWeights DiffScenario.samples DiffScenario.info false !! 0%nat)
            + totalOfChildren (callNodeTable DiffScenario.info)
                (accumulatedTotals DiffScenario.samples DiffScenario.info false) 0).
Proof.
  assert (Hwf : table_wfb (callNodeTable DiffScenario.info) = true) by reflexivity.
  assert (Hs : samples_wfb DiffScenario.samples DiffScenario.info = true) by reflexivity.
  assert (Hmag : magnitudeOfNonNullStacks DiffScenario.samples ≤ 2 ^ 24)
    by (vm_compute; discriminate).
  assert (Hn : (0 < cn_length (callNodeTable DiffScenario.info))%nat)
    by (vm_compute; lia).
  split; [exact Hwf|]. split; [exact Hs|]. split; [exact Hmag|]. split; [exact Hn|].
  exact (total_is_leaf_plus_children DiffScenario.samples DiffScenario.info false 0
           Hwf Hs Hmag Hn).
Defined.

Lemma sumZ_take_pointwise (a b : list Z) (p w : Z) (k : nat) :
  (k ≤ length a)%nat → (k ≤ length b)%nat →
  (∀ j, (j < k)%nat →
     default 0 (b !! j)
     = default 0 (a !! j) + (if bool_decide (p = Z.of_nat j) then w else 0)) →
  sumZ (take k b)
  = sumZ (take k a) + (if bool_decide (0 ≤ p < Z.of_nat k) then w else 0).
Proof.
  induction k as [|k IH]; intros Ha Hb Hpt.
  - rewrite bool_decide_eq_false_2 by lia. unfold sumZ. simpl. lia.
  - destruct (lookup_lt_is_Some_2 a k) as [x Hx]; [lia|].
    destruct (lookup_lt_is_Some_2 b k) as [y Hy]; [lia|].
    rewrite (take_S_r _ _ _ Hx), (take_S_r _ _ _ Hy), !sumZ_app.
    rewrite IH by (try lia; intros j Hj; apply Hpt; lia).
    specialize (Hpt k ltac:(lia)). rewrite Hx, Hy in Hpt. simpl in Hpt.
    unfold sumZ. simpl. repeat case_bool_decide; lia.
Qed.

Lemma totals_loop_roots table leaf k st :
  table_wfb table = true → (k ≤ cn_length table)%nat →
  length (ts_total st) = cn_length table → (k ≤ length leaf)%nat →
  sumZ (Z.abs <$> take k (ts_total st)) + sumZ (Z.abs <$> take k leaf) ≤ 2 ^ 24 →
  let fin := totals_loop table leaf k st in
  sumZ ((λ c : nat, default 0 (ts_total fin !! c))
          <$> List.filter (λ c, prefix_at table c =? -1) (seq 0 k))
  = sumZ (take k (ts_total st)) + sumZ (take k leaf).
Proof.
  intros Hwf. revert st. induction k as [|k IH]; intros st Hk Hlen Hleaf Hb fin.
  - unfold sumZ. simpl. lia.
  - subst fin. simpl totals_loop.
    set (st' := totals_step table leaf k st).
    assert (Hlen' : length (ts_total st') = cn_length table).
    { unfold st'. by rewrite (proj1 (totals_step_lengths table leaf k st)). }
    destruct (lookup_lt_is_Some_2 (cn_prefix table) k) as [p Hp];
      [unfold cn_length in Hk; lia|].
    pose proof (table_wfb_lookup _ _ _ Hwf Hp) as Hpr.
    destruct (totals_step_total table leaf k st p Hp Hpr ltac:(lia) Hb)
      as [Hpoint Hpot]. fold st' in Hpoint, Hpot.
    specialize (IH st' ltac:(lia) Hlen' ltac:(lia) ltac:(lia)). cbv zeta in IH.
    destruct (totals_loop_frozen table leaf k st' k Hwf ltac:(lia) ltac:(lia))
      as [Hfrozen _]. cbv zeta in Hfrozen.
    rewrite seq_S, List.filter_app, fmap_app, sumZ_app. simpl (0 + k)%nat.
    rewrite filter_singleton. unfold prefix_at at 2. rewrite Hp. simpl (default _ (Some p)).
    rewrite IH.
    assert (Hlast : sumZ ((λ c : nat, default 0 (ts_total (totals_loop table leaf k st') !! c))
                            <$> (if p =? -1 then [k] else []))
                    = if p =? -1 then default 0 (ts_total st' !! k) else 0).
    { destruct (p =? -1); [|done]. csimpl. rewrite Hfrozen. unfold sumZ. simpl. lia. }
    rewrite Hlast. clear Hlast.
    pose proof (Hpoint k ltac:(lia)) as Hk'.
    rewrite bool_decide_eq_true_2 in Hk' by done.
    rewrite (sumZ_take_pointwise (ts_total st) (ts_total st') p
               (default 0 (ts_total st' !! k)) k); [|lia|lia|].
    + destruct (lookup_lt_is_Some_2 (ts_total st) k) as [x Hx]; [lia|].
      destruct (lookup_lt_is_Some_2 leaf k) as [y Hy]; [lia|].
      rewrite (take_S_r _ _ _ Hx), (take_S_r _ _ _ Hy), !sumZ_app.
      rewrite Hx, Hy in Hk'. simpl in Hk'.
      destruct (Z.eqb_spec p (-1)); case_bool_decide; try lia;
        unfold sumZ; csimpl; lia.
    + intros j Hj.
      pose proof (Hpoint j ltac:(lia)) as Hj'.
      rewrite bool_decide_eq_false_2 in Hj' by lia. done.
Qed.

(** X8: for whole-number weights whose absolute values add up to at most
    [2 ^ 24], when the reverse loop of [computeCallTreeCountsAndSummary]
    ends the totals of the roots add up to the sum of the leaf weights,
    which is the weight of all the samples that have a stack. *)
Theorem root_totals_sum_to_sample_weight samples info invertCallstack :
  let table := callNodeTable info in
  let totals := accumulatedTotals samples info invertCallstack in
  table_wfb table = true →
  samples_wfb samples info = true →
  magnitudeOfNonNullStacks samples ≤ 2 ^ 24 →
  totalOfChildren table totals (-1) = sumZ (leafWeights samples info invertCallstack)
  ∧ totalOfChildren table totals (-1) = weightOfNonNullStacks samples.
Proof.
  intros table totals Hwf Hs Hmag. subst table totals.
  set (table := callNodeTable info) in *.
  assert (H : totalOfChildren table (accumulatedTotals samples info invertCallstack) (-1)
              = sumZ (leafWeights samples info invertCallstack)).
  { pose proof (leafWeights_length samples info invertCallstack) as Hlen.
    pose proof (totals_loop_roots table (leafWeights samples info invertCallstack)
                  (cn_length table)
                  (mkTotals (zeros (cn_length table)) (zeros (cn_length table)) 0 0)
                  Hwf ltac:(lia) (length_zeros _) ltac:(fold table in Hlen; lia)
                  (totals_loop_start samples info invertCallstack _ Hs Hmag)) as H.
    cbv zeta in H. unfold table in H. rewrite <- accumulatedTotals_loop in H.
    fold table in H.
    unfold totalOfChildren. rewrite H. simpl (ts_total (mkTotals _ _ _ _)).
    rewrite take_ge by (rewrite length_zeros; lia).
    rewrite take_ge by (fold table in Hlen; lia).
    rewrite sumZ_zeros. lia. }
  split; [done|]. rewrite H. by apply leafWeights_sum.
Qed.

Lemma root_totals_sum_to_sample_weight_witness :
  table_wfb (callNodeTable DiffScenario.info) = true
  ∧ samples_wfb DiffScenario.samples DiffScenario.info = true
  ∧ magnitudeOfNonNullStacks DiffScenario.samples ≤ 2 ^ 24
  ∧ totalOfChildren (callNodeTable DiffScenario.info)
      (accumulatedTotals DiffScenario.samples DiffScenario.info true) (-1)
    = weightOfNonNullStacks DiffScenario.samples.
Proof.
  assert (Hwf : table_wfb (callNodeTable DiffScenario.info) = true) by reflexivity.
  assert (Hs : samples_wfb DiffScenario.samples DiffScenario.info = true) by reflexivity.
  assert (Hmag : magnitudeOfNonNullStacks DiffScenario.samples ≤ 2 ^ 24)
    by (vm_compute; discriminate).
  split; [exact Hwf|]. split; [exact Hs|]. split; [exact Hmag|].
  exact (proj2 (root_totals_sum_to_sample_weight DiffScenario.samples DiffScenario.info
                  true Hwf Hs Hmag)).
Defined.

(** * Traced timing *)

Lemma traced_step_totals table leaf k st :
  traced_step table leaf k (ts_total st, ts_childCount st)
  = (ts_total (totals_step table leaf k st), ts_childCount (totals_step table leaf k st)).
Proof.
  unfold traced_step, totals_step. cbv zeta. simpl.
  destruct (negb (negb _) && negb (negb _)); [done|].
  by destruct (prefix_at table k =? -1).
Qed.

Lemma traced_loop_totals table leaf k st :
  traced_loop table leaf k (ts_total st, ts_childCount st)
  = (ts_total (totals_loop table leaf k st), ts_childCount (totals_loop table leaf k st)).
Proof.
  revert st. induction k as [|k IH]; intros st; simpl; [done|].
  by rewrite traced_step_totals, IH.
Qed.

Lemma computeTracedTiming_weighted samples info interval invertCallstack :
  tsm_weightType samples = Some "samples"%string →
  s_weight (tsm_table samples) = None →
  computeTracedTiming samples info interval invertCallstack
  = Some (mkTracedTiming
            (self (callNodeSummary
                     (computeCallTreeCountsAndSummary (samplesWithWeight samples interval)
                        info interval invertCallstack)))
            (accumulatedTotals (samplesWithWeight samples interval) info invertCallstack)).
Proof.
  intros Htype Hnw. unfold computeTracedTiming. rewrite Hnw.
  rewrite (bool_decide_eq_false_2 (is_Some None)) by (by intros [? ?]).
  rewrite bool_decide_eq_true_2 by done. simpl negb. cbv iota zeta.
  f_equal. f_equal.
  unfold accumulatedTotals. cbv zeta.
  change (s_stack (samplesWithWeight samples interval))
    with (s_stack (tsm_table samples)).
  set (leaf := callNodeLeaf _).
  change (zeros (cn_length (callNodeTable info)), zeros (cn_length (callNodeTable info)))
    with (ts_total (mkTotals (zeros (cn_length (callNodeTable info)))
                      (zeros (cn_length (callNodeTable info))) 0 0),
          ts_childCount (mkTotals (zeros (cn_length (callNodeTable info)))
                      (zeros (cn_length (callNodeTable info))) 0 0)).
  by rewrite traced_loop_totals.
Qed.

(** X9: [computeTracedTiming] answers [null] unless the weight type is
    ["samples"] and the table has no weight column; otherwise its [self] and
    [running] arrays are the self weights and the totals (before the snap of
    the first total) that [computeCallTreeCountsAndSummary] computes for the
    same table weighted by the time from each sample to the next. *)
Theorem traced_timing_is_summary_of_durations samples info interval invertCallstack :
  computeTracedTiming samples info interval invertCallstack
  = if bool_decide (tsm_weightType samples = Some "samples"%string
                    ∧ s_weight (tsm_table samples) = None)
    then
      let weighted := samplesWithWeight samples interval in
      Some (mkTracedTiming
              (self (callNodeSummary
                       (computeCallTreeCountsAndSummary weighted info interval
                          invertCallstack)))
              (accumulatedTotals weighted info invertCallstack))
    else None.
Proof.
  case_bool_decide as H.
  - destruct H as [Htype Hnw]. by apply computeTracedTiming_weighted.
  - unfold computeTracedTiming.
    destruct (s_weight (tsm_table samples)) as [w|] eqn:Ew.
    + rewrite (bool_decide_eq_true_2 (is_Some (Some w))) by eauto.
      by rewrite orb_true_r.
    + rewrite bool_decide_eq_false_2; [done|]. intros Hw. by destruct H.
Qed.

Lemma selfWeights_sum samples info interval invertCallstack :
  samples_wfb samples info = true → table_wfb (callNodeTable info) = true →
  magnitudeOfNonNullStacks samples ≤ 2 ^ 24 →
  sumZ (self (callNodeSummary
                (computeCallTreeCountsAndSummary samples info interval invertCallstack)))
  = weightOfNonNullStacks samples.
Proof.
  intros Hs Hwf Hmag. destruct invertCallstack.
  - pose proof (sample_entries_in_range _ _ Hs) as Hrange.
    pose proof (zeros_entries_magnitude samples info (cn_length (callNodeTable info))
                  Hs Hmag) as Hzero.
    rewrite <- (sample_entries_weight _ _ Hs).
    unfold computeCallTreeCountsAndSummary. simpl. unfold _getInvertedStackSelf.
    destruct (invertedSelf_fold samples (callNodeTable info)
                (computeCallNodeToRoot (callNodeTable info))
                (imap pair (getSampleIndexToCallNodeIndex (s_stack samples)
                              (stackIndexToCallNodeIndex info)))
                (mkStackSelf (zeros (cn_length (callNodeTable info)))
                             (zeros (cn_length (callNodeTable info)))))
      as (_ & _ & Hsum & _ & _); simpl; try apply length_zeros; try done.
    { intros c Hc. by apply computeCallNodeToRoot_roots. }
    rewrite Hsum. simpl. rewrite sumZ_zeros. lia.
  - rewrite <- (leafWeights_sum samples info false Hs Hmag). done.
Qed.

Lemma sumZ_differences (time : list Z) (m : nat) :
  sumZ ((λ i, default 0 (time !! S i) - default 0 (time !! i)) <$> seq 0 m)
  = default 0 (time !! m) - default 0 (time !! 0%nat).
Proof.
  induction m as [|m IH].
  - unfold sumZ. simpl. lia.
  - rewrite seq_S, fmap_app, sumZ_app, IH. unfold sumZ. simpl. lia.
Qed.

Lemma length_tracedWeights samples interval :
  length (tracedWeights samples interval) = s_length (tsm_table samples).
Proof.
  unfold tracedWeights. cbv zeta. rewrite length_app, length_fmap, length_seq.
  destruct (Nat.ltb_spec 0 (s_length (tsm_table samples))); simpl; lia.
Qed.

(** While the steps of the [time] column stay within 53 bits no subtraction
    is rounded: the durations are the steps, followed by the interval. *)
Lemma tracedWeights_exact samples interval :
  elapsed_magnitude samples interval ≤ 2 ^ 24 →
  tracedWeights samples interval
  = timeSteps samples
    ++ (if (0 <? s_length (tsm_table samples))%nat then [interval] else []).
Proof.
  intros Hb. unfold tracedWeights, timeSteps. cbv zeta. f_equal.
  apply list_eq. intros i. rewrite !list_lookup_fmap.
  destruct (seq 0 (s_length (tsm_table samples) - 1) !! i) as [j|] eqn:E; [|done].
  simpl. f_equal. apply to_float64_small.
  assert (Hi : timeSteps samples !! i
               = Some (default 0 (tsm_time samples !! S j)
                       - default 0 (tsm_time samples !! j))).
  { unfold timeSteps. by rewrite list_lookup_fmap, E. }
  pose proof (sumZ_abs_lookup _ _ _ Hi) as Hle.
  unfold elapsed_magnitude in Hb. lia.
Qed.

Lemma weightOfNonNullStacks_all stacks w :
  Forall is_Some stacks → length w = length stacks →
  weightOfNonNullStacks (mkSamples stacks (Some w)) = sumZ w
  ∧ magnitudeOfNonNullStacks (mkSamples stacks (Some w)) = sumZ (Z.abs <$> w).
Proof.
  intros Hall Hlen. unfold weightOfNonNullStacks, magnitudeOfNonNullStacks.
  split; f_equal; simpl; apply list_eq; intros i;
    rewrite ?list_lookup_fmap, list_lookup_imap;
    (destruct (stacks !! i) as [stack|] eqn:E; simpl;
     [destruct (lookup_lt_is_Some_2 w i) as [x Hx];
        [rewrite Hlen; by eapply lookup_lt_Some|];
      rewrite Forall_lookup in Hall; destruct (Hall i stack E) as [s ->];
      unfold sample_weight; simpl; by rewrite Hx
     |apply lookup_ge_None in E;
      rewrite (proj2 (lookup_ge_None w i)) by lia; done]).
Qed.

(** X10: for a table without weights whose samples all have a stack and
    whose sample times are whole numbers with steps that add up, with the
    interval, to at most [2 ^ 24] in absolute value, the self times of the
    traced timing add up to the time from the first sample to the last one
    plus the interval. *)
Theorem traced_self_time_is_elapsed_time samples info interval invertCallstack :
  tsm_weightType samples = Some "samples"%string →
  s_weight (tsm_table samples) = None →
  samples_wfb (tsm_table samples) info = true →
  table_wfb (callNodeTable info) = true →
  Forall is_Some (s_stack (tsm_table samples)) →
  length (tsm_time samples) = s_length (tsm_table samples) →
  (0 < s_length (tsm_table samples))%nat →
  elapsed_magnitude samples interval ≤ 2 ^ 24 →
  ∃ tracedTiming,
    computeTracedTiming samples info interval invertCallstack = Some tracedTiming
    ∧ sumZ (tt_self tracedTiming)
      = default 0 (last (tsm_time samples)) - default 0 (head (tsm_time samples))
        + interval.
Proof.
  intros Htype Hnw Hs Hwf Hall Htime Hpos Hb.
  rewrite (computeTracedTiming_weighted _ _ _ _ Htype Hnw).
  eexists. split; [done|]. cbn [tt_self].
  assert (Hs' : samples_wfb (samplesWithWeight samples interval) info = true).
  { unfold samples_wfb in Hs |- *. rewrite Hnw in Hs. simpl in Hs |- *.
    rewrite Hs, andb_true_r. apply bool_decide_eq_true.
    apply length_tracedWeights. }
  destruct (weightOfNonNullStacks_all (s_stack (tsm_table samples))
              (tracedWeights samples interval) Hall (length_tracedWeights _ _))
    as [Hweight Hmag].
  fold (samplesWithWeight samples interval) in Hweight, Hmag.
  rewrite (tracedWeights_exact _ _ Hb) in Hweight, Hmag.
  destruct (Nat.ltb_spec 0 (s_length (tsm_table samples))); [|lia].
  rewrite selfWeights_sum; [|done|done|].
  - rewrite Hweight. unfold timeSteps. rewrite sumZ_app, sumZ_differences.
    rewrite last_lookup, head_lookup, Htime.
    replace (Init.Nat.pred (s_length (tsm_table samples)))
      with (s_length (tsm_table samples) - 1)%nat by lia.
    unfold sumZ. simpl. lia.
  - rewrite Hmag, fmap_app, sumZ_app. unfold elapsed_magnitude in Hb.
    unfold sumZ at 2. simpl. lia.
Qed.

Lemma traced_self_time_is_elapsed_time_witness :
  tsm_weightType timedScenario = Some "samples"%string
  ∧ samples_wfb (tsm_table timedScenario) Scenario.info = true
  ∧ table_wfb (callNodeTable Scenario.info) = true
  ∧ elapsed_magnitude timedScenario 1 ≤ 2 ^ 24
  ∧ ∃ tracedTiming,
      computeTracedTiming timedScenario Scenario.info 1 false = Some tracedTiming
      ∧ sumZ (tt_self tracedTiming) = 17 - 10 + 1.
Proof.
  assert (Hall : Forall is_Some (s_stack (tsm_table timedScenario))).
  { repeat constructor; eexists; reflexivity. }
  assert (Hb : elapsed_magnitude timedScenario 1 ≤ 2 ^ 24) by (vm_compute; discriminate).
  split; [reflexivity|]. split; [reflexivity|]. split; [reflexivity|].
  split; [exact Hb|].
  apply (traced_self_time_is_elapsed_time timedScenario Scenario.info 1 false
           eq_refl eq_refl eq_refl eq_refl Hall eq_refl); [vm_compute; lia|exact Hb].
Defined.

(** * The table of the summary strategy *)

Section Extract_facts.
Context (hasMemoryAddress : SamplesLikeTable → bool).
Context (filterToRetainedAllocations filterToAllocations : SamplesLikeTable → SamplesLikeTable).
Context (filterToDeallocationsSites filterToDeallocationsMemory :
           SamplesLikeTable → SamplesLikeTable).

Local Abbreviation extractSamplesLikeTable' :=
  (extractSamplesLikeTable hasMemoryAddress filterToRetainedAllocations
     filterToAllocations filterToDeallocationsSites filterToDeallocationsMemory).

(** X11: with the strategy that [getCallTreeSummaryStrategy] selects,
    [extractSamplesLikeTable] never meets a table that does not exist, and
    it returns a table whenever the native allocation table (if there is
    one) has its memory addresses; called with ["js-allocations"] on a
    thread without that table, it throws. *)
Theorem extract_with_selected_strategy (thread : Thread) :
  (∀ lastSelected,
     extractSamplesLikeTable' thread (getCallTreeSummaryStrategy thread lastSelected)
     ≠ inl table_does_not_exist)
  ∧ (∀ lastSelected,
       (∀ nativeAllocations,
          th_nativeAllocations thread = Some nativeAllocations →
          hasMemoryAddress nativeAllocations = true) →
       ∃ table,
         extractSamplesLikeTable' thread (getCallTreeSummaryStrategy thread lastSelected)
         = inr table)
  ∧ (th_jsAllocations thread = None →
     extractSamplesLikeTable' thread js_allocations = inl table_does_not_exist).
Proof.
  split_and!.
  - intros lastSelected.
    destruct lastSelected; unfold getCallTreeSummaryStrategy;
      destruct (th_jsAllocations thread) eqn:Ej;
      destruct (th_nativeAllocations thread) as [na|] eqn:En; simpl;
      rewrite ?Ej, ?En, ?andb_false_r; simpl; try done;
      try (destruct (_ && _); simpl; by rewrite ?En);
      try (by destruct (negb (hasMemoryAddress na))).
  - intros lastSelected Hmem.
    destruct lastSelected; unfold getCallTreeSummaryStrategy;
      destruct (th_jsAllocations thread) eqn:Ej;
      destruct (th_nativeAllocations thread) as [na|] eqn:En; simpl;
      rewrite ?Ej, ?En, ?andb_false_r; simpl; eauto;
      try (destruct (_ && _); simpl; rewrite ?En; simpl; by eauto);
      try (rewrite (Hmem na eq_refl); simpl; by eauto).
  - intros Ej. simpl. by rewrite Ej.
Qed.

End Extract_facts.

Lemma extract_with_selected_strategy_witness :
  (∀ nativeAllocations,
     th_nativeAllocations allocationsOnlyThread = Some nativeAllocations →
     (λ _, true) nativeAllocations = true)
  ∧ th_jsAllocations allocationsOnlyThread = None
  ∧ (∃ table,
       extractSamplesLikeTable (λ _, true) id id id id allocationsOnlyThread
         (getCallTreeSummaryStrategy allocationsOnlyThread timing) = inr table)
  ∧ extractSamplesLikeTable (λ _, true) id id id id allocationsOnlyThread js_allocations
    = inl table_does_not_exist.
Proof.
  assert (Hmem : ∀ nativeAllocations,
            th_nativeAllocations allocationsOnlyThread = Some nativeAllocations →
            (λ _ : SamplesLikeTable, true) nativeAllocations = true) by reflexivity.
  destruct (extract_with_selected_strategy (λ _, true) id id id id allocationsOnlyThread)
    as (_ & H2 & H3).
  split; [exact Hmem|]. split; [reflexivity|].
  split; [exact (H2 timing Hmem)|exact (H3 eq_refl)].
Defined.

(** * Call node paths and the implementation filter *)

Lemma filterM_app {A} (f : A → option bool) (l1 l2 : list A) :
  filterM f (l1 ++ l2)
  = r1 ← filterM f l1; r2 ← filterM f l2; Some (r1 ++ r2).
Proof.
  induction l1 as [|x l1 IH]; simpl.
  - by destruct (filterM f l2).
  - destruct (f x) as [b|]; simpl; [|done]. rewrite IH.
    destruct (filterM f l1) as [r1|]; simpl; [|done].
    destruct (filterM f l2) as [r2|]; simpl; [|done]. by destruct b.
Qed.

Lemma filterM_spec {A} (f : A → option bool) (l r : list A) :
  filterM f l = Some r →
  sublist r l ∧ Forall (λ x, f x = Some true) r
  ∧ (length r = length l → r = l).
Proof.
  revert r. induction l as [|x l IH]; intros r; simpl.
  - intros [= <-]. split_and!; [done|constructor|done].
  - destruct (f x) as [b|] eqn:Eb; simpl; [|done].
    destruct (filterM f l) as [r'|]; simpl; [|done]. intros [= <-].
    destruct (IH r' eq_refl) as (Hsub & Hall & Hlen).
    pose proof (sublist_length _ _ Hsub) as Hle.
    destruct b.
    + split_and!; [by constructor|by constructor|].
      simpl. intros Hl. f_equal. apply Hlen. lia.
    + split_and!; [by constructor|done|]. simpl. lia.
Qed.

Lemma filterM_all {A} (f : A → option bool) (l : list A) :
  Forall (λ x, f x = Some true) l → filterM f l = Some l.
Proof.
  induction 1 as [|x l Hx _ IH]; simpl; [done|]. by rewrite Hx, IH.
Qed.

Lemma filterM_id_all {A} (f : A → option bool) (l : list A) :
  filterM f l = Some l → Forall (λ x, f x = Some true) l.
Proof. intros H. by apply filterM_spec in H as (_ & H & _). Qed.

Lemma filterM_filter {A} (f : A → option bool) (l r : list A) :
  filterM f l = Some r → r = filter (λ x, f x = Some true) l.
Proof.
  revert r. induction l as [|x l IH]; intros r; simpl.
  - by intros [= <-].
  - destruct (f x) as [b|] eqn:Eb; simpl; [|done].
    destruct (filterM f l) as [r'|]; simpl; [|done]. intros [= <-].
    rewrite (IH r' eq_refl). destruct b.
    + by rewrite filter_cons_True.
    + by rewrite filter_cons_False by congruence.
Qed.

Lemma filterM_total {A} (f : A → option bool) (l : list A) :
  (∀ x, is_Some (f x)) → is_Some (filterM f l).
Proof.
  intros Hf. induction l as [|x l [r Hr]]; simpl; [by eexists|].
  destruct (Hf x) as [b ->]. simpl. rewrite Hr. simpl. by eexists.
Qed.

(** X12: [filterCallNodePathByImplementation] keeps the funcs of the path
    that match the implementation and no other, in their order: its result
    is the path without the funcs that do not match.  So it is a sublist of
    the path whose funcs all match, filtering the result again changes
    nothing, and the filter ["combined"] returns the path itself.  The
    filters ["combined"] and ["js"] return for every path. *)
Theorem filter_path_by_implementation (thread : Thread) (tables : PathTables)
    (implementation : ImplementationFilter) (path : CallNodePath) :
  filterCallNodePathByImplementation thread tables combined path = Some path
  ∧ is_Some (filterCallNodePathByImplementation thread tables js path)
  ∧ ∀ result,
      filterCallNodePathByImplementation thread tables implementation path = Some result →
      result
      = filter (λ f, FUNC_MATCHES implementation thread tables f = Some true) path
      ∧ sublist result path
      ∧ Forall (λ f, FUNC_MATCHES implementation thread tables f = Some true) result
      ∧ filterCallNodePathByImplementation thread tables implementation result
        = Some result.
Proof.
  split_and!.
  - apply filterM_all. by apply Forall_forall.
  - apply filterM_total. intros f. by eexists.
  - intros result Hr. pose proof (filterM_filter _ _ _ Hr) as Hfilter.
    apply filterM_spec in Hr as (Hsub & Hall & _).
    split_and!; [done|done|done|]. by apply filterM_all.
Qed.

Lemma filter_path_by_implementation_witness :
  filterCallNodePathByImplementation MixedStacks.thread MixedStacks.tables js
    [1; 0; 1]%nat = Some [0%nat]
  ∧ [0%nat]
    = filter (λ f, FUNC_MATCHES js MixedStacks.thread MixedStacks.tables f = Some true)
        [1; 0; 1]%nat
  ∧ filterCallNodePathByImplementation MixedStacks.thread MixedStacks.tables js [0%nat]
    = Some [0%nat].
Proof.
  assert (H : filterCallNodePathByImplementation MixedStacks.thread MixedStacks.tables js
                [1; 0; 1]%nat = Some [0%nat]) by reflexivity.
  destruct (proj2 (proj2 (filter_path_by_implementation MixedStacks.thread
                            MixedStacks.tables js [1; 0; 1]%nat)) _ H)
    as (H1 & _ & _ & H4).
  split; [exact H|]. split; [exact H1|exact H4].
Defined.

Lemma filterM_fmap {A B} (g : A → B) (f : B → option bool) (l : list A) :
  (λ r : list A, g <$> r) <$> filterM (λ x, f (g x)) l = filterM f (g <$> l).
Proof.
  induction l as [|x l IH]; [done|]. rewrite fmap_cons. simpl.
  destruct (f (g x)) as [b|]; simpl; [|done]. rewrite <- IH.
  destruct (filterM (λ x, f (g x)) l) as [r|]; simpl; [|done]. by destruct b.
Qed.

(** X28: [filterCallNodeAndCategoryPathByImplementation] keeps the entries
    of the path whose funcs [filterCallNodePathByImplementation] keeps: the
    funcs of its result are the result of that filter on the funcs of the
    path, the categories stay with their funcs, and it throws when that
    filter throws. *)
Theorem filter_path_with_categories (thread : Thread) (tables : PathTables)
    (implementation : ImplementationFilter) (path : list (nat * nat)) :
  (λ result : list (nat * nat), fst <$> result)
    <$> filterCallNodeAndCategoryPathByImplementation thread tables implementation path
  = filterCallNodePathByImplementation thread tables implementation (fst <$> path)
  ∧ ∀ result,
      filterCallNodeAndCategoryPathByImplementation thread tables implementation path
      = Some result →
      sublist result path.
Proof.
  split.
  - unfold filterCallNodeAndCategoryPathByImplementation,
      filterCallNodePathByImplementation.
    apply (filterM_fmap fst (FUNC_MATCHES implementation thread tables)).
  - intros result Hr. by apply filterM_spec in Hr as [Hsub _].
Qed.

Lemma filter_path_with_categories_witness :
  filterCallNodeAndCategoryPathByImplementation MixedStacks.thread MixedStacks.tables js
    [(1, 5); (0, 6)]%nat = Some [(0, 6)]%nat
  ∧ sublist [(0, 6)]%nat [(1, 5); (0, 6)]%nat.
Proof.
  assert (H : filterCallNodeAndCategoryPathByImplementation MixedStacks.thread
                MixedStacks.tables js [(1, 5); (0, 6)]%nat = Some [(0, 6)]%nat)
    by reflexivity.
  split; [exact H|].
  exact (proj2 (filter_path_with_categories MixedStacks.thread MixedStacks.tables js
                  [(1, 5); (0, 6)]%nat) _ H).
Defined.

(** ** Restoring the funcs that a filter removed *)

Section Restore.
Context (funcMatches : nat → option bool) (tables : PathTables) (path : CallNodePath).

Local Abbreviation restores' := (restores funcMatches path).

Lemma restores_filter P k :
  restores' P k →
  (k ≤ length path)%nat
  ∧ sublist (take k path) P
  ∧ (Forall (λ f, funcMatches f = Some true) path →
     filterM funcMatches P = Some (take k path)).
Proof.
  induction 1 as [|P k f _ (Hk & Hsub & Hfil) Hf|P k f _ (Hk & Hsub & Hfil) Hf].
  - split_and!; [lia|by rewrite take_0|by rewrite take_0].
  - pose proof (lookup_lt_Some _ _ _ Hf) as Hlt.
    rewrite (take_S_r _ _ _ Hf). split_and!; [lia|by apply sublist_app|].
    intros Hall. rewrite filterM_app, (Hfil Hall). simpl.
    rewrite Forall_lookup in Hall. by rewrite (Hall k f Hf).
  - split_and!; [done|by apply sublist_inserts_r|].
    intros Hall. rewrite filterM_app, (Hfil Hall). simpl. rewrite Hf. simpl.
    by rewrite app_nil_r.
Qed.

Local Abbreviation scan_inv' := (scan_inv funcMatches tables path).

Lemma restore_step_inv matches s :
  scan_inv' matches s →
  match restore_step funcMatches tables path matches s with
  | scan_continue matches' => scan_inv' matches' (S s)
  | scan_tip tip =>
      tip = s ∧ ∃ P, stackPath tables s P ∧ restores' P (length path) ∧ path ≠ []
  | scan_fail => True
  end.
Proof.
  intros Hinv.
  assert (Hmono : scan_inv' matches (S s)).
  { intros i d Hi. destruct (Hinv i d Hi) as [Hlt H]. split; [lia|done]. }
  assert (Hins : ∀ v, (∀ d, v = depth d →
                         ∃ P k, d = Z.of_nat k - 1 ∧ stackPath tables s P ∧ restores' P k) →
                 scan_inv' (<[s := v]> matches) (S s)).
  { intros v Hv i d Hi. destruct (decide (i = s)) as [->|Hne].
    - rewrite lookup_insert_eq in Hi. injection Hi as ->. split; [lia|by apply Hv].
    - rewrite lookup_insert_ne in Hi by done. by apply Hmono. }
  unfold restore_step.
  destruct (stackTable_prefix tables !! s) as [prefix|] eqn:Ep; [|done].
  destruct (funcOfStack tables s) as [f|] eqn:Ef; [|done].
  (* what is known of the prefix: a path [P0] and a number [k] of matched funcs *)
  assert (Hpre : ∀ d,
            match prefix with
            | None => depth (-1)
            | Some p => default depth_undefined (matches !! p)
            end = depth d →
            ∃ P0 k, d = Z.of_nat k - 1 ∧ restores' P0 k
                    ∧ ∀ g, funcOfStack tables s = Some g →
                           stackPath tables s (P0 ++ [g])).
  { intros d Hd. destruct prefix as [p|].
    - destruct (matches !! p) as [v|] eqn:Em; simpl in Hd; [|done]. subst v.
      destruct (Hinv p d Em) as (Hlt & P & k & -> & HP & Hres).
      exists P, k. split_and!; [done|done|]. intros g Hg. by econstructor.
    - injection Hd as <-. exists [], 0%nat. split_and!; [done|constructor|].
      intros g Hg. by constructor. }
  set (ppd := match prefix with
              | None => depth (-1)
              | Some p => default depth_undefined (matches !! p)
              end) in *.
  destruct ppd as [| | |d] eqn:Eppd; cbv zeta.
  - (* undefined *)
    simpl. destruct (funcMatches f) as [[|]|]; [| |done];
      apply Hins; by intros d [=].
  - done.
  - (* NaN *)
    simpl. destruct (funcMatches f) as [[|]|]; [| |done];
      apply Hins; by intros d [=].
  - destruct (Hpre d eq_refl) as (P0 & k & -> & Hres & Hsp).
    simpl depth_succ. replace (Z.of_nat k - 1 + 1) with (Z.of_nat k) by lia.
    unfold path_at. destruct (Z.ltb_spec (Z.of_nat k) 0); [lia|]. rewrite Nat2Z.id.
    case_bool_decide as Hmatch.
    + assert (Hres' : restores' (P0 ++ [f]) (S k)) by by constructor.
      case_bool_decide as Htip.
      * split; [done|]. exists (P0 ++ [f]). split; [by apply Hsp|].
        injection Htip as Htip. apply lookup_lt_Some in Hmatch.
        replace (length path) with (S k) by lia. split; [done|].
        intros ->. simpl in Hmatch. lia.
      * apply Hins. intros d [= <-]. exists (P0 ++ [f]), (S k).
        split_and!; [lia|by apply Hsp|done].
    + destruct (funcMatches f) as [[|]|] eqn:Efm; [| |done].
      * apply Hins. by intros d [=].
      * apply Hins. intros d [= <-]. exists (P0 ++ [f]), k.
        split_and!; [done|by apply Hsp|by constructor].
Qed.

Lemma restore_scan_tip len : ∀ s matches tip,
  scan_inv' matches s →
  restore_scan funcMatches tables path (seq s len) matches = Some (Some tip) →
  (tip < s + len)%nat
  ∧ ∃ P, stackPath tables tip P ∧ restores' P (length path) ∧ path ≠ [].
Proof.
  induction len as [|len IH]; intros s matches tip Hinv; simpl; [done|].
  pose proof (restore_step_inv matches s Hinv) as Hstep.
  destruct (restore_step funcMatches tables path matches s) as [m'|t|]; [| |done].
  - intros Hscan. destruct (IH (S s) m' tip Hstep Hscan) as [Hlt H].
    split; [lia|done].
  - intros [= <-]. destruct Hstep as [-> H]. split; [lia|done].
Qed.

Lemma restore_walk_stackPath i P :
  stackPath tables i P →
  ∀ fuel, (i < fuel)%nat → restore_walk fuel tables i = Some (rev P).
Proof.
  induction 1 as [i f Hp Hf|i p f P Hp Hlt Hf _ IH]; intros fuel Hfuel;
    (destruct fuel as [|fuel]; [lia|]); simpl; rewrite Hf, Hp; simpl; [done|].
  rewrite IH by lia. simpl. by rewrite rev_unit.
Qed.

End Restore.

(** X13: when [restoreAllFunctionsInCallNodePath] finds a stack for a path
    whose funcs all pass the previous implementation filter, filtering the
    restored path with that filter gives the path back; the path is not
    empty (an empty path restores to the empty path) and it is a sublist of
    the restored path, which is the list of the funcs of a stack from its
    root. *)
Theorem restore_then_filter_roundtrip (thread : Thread) (tables : PathTables)
    (previousImplementationFilter : ImplementationFilter)
    (callNodePath restored : CallNodePath) :
  restoreAllFunctionsInCallNodePath thread tables previousImplementationFilter
    callNodePath = Some restored →
  restored ≠ [] →
  filterCallNodePathByImplementation thread tables previousImplementationFilter
    callNodePath = Some callNodePath →
  filterCallNodePathByImplementation thread tables previousImplementationFilter
    restored = Some callNodePath
  ∧ callNodePath ≠ []
  ∧ sublist callNodePath restored
  ∧ ∃ tipStackIndex, stackPath tables tipStackIndex restored.
Proof.
  unfold restoreAllFunctionsInCallNodePath. cbv zeta.
  set (fm := FUNC_MATCHES previousImplementationFilter thread tables).
  destruct (restore_scan fm tables callNodePath
              (seq 0 (length (stackTable_prefix tables))) ∅) as [[tip|]|] eqn:Escan;
    cbn -[restore_walk]; [| |done].
  - intros Hwalk Hne Hfil.
    destruct (restore_scan_tip fm tables callNodePath
                (length (stackTable_prefix tables)) 0 ∅ tip)
      as (Hlt & P & HP & Hres & Hp); [|exact Escan|].
    { intros i d Hi. by rewrite lookup_empty in Hi. }
    rewrite (restore_walk_stackPath tables tip P HP) in Hwalk by lia.
    simpl in Hwalk. rewrite rev_involutive in Hwalk. injection Hwalk as <-.
    destruct (restores_filter fm callNodePath P _ Hres) as (_ & Hsub & Hf).
    rewrite firstn_all in Hsub, Hf.
    split_and!; [|done|done|by exists tip].
    apply Hf. by apply filterM_id_all.
  - by intros [= <-].
Qed.

Lemma restore_then_filter_roundtrip_witness :
  restoreAllFunctionsInCallNodePath MixedStacks.thread MixedStacks.tables js [0%nat]
    = Some [1; 0]%nat
  ∧ filterCallNodePathByImplementation MixedStacks.thread MixedStacks.tables js [0%nat]
    = Some [0%nat]
  ∧ filterCallNodePathByImplementation MixedStacks.thread MixedStacks.tables js
      [1; 0]%nat = Some [0%nat].
Proof.
  assert (H1 : restoreAllFunctionsInCallNodePath MixedStacks.thread MixedStacks.tables
                 js [0%nat] = Some [1; 0]%nat) by reflexivity.
  assert (H2 : filterCallNodePathByImplementation MixedStacks.thread MixedStacks.tables
                 js [0%nat] = Some [0%nat]) by reflexivity.
  split; [exact H1|]. split; [exact H2|].
  apply (restore_then_filter_roundtrip MixedStacks.thread MixedStacks.tables js
           [0%nat] [1; 0]%nat H1); [discriminate|exact H2].
Defined.

Section Restore_total.
Context (funcMatches : nat → option bool) (tables : PathTables) (path : CallNodePath).
Hypothesis funcMatches_total : ∀ f, is_Some (funcMatches f).

Lemma restore_scan_total len : ∀ s matches,
  (∀ i, (s ≤ i < s + len)%nat →
     is_Some (stackTable_prefix tables !! i) ∧ is_Some (funcOfStack tables i)) →
  is_Some (restore_scan funcMatches tables path (seq s len) matches).
Proof.
  induction len as [|len IH]; intros s matches Hin; simpl; [by eexists|].
  destruct (Hin s ltac:(lia)) as [[prefix Hp] [f Hf]].
  assert (Hrest : ∀ m, is_Some (restore_scan funcMatches tables path (seq (S s) len) m)).
  { intros m. apply IH. intros i Hi. apply Hin. lia. }
  unfold restore_step. rewrite Hp, Hf.
  destruct (funcMatches_total f) as [b Hb].
  destruct (match prefix with
            | None => depth (-1)
            | Some p => default depth_undefined (matches !! p)
            end); cbv zeta; try apply Hrest;
    repeat case_bool_decide; try apply Hrest; try (by eexists);
    rewrite Hb; destruct b; apply Hrest.
Qed.

End Restore_total.

(** X14: on tables in which every stack has a prefix cell and a func, and
    with a filter that answers for every func (as ["combined"] and ["js"]
    do), [restoreAllFunctionsInCallNodePath] returns a path: its second loop
    reaches a root within the rows of the stack table. *)
Theorem restore_returns_a_path (thread : Thread) (tables : PathTables)
    (previousImplementationFilter : ImplementationFilter) (callNodePath : CallNodePath) :
  (∀ i, (i < length (stackTable_prefix tables))%nat → is_Some (funcOfStack tables i)) →
  (∀ f, is_Some (FUNC_MATCHES previousImplementationFilter thread tables f)) →
  ∃ restored,
    restoreAllFunctionsInCallNodePath thread tables previousImplementationFilter
      callNodePath = Some restored.
Proof.
  intros Hfunc Htotal. unfold restoreAllFunctionsInCallNodePath. cbv zeta.
  set (fm := FUNC_MATCHES previousImplementationFilter thread tables).
  destruct (restore_scan_total fm tables callNodePath Htotal
              (length (stackTable_prefix tables)) 0 ∅) as [tip Escan].
  { intros i Hi. split; [apply lookup_lt_is_Some_2; lia|apply Hfunc; lia]. }
  rewrite Escan. cbn -[restore_walk]. destruct tip as [tip|]; [|by eexists].
  destruct (restore_scan_tip fm tables callNodePath
              (length (stackTable_prefix tables)) 0 ∅ tip)
    as (Hlt & P & HP & _); [|exact Escan|].
  { intros i d Hi. by rewrite lookup_empty in Hi. }
  rewrite (restore_walk_stackPath tables tip P HP) by lia. by eexists.
Qed.

Lemma restore_returns_a_path_witness :
  (∀ i, (i < length (stackTable_prefix MixedStacks.tables))%nat →
        is_Some (funcOfStack MixedStacks.tables i))
  ∧ (∀ f, is_Some (FUNC_MATCHES js MixedStacks.thread MixedStacks.tables f))
  ∧ ∃ restored,
      restoreAllFunctionsInCallNodePath MixedStacks.thread MixedStacks.tables js
        [0; 7]%nat = Some restored.
Proof.
  assert (H1 : ∀ i, (i < length (stackTable_prefix MixedStacks.tables))%nat →
                    is_Some (funcOfStack MixedStacks.tables i)).
  { intros i Hi. simpl in Hi.
    destruct i as [|[|i]]; [by eexists|by eexists|lia]. }
  assert (H2 : ∀ f, is_Some (FUNC_MATCHES js MixedStacks.thread MixedStacks.tables f))
    by (intros f; by eexists).
  split; [exact H1|]. split; [exact H2|].
  exact (restore_returns_a_path MixedStacks.thread MixedStacks.tables js [0; 7]%nat H1 H2).
Defined.

(** * The inverted call node path *)


Section Invert_facts.
Context (getCallNodeIndexFromPath : CallNodePath → CallNodeTable → option nat).
Context (t0 : CallTree).
Hypothesis Hempty : _children t0 = ∅.



End Invert_facts.


(** * Printing a transform stack and parsing it back *)

Lemma index_number_facts z :
  index_in_range z = true →
  (0 <=? z) = true
  ∧ no_sep "-" (pretty z) = true ∧ no_sep "~" (pretty z) = true
  ∧ parseInt (Some (pretty z)) = Some z.
Proof.
  intros Hz. apply andb_true_iff in Hz as [Hz Hlt]. split; [done|].
  apply Z.leb_le in Hz. apply Z.ltb_lt in Hlt.
  rewrite <- (Z2N.id z Hz), pretty_Z_of_N.
  destruct (pretty_N_digits (Z.to_N z)) as (Hall & _ & _).
  split_and!; [by apply all_digits_no_sep..|apply parseInt_pretty; lia].
Qed.

Lemma implementation_no_sep i :
  no_sep "-" (implementation_to_string i) = true
  ∧ no_sep "~" (implementation_to_string i) = true.
Proof. by destruct i. Qed.

Section Stringify_parse.
Context (toValidImplementationFilter : option string → ImplementationFilter).
Context (decodeUintArrayFromUrlComponent : option string → option (list nat)).
Context (encodeUintArrayForUrlComponent : list nat → string).

Local Abbreviation parseTransform' :=
  (parseTransform toValidImplementationFilter decodeUintArrayFromUrlComponent).
Local Abbreviation parse_step' :=
  (parse_step toValidImplementationFilter decodeUintArrayFromUrlComponent).
Local Abbreviation parseTransforms' :=
  (parseTransforms toValidImplementationFilter decodeUintArrayFromUrlComponent).
Local Abbreviation stringifyTransform' :=
  (stringifyTransform encodeUintArrayForUrlComponent).
Local Abbreviation stringifyTransforms' :=
  (stringifyTransforms encodeUintArrayForUrlComponent).

Local Abbreviation printable' :=
  (printable toValidImplementationFilter decodeUintArrayFromUrlComponent
     encodeUintArrayForUrlComponent).

Lemma stringify_parse_entry t :
  printable' t →
  ∃ e, stringifyTransform' t = Some e ∧ no_sep "~" e = true
       ∧ parseTransform' e = Pushed t.
Proof.
  intros [Hvalid Hcodec].
  destruct t as [im path inverted|im path|z|z|z|z|z|r c im|z im|z im];
    simpl in Hvalid, Hcodec;
    unfold implementation_roundtrips, path_roundtrips in Hcodec.
  - destruct (implementation_no_sep im) as [Hid Hit].
    destruct Hcodec as (valid_printed & decode_encode & Hpd & Hpt).
    destruct inverted.
    + exists (String.concat "-" (shortKeyOf focus_subtree ::
                [implementation_to_string im; encodeUintArrayForUrlComponent path;
                 "i"%string])).
      split_and!.
      * unfold stringifyTransform. simpl. by rewrite !string_app_assoc.
      * apply no_sep_tilde_fields. by repeat constructor.
      * rewrite parseTransform_of_fields by (by repeat constructor).
        unfold parseTuple. simpl. by rewrite decode_encode, valid_printed.
    + exists (String.concat "-" (shortKeyOf focus_subtree ::
                [implementation_to_string im; encodeUintArrayForUrlComponent path])).
      split_and!.
      * done.
      * apply no_sep_tilde_fields. by repeat constructor.
      * rewrite parseTransform_of_fields by (by repeat constructor).
        unfold parseTuple. simpl. by rewrite decode_encode, valid_printed.
  - destruct (implementation_no_sep im) as [Hid Hit].
    destruct Hcodec as (valid_printed & decode_encode & Hpd & Hpt).
    exists (String.concat "-" (shortKeyOf merge_call_node ::
              [implementation_to_string im; encodeUintArrayForUrlComponent path])).
    split_and!.
    + done.
    + apply no_sep_tilde_fields. by repeat constructor.
    + rewrite parseTransform_of_fields by (by repeat constructor).
      unfold parseTuple. simpl. by rewrite decode_encode, valid_printed.
  - destruct (index_number_facts z Hvalid) as (Hz & Hd & Ht & Hparse).
    exists (String.concat "-" (shortKeyOf merge_function :: [pretty z])).
    split_and!; [done|apply no_sep_tilde_fields; by repeat constructor|].
    rewrite parseTransform_of_fields by (by repeat constructor).
    unfold parseTuple. simpl. by rewrite Hparse, Hz.
  - destruct (index_number_facts z Hvalid) as (Hz & Hd & Ht & Hparse).
    exists (String.concat "-" (shortKeyOf focus_function :: [pretty z])).
    split_and!; [done|apply no_sep_tilde_fields; by repeat constructor|].
    rewrite parseTransform_of_fields by (by repeat constructor).
    unfold parseTuple. simpl. by rewrite Hparse, Hz.
  - destruct (index_number_facts z Hvalid) as (Hz & Hd & Ht & Hparse).
    exists (String.concat "-" (shortKeyOf drop_function :: [pretty z])).
    split_and!; [done|apply no_sep_tilde_fields; by repeat constructor|].
    rewrite parseTransform_of_fields by (by repeat constructor).
    unfold parseTuple. simpl. by rewrite Hparse, Hz.
  - destruct (index_number_facts z Hvalid) as (Hz & Hd & Ht & Hparse).
    exists (String.concat "-" (shortKeyOf collapse_function_subtree :: [pretty z])).
    split_and!; [done|apply no_sep_tilde_fields; by repeat constructor|].
    rewrite parseTransform_of_fields by (by repeat constructor).
    unfold parseTuple. simpl. by rewrite Hparse, Hz.
  - destruct (index_number_facts z Hvalid) as (Hz & Hd & Ht & Hparse).
    exists (String.concat "-" (shortKeyOf focus_category :: [pretty z])).
    split_and!; [done|apply no_sep_tilde_fields; by repeat constructor|].
    rewrite parseTransform_of_fields by (by repeat constructor).
    unfold parseTuple. simpl. by rewrite Hparse, Hz.
  - apply andb_true_iff in Hvalid as [Hr Hc].
    destruct (index_number_facts r Hr) as (Hr' & Hrd & Hrt & Hrparse).
    destruct (index_number_facts c Hc) as (Hc' & Hcd & Hct & Hcparse).
    destruct (implementation_no_sep im) as [Hid Hit].
    exists (String.concat "-" (shortKeyOf collapse_resource ::
              [implementation_to_string im; pretty r; pretty c])).
    split_and!; [done|apply no_sep_tilde_fields; by repeat constructor|].
    rewrite parseTransform_of_fields by (by repeat constructor).
    unfold parseTuple. simpl. by rewrite Hrparse, Hcparse, Hr', Hcodec.
  - destruct (index_number_facts z Hvalid) as (Hz & Hd & Ht & Hparse).
    destruct (implementation_no_sep im) as [Hid Hit].
    exists (String.concat "-" (shortKeyOf collapse_direct_recursion ::
              [implementation_to_string im; pretty z])).
    split_and!; [done|apply no_sep_tilde_fields; by repeat constructor|].
    rewrite parseTransform_of_fields by (by repeat constructor).
    unfold parseTuple. simpl. rewrite Hparse.
    apply Z.leb_le in Hz. destruct (Z.ltb_spec z 0); [lia|]. by rewrite Hcodec.
  - destruct (index_number_facts z Hvalid) as (Hz & Hd & Ht & Hparse).
    destruct (implementation_no_sep im) as [Hid Hit].
    exists (String.concat "-" (shortKeyOf collapse_indirect_recursion ::
              [implementation_to_string im; pretty z])).
    split_and!; [done|apply no_sep_tilde_fields; by repeat constructor|].
    rewrite parseTransform_of_fields by (by repeat constructor).
    unfold parseTuple. simpl. rewrite Hparse.
    apply Z.leb_le in Hz. destruct (Z.ltb_spec z 0); [lia|]. by rewrite Hcodec.
Qed.

(** X16: a transform stack is printed without an exception and the
    string is parsed back to the same stack, when every index of it is a
    whole number from 0 below [2 ^ 53], the validation accepts the
    implementation tags as they are printed, and the decoder gives its call
    node paths back from their encodings, which hold neither ["-"] nor
    ["~"]. *)
Theorem stringify_parse_roundtrip (transformStack : TransformStack) :
  Forall (printable toValidImplementationFilter decodeUintArrayFromUrlComponent
            encodeUintArrayForUrlComponent) transformStack →
  ∃ s, stringifyTransforms encodeUintArrayForUrlComponent transformStack = Some s
       ∧ parseTransforms toValidImplementationFilter decodeUintArrayFromUrlComponent s
         = Some transformStack.
Proof.
  intros Hvalid.
  assert (H : ∃ es, mapM stringifyTransform' transformStack = Some es
                    ∧ Forall (λ e, no_sep "~" e = true) es
                    ∧ ∀ acc, foldl parse_step' (Some acc) es
                             = Some (acc ++ transformStack)).
  { induction Hvalid as [|t ts Ht _ (es & Hmap & Hsep & Hfold)].
    - exists []. split_and!; [done|done|]. intros acc. by rewrite app_nil_r.
    - destruct (stringify_parse_entry t Ht) as (e & He & Hes & Hparse).
      exists (e :: es). split_and!.
      + simpl. rewrite He. simpl. by rewrite Hmap.
      + by constructor.
      + intros acc. simpl. rewrite Hparse, Hfold. by rewrite <- app_assoc. }
  destruct H as (es & Hmap & Hsep & Hfold).
  exists (String.concat "~" es). split.
  - unfold stringifyTransforms. by rewrite Hmap.
  - rewrite parseTransforms_concat by done. apply Hfold.
Qed.

End Stringify_parse.

Lemma stringify_parse_roundtrip_witness :
  Forall (printable ToyCodec.toValid ToyCodec.decode ToyCodec.encode)
    [FocusSubtree js [3%nat] true; MergeFunction 325; CollapseResource 3 8 cpp]
  ∧ ∃ s, ToyCodec.stringify
           [FocusSubtree js [3%nat] true; MergeFunction 325; CollapseResource 3 8 cpp]
         = Some s
         ∧ ToyCodec.parse s
           = Some [FocusSubtree js [3%nat] true; MergeFunction 325;
                   CollapseResource 3 8 cpp].
Proof.
  assert (H : Forall (printable ToyCodec.toValid ToyCodec.decode ToyCodec.encode)
                [FocusSubtree js [3%nat] true; MergeFunction 325;
                 CollapseResource 3 8 cpp]).
  { repeat constructor. }
  split; [exact H|].
  exact (stringify_parse_roundtrip ToyCodec.toValid ToyCodec.decode ToyCodec.encode _ H).
Defined.

(** * The colors of a comparison *)

Lemma Qle_bool_strict (x c : QArith_base.Q) :
  QArith_base.Qle_bool x c = true → QArith_base.Qeq_bool x c = false →
  QArith_base.Qle_bool c x = false.
Proof.
  intros Hle Hne. apply QArith_base.Qle_bool_iff in Hle.
  apply QArith_base.Qeq_bool_neq in Hne.
  destruct (QArith_base.Qle_bool c x) eqn:E; [|done].
  apply QArith_base.Qle_bool_iff in E. destruct Hne.
  by apply QArith_base.Qle_antisym.
Qed.

Lemma compare_steps_loop_bucket (f : QArith_base.Q) :
  ∃ row,
    COMPARE_STEPS !! compareBucket f = Some row
    ∧ compare_steps_loop f (seq 0 (length COMPARE_STEPS)) = compare_row row.
Proof.
  unfold compareBucket, Qltb. cbv zeta.
  destruct (QArith_base.Qle_bool (QArith_base.inject_Z 20) f) eqn:E20;
    [bucket_row|].
  destruct (QArith_base.Qle_bool (QArith_base.inject_Z 15) f) eqn:E15;
    [bucket_row|].
  destruct (QArith_base.Qle_bool (QArith_base.inject_Z 10) f) eqn:E10;
    [bucket_row|].
  destruct (QArith_base.Qle_bool f (QArith_base.inject_Z 0)) eqn:E0;
    [|bucket_row].
  destruct (QArith_base.Qeq_bool f (QArith_base.inject_Z 0)) eqn:Eeq;
    [bucket_row|].
  pose proof (Qle_bool_strict f (QArith_base.inject_Z 0) E0 Eeq) as Hstrict.
  destruct (QArith_base.Qle_bool f (QArith_base.inject_Z (-10))) eqn:En10;
    [|bucket_row].
  destruct (QArith_base.Qle_bool f (QArith_base.inject_Z (-15))) eqn:En15;
    [|bucket_row].
  destruct (QArith_base.Qle_bool f (QArith_base.inject_Z (-20))) eqn:En20;
    bucket_row.
Qed.

(** X17: on a formatted total time that is a number, the loop of
    [mapTimeToCompareColor] does not fall through to the gray style: it
    returns the row of [COMPARE_STEPS] in whose range the number falls, the
    ranges being bounded by 20, 15, 10, 0, -10, -15 and -20; the values 5
    and -5 of the two rows next to zero play no role.  The number is the
    one the function has computed from the total time, as a double holds
    it; [NaN], on which every comparison of the loop fails, is no number. *)
Theorem compare_color_is_bucket (formatted : QArith_base.Q) :
  ∃ row,
    COMPARE_STEPS !! compareBucket formatted = Some row
    ∧ compare_steps_loop formatted (seq 0 (length COMPARE_STEPS)) = compare_row row.
Proof. apply compare_steps_loop_bucket. Qed.

Lemma compareBucket_spec (f : QArith_base.Q) :
  let number := QArith_base.inject_Z in
  let bucket := compareBucket f in
  (QArith_base.Qle (number 20) f ∧ bucket = 0%nat)
  ∨ (QArith_base.Qle (number 15) f ∧ QArith_base.Qlt f (number 20) ∧ bucket = 1%nat)
  ∨ (QArith_base.Qle (number 10) f ∧ QArith_base.Qlt f (number 15) ∧ bucket = 2%nat)
  ∨ (QArith_base.Qlt (number 0) f ∧ QArith_base.Qlt f (number 10) ∧ bucket = 3%nat)
  ∨ (QArith_base.Qeq f (number 0) ∧ bucket = 4%nat)
  ∨ (QArith_base.Qlt (number (-10)) f ∧ QArith_base.Qlt f (number 0) ∧ bucket = 5%nat)
  ∨ (QArith_base.Qlt (number (-15)) f ∧ QArith_base.Qle f (number (-10))
     ∧ bucket = 6%nat)
  ∨ (QArith_base.Qlt (number (-20)) f ∧ QArith_base.Qle f (number (-15))
     ∧ bucket = 7%nat)
  ∨ (QArith_base.Qle f (number (-20)) ∧ bucket = 8%nat).
Proof.
  cbv zeta. unfold compareBucket, Qltb. cbv zeta.
  destruct (QArith_base.Qle_bool (QArith_base.inject_Z 20) f) eqn:E20.
  { bool_to_Q. by left. }
  destruct (QArith_base.Qle_bool (QArith_base.inject_Z 15) f) eqn:E15.
  { bool_to_Q. right; left. done. }
  destruct (QArith_base.Qle_bool (QArith_base.inject_Z 10) f) eqn:E10.
  { bool_to_Q. do 2 right; left. done. }
  destruct (QArith_base.Qle_bool f (QArith_base.inject_Z 0)) eqn:E0; cbn [negb]; cbv iota.
  2:{ bool_to_Q. do 3 right; left. done. }
  destruct (QArith_base.Qeq_bool f (QArith_base.inject_Z 0)) eqn:Eeq.
  { bool_to_Q. do 4 right; left. done. }
  pose proof (Qle_bool_strict f (QArith_base.inject_Z 0) E0 Eeq) as Hstrict.
  destruct (QArith_base.Qle_bool f (QArith_base.inject_Z (-10))) eqn:En10;
    cbn [negb]; cbv iota.
  2:{ bool_to_Q. do 5 right; left. done. }
  destruct (QArith_base.Qle_bool f (QArith_base.inject_Z (-15))) eqn:En15;
    cbn [negb]; cbv iota.
  2:{ bool_to_Q. do 6 right; left. done. }
  destruct (QArith_base.Qle_bool f (QArith_base.inject_Z (-20))) eqn:En20;
    cbn [negb]; cbv iota.
  2:{ bool_to_Q. do 7 right; left. done. }
  bool_to_Q. do 8 right. done.
Qed.

Lemma compareBucket_antitone (f f' : QArith_base.Q) :
  QArith_base.Qle f f' → (compareBucket f' ≤ compareBucket f)%nat.
Proof.
  intros Hle.
  pose proof (compareBucket_spec f) as H. pose proof (compareBucket_spec f') as H'.
  cbv zeta in H, H'. unfold QArith_base.inject_Z in H, H'.
  destruct H as [H|[H|[H|[H|[H|[H|[H|[H|H]]]]]]]];
    destruct H' as [H'|[H'|[H'|[H'|[H'|[H'|[H'|[H'|H']]]]]]]];
    destruct_and!;
    repeat match goal with
           | H : compareBucket _ = _ |- _ => rewrite H; clear H
           end;
    try lia; exfalso; Lqa.lra.
Qed.

Lemma formattedTotalTime_monotone (delta t t' : QArith_base.Q) :
  QArith_base.Qle t t' →
  QArith_base.Qle (formattedTotalTime delta t) (formattedTotalTime delta t').
Proof.
  intros Hle. unfold formattedTotalTime, Qltb.
  destruct (QArith_base.Qle_bool delta (Qabs.Qabs t)) eqn:E;
    destruct (QArith_base.Qle_bool delta (Qabs.Qabs t')) eqn:E';
    cbn [negb]; bool_to_Q; unfold QArith_base.inject_Z;
    repeat match goal with
           | H : context [Qabs.Qabs ?x] |- _ =>
               revert H; apply Qabs.Qabs_case; intros
           end;
    Lqa.lra.
Qed.

Lemma COMPARE_STEPS_decreasing (i i' : nat) row row' :
  (i' ≤ i)%nat → COMPARE_STEPS !! i = Some row → COMPARE_STEPS !! i' = Some row' →
  cs_value row ≤ cs_value row'.
Proof.
  intros Hle Hi Hi'.
  do 9 (destruct i as [|i];
        [do 9 (destruct i' as [|i']; [simplify_eq/=; lia|]); lia|]).
  done.
Qed.

(** X18: [mapTimeToCompareColor] is monotone: of two total times, the
    greater one gets a row of [COMPARE_STEPS] whose value is not smaller,
    whatever the threshold below which a total time counts as zero. *)
Theorem compare_color_monotone (PERCENT_NEGLIGIBLE_DELTA t t' : QArith_base.Q) :
  QArith_base.Qle t t' →
  ∃ row row',
    mapTimeToCompareColor PERCENT_NEGLIGIBLE_DELTA t = compare_row row
    ∧ mapTimeToCompareColor PERCENT_NEGLIGIBLE_DELTA t' = compare_row row'
    ∧ cs_value row ≤ cs_value row'.
Proof.
  intros Hle. unfold mapTimeToCompareColor.
  pose proof (formattedTotalTime_monotone PERCENT_NEGLIGIBLE_DELTA t t' Hle) as Hf.
  apply compareBucket_antitone in Hf.
  destruct (compare_steps_loop_bucket (formattedTotalTime PERCENT_NEGLIGIBLE_DELTA t))
    as (row & Hrow & ->).
  destruct (compare_steps_loop_bucket (formattedTotalTime PERCENT_NEGLIGIBLE_DELTA t'))
    as (row' & Hrow' & ->).
  exists row, row'. split_and!; [done|done|].
  by eapply COMPARE_STEPS_decreasing.
Qed.

Lemma compare_color_monotone_witness :
  QArith_base.Qle (QArith_base.Qmake (-1) 8) (QArith_base.Qmake 1 4)
  ∧ ∃ row row',
      mapTimeToCompareColor (QArith_base.Qmake 1 1000) (QArith_base.Qmake (-1) 8)
      = compare_row row
      ∧ mapTimeToCompareColor (QArith_base.Qmake 1 1000) (QArith_base.Qmake 1 4)
        = compare_row row'
      ∧ cs_value row ≤ cs_value row'.
Proof.
  assert (H : QArith_base.Qle (QArith_base.Qmake (-1) 8) (QArith_base.Qmake 1 4))
    by (vm_compute; discriminate).
  split; [exact H|].
  exact (compare_color_monotone (QArith_base.Qmake 1 1000) _ _ H).
Defined.

(** * Shallow equality of objects *)

Lemma shallow_loop_forallb b entries n :
  shallow_loop b entries n
  = if forallb (λ kv : string * JsValue, strict_equals kv.2 (js_get b kv.1)) entries
    then Some (n + length entries)%nat else None.
Proof.
  revert n. induction entries as [|[key value] entries IH]; intros n; simpl.
  - by rewrite Nat.add_0_r.
  - destruct (strict_equals value (js_get b key)); simpl; [|done].
    rewrite IH. by rewrite Nat.add_succ_r.
Qed.

Lemma objectShallowEquals_true (a b : JsObject) :
  objectShallowEquals a b = true
  ↔ size (own_properties a) = size (own_properties b)
    ∧ ∀ key value, own_properties a !! key = Some value →
                   strict_equals value (js_get b key) = true.
Proof.
  unfold objectShallowEquals. rewrite shallow_loop_forallb. cbv zeta.
  rewrite !length_map_to_list.
  destruct (forallb _ (map_to_list (own_properties a))) eqn:E.
  - rewrite forallb_forall in E. rewrite Nat.eqb_eq. simpl. split.
    + intros Hs. split; [done|]. intros key value Hk.
      apply (E (key, value)). by apply list_elem_of_In, elem_of_map_to_list.
    + by intros [Hs _].
  - split; [done|]. intros [_ H]. exfalso.
    assert (Ht : forallb (λ kv : string * JsValue, strict_equals kv.2 (js_get b kv.1))
                   (map_to_list (own_properties a)) = true).
    { apply forallb_forall. intros [key value] Hin.
      apply list_elem_of_In, elem_of_map_to_list in Hin. by apply H. }
    congruence.
Qed.

(** X19: [objectShallowEquals] answers [true] exactly when the two objects
    have as many own properties and every own property of the first is
    strictly equal to what the second answers under its key, be it an own
    property, an inherited one or [undefined].  When no own property of the
    first object is [undefined], [NaN] or the value that the second object
    inherits under the same key, this is the equality of the own properties
    of the two objects, and then [updatePreviewSelection] dispatches
    exactly when they differ.  Otherwise it is not: a literal whose only
    property is [undefined] counts as equal to any literal with one
    property of another name, and so does a literal whose only property is
    the [constructor] it would inherit. *)
Theorem objectShallowEquals_spec (a b : JsObject) :
  (objectShallowEquals a b = true
   ↔ size (own_properties a) = size (own_properties b)
     ∧ ∀ key value, own_properties a !! key = Some value →
                    strict_equals value (js_get b key) = true)
  ∧ ((∀ key value, own_properties a !! key = Some value →
        value ≠ js_undefined ∧ value ≠ js_NaN
        ∧ inherited_properties b !! key ≠ Some value) →
     (objectShallowEquals a b = true ↔ own_properties a = own_properties b)
     ∧ (updatePreviewSelection a b = None ↔ own_properties a = own_properties b))
  ∧ objectShallowEquals (object_literal {[ "x"%string := js_undefined ]})
      (object_literal {[ "y"%string := js_number 1 ]}) = true
  ∧ objectShallowEquals (object_literal {[ "constructor"%string := js_reference 0 ]})
      (object_literal {[ "y"%string := js_number 1 ]}) = true.
Proof.
  split; [apply objectShallowEquals_true|].
  split; [|split; by vm_compute].
  intros Hdef.
  assert (Heq : objectShallowEquals a b = true ↔ own_properties a = own_properties b).
  { rewrite objectShallowEquals_true. split.
    - intros [Hsize Hall]. apply map_subseteq_size_eq; [|lia].
      apply map_subseteq_spec. intros key value Hk.
      specialize (Hall key value Hk). destruct (Hdef key value Hk) as (Hu & Hn & Hi).
      unfold strict_equals, js_get in Hall.
      destruct (own_properties b !! key) as [value'|]; simpl in Hall.
      + destruct value; try (apply bool_decide_eq_true in Hall; congruence); done.
      + destruct (inherited_properties b !! key) as [value'|]; simpl in Hall;
          destruct value; try (apply bool_decide_eq_true in Hall; congruence);
          congruence.
    - intros Hab. split; [by rewrite Hab|]. intros key value Hk.
      destruct (Hdef key value Hk) as (_ & Hn & _).
      unfold strict_equals, js_get. rewrite <- Hab, Hk.
      destruct value; try (by apply bool_decide_eq_true); congruence. }
  split; [done|]. unfold updatePreviewSelection.
  destruct (objectShallowEquals a b) eqn:E; simpl.
  - split; [|done]. intros _. by apply Heq.
  - split; [done|]. intros Hab. apply Heq in Hab. congruence.
Qed.

Lemma objectShallowEquals_spec_witness :
  (∀ key value,
     own_properties (object_literal {[ "start"%string := js_number 1 ]}) !! key
     = Some value →
     value ≠ js_undefined ∧ value ≠ js_NaN
     ∧ inherited_properties (object_literal {[ "start"%string := js_number 1 ]}) !! key
       ≠ Some value)
  ∧ updatePreviewSelection (object_literal {[ "start"%string := js_number 1 ]})
      (object_literal {[ "start"%string := js_number 1 ]}) = None.
Proof.
  assert (H : ∀ key value,
     own_properties (object_literal {[ "start"%string := js_number 1 ]}) !! key
     = Some value →
     value ≠ js_undefined ∧ value ≠ js_NaN
     ∧ inherited_properties (object_literal {[ "start"%string := js_number 1 ]}) !! key
       ≠ Some value).
  { intros key value Hk. simpl in Hk.
    apply lookup_singleton_Some in Hk as [<- <-]. by vm_compute. }
  split; [exact H|].
  destruct (objectShallowEquals_spec (object_literal {[ "start"%string := js_number 1 ]})
              (object_literal {[ "start"%string := js_number 1 ]})) as (_ & H2 & _).
  exact (proj2 (proj2 (H2 H)) eq_refl).
Defined.

(** * Actions on the selection *)

(** X20: [changeSelectedCallNode] throws exactly when an expanded path is
    given of which the selected path is not a prefix; otherwise the action
    carries the two paths as they were given. *)
Theorem changeSelectedCallNode_prefix (selected : CallNodePath)
    (expanded : option CallNodePath) :
  (changeSelectedCallNode selected expanded = None
   ↔ ∃ e, expanded = Some e ∧ ¬ selected `prefix_of` e)
  ∧ ∀ action, changeSelectedCallNode selected expanded = Some action →
              action = (selected, expanded).
Proof.
  unfold changeSelectedCallNode. destruct expanded as [e|].
  - assert (Hpre : forallb (λ i, bool_decide (selected !! i = e !! i))
                     (seq 0 (length selected)) = true ↔ selected `prefix_of` e).
    { rewrite forallb_forall. split.
      - intros H. exists (drop (length selected) e).
        apply list_eq. intros i.
        destruct (decide (i < length selected)%nat) as [Hi|Hi].
        + rewrite lookup_app_l by done.
          specialize (H i). rewrite bool_decide_eq_true in H. rewrite <- H; [done|].
          apply list_elem_of_In, elem_of_seq. lia.
        + rewrite lookup_app_r by lia. rewrite lookup_drop. f_equal. lia.
      - intros [k ->] i Hi. apply list_elem_of_In, elem_of_seq in Hi.
        apply bool_decide_eq_true. by rewrite lookup_app_l by lia. }
    destruct (forallb _ _) eqn:E.
    + split.
      * split; [done|]. intros (e' & [= <-] & Hn). destruct Hn. by apply Hpre.
      * by intros action [= <-].
    + split; [|done]. split; [|done]. intros _. exists e. split; [done|].
      intros Hp. apply Hpre in Hp. congruence.
  - split; [|by intros action [= <-]]. split; [done|]. by intros (e & ? & _).
Qed.

Lemma changeSelectedCallNode_prefix_witness :
  changeSelectedCallNode [1; 2]%nat (Some [1; 2; 3]%nat)
  = Some ([1; 2]%nat, Some [1; 2; 3]%nat)
  ∧ changeSelectedCallNode [1; 2]%nat (Some [1]%nat) = None.
Proof.
  split; [reflexivity|].
  apply (proj2 (proj1 (changeSelectedCallNode_prefix [1; 2]%nat (Some [1]%nat)))).
  exists [1]%nat. split; [reflexivity|]. intros [k Hk]. discriminate Hk.
Defined.

Lemma expanded_fold (expandedCallNodeIndexes : list (option nat)) (acc : gset nat) d :
  d ∈ foldl (λ (descendants : gset nat) callNodeIndex,
               match callNodeIndex with
               | Some callNodeIndex => {[ callNodeIndex ]} ∪ descendants
               | None => descendants
               end) acc expandedCallNodeIndexes
  ↔ d ∈ acc ∨ Some d ∈ expandedCallNodeIndexes.
Proof.
  revert acc. induction expandedCallNodeIndexes as [|e l IH]; intros acc; simpl.
  - split; [by left|]. intros [?|H]; [done|]. by apply elem_of_nil in H.
  - rewrite IH, elem_of_cons. destruct e as [c|].
    + rewrite elem_of_union, elem_of_singleton. split.
      * intros [[->|?]|?]; [right; by left|by left|right; by right].
      * intros [?|[[= ->]|?]]; [left; by right|left; by left|by right].
    + split; [intros [?|?]; [by left|right; by right]|].
      intros [?|[?|?]]; [by left|done|by right].
Qed.

(** X21: on a tree whose cache starts empty, [expandAllCallNodeDescendants]
    expands the call node, the rows below it in the tree, and every call
    node that was expanded before, and nothing else: it never collapses a
    call node. *)
Theorem expandAllCallNodeDescendants_spec (t0 t : CallTree) (callNodeIndex : nat)
    (expanded : list (option nat)) (fuel : nat) :
  _children t0 = ∅ → queried_from t0 t →
  (cn_length (_callNodeTable t0) < fuel)%nat →
  ∃ set t',
    expandAllCallNodeDescendants fuel t callNodeIndex expanded = Some (set, t')
    ∧ ∀ d, d ∈ set
           ↔ d = callNodeIndex ∨ descendant t0 (Z.of_nat callNodeIndex) d
             ∨ Some d ∈ expanded.
Proof.
  intros He Hq Hfuel. unfold expandAllCallNodeDescendants, getAllDescendants.
  destruct (addDescendants_spec t0 He fuel t (Z.of_nat callNodeIndex) ∅ Hq)
    as (s & t' & -> & _ & Hs); [lia|].
  simpl. eexists _, _. split; [done|]. intros d.
  rewrite expanded_fold, elem_of_union, elem_of_singleton, Hs.
  split; [intros [[?|[Hd|?]]|?]|intros [?|[?|?]]]; try tauto.
  by apply elem_of_empty in Hd.
Qed.

Lemma expandAllCallNodeDescendants_spec_witness :
  _children Scenario.tree = ∅
  ∧ (cn_length (_callNodeTable Scenario.tree) < 4)%nat
  ∧ ∃ set t',
      expandAllCallNodeDescendants 4 Scenario.tree 1 [Some 0%nat; None]
      = Some (set, t')
      ∧ 0%nat ∈ set.
Proof.
  assert (Hf : (cn_length (_callNodeTable Scenario.tree) < 4)%nat) by (vm_compute; lia).
  destruct (expandAllCallNodeDescendants_spec Scenario.tree Scenario.tree 1
              [Some 0%nat; None] 4 eq_refl (queried_refl _) Hf) as (s & t' & H1 & H2).
  split; [reflexivity|]. split; [exact Hf|]. exists s, t'. split; [exact H1|].
  apply H2. right. right. apply list_elem_of_here.
Defined.

(** * Substitutions that rename *)

Lemma substitutedPaths_single (m : FuncToFuncsMap) (p : list nat) :
  (∀ leaf, last p = Some leaf → (length (funcSubstitution m leaf) ≤ 1)%nat) →
  substitutedPaths m p = [applyFuncSubstitutionToCallPath m p].
Proof.
  intros H. unfold substitutedPaths. cbv zeta.
  destruct (last p) as [leaf|] eqn:El.
  - rewrite applyFuncSubstitution_singleton.
    specialize (H leaf eq_refl).
    destruct (Nat.ltb_spec 1 (length (funcSubstitution m leaf))); [lia|done].
  - done.
Qed.

Lemma pathSet_substitution_elem (m : FuncToFuncsMap) (pathSet : PathSet) (q : list nat) :
  q ∈ applyFuncSubstitutionToPathSetAndIncludeNewAncestors m pathSet
  ↔ ∃ p, p ∈ pathSet ∧ q ∈ substitutedPaths m p.
Proof.
  unfold applyFuncSubstitutionToPathSetAndIncludeNewAncestors.
  rewrite newPathSet_fold, app_nil_l, elem_of_list_to_set, list_elem_of_bind.
  split; intros (p & H1 & H2); exists p; [by rewrite <- elem_of_elements|
                                          by rewrite elem_of_elements].
Qed.

(** X22: a substitution that maps every func to a list of one func is a
    renaming: the substituted path has the length of the path, and the new
    path set holds the substituted paths of the old set and no ancestor
    more; with the empty map both functions return what they are given. *)
Theorem func_substitution_renaming (m : FuncToFuncsMap) :
  (∀ f fs, m !! f = Some fs → length fs = 1%nat) →
  (∀ path, length (applyFuncSubstitutionToCallPath m path) = length path)
  ∧ (∀ pathSet q,
       q ∈ applyFuncSubstitutionToPathSetAndIncludeNewAncestors m pathSet
       ↔ ∃ p, p ∈ pathSet ∧ q = applyFuncSubstitutionToCallPath m p)
  ∧ (∀ path, applyFuncSubstitutionToCallPath ∅ path = path)
  ∧ (∀ pathSet, applyFuncSubstitutionToPathSetAndIncludeNewAncestors ∅ pathSet = pathSet).
Proof.
  intros Hm.
  assert (Hone : ∀ (m' : FuncToFuncsMap), (∀ f fs, m' !! f = Some fs → length fs = 1%nat) →
            ∀ f, length (funcSubstitution m' f) = 1%nat).
  { intros m' Hm' f. unfold funcSubstitution.
    destruct (m' !! f) as [fs|] eqn:E; simpl; [by eapply Hm'|done]. }
  assert (Hset : ∀ (m' : FuncToFuncsMap), (∀ f fs, m' !! f = Some fs → length fs = 1%nat) →
            ∀ pathSet q,
              q ∈ applyFuncSubstitutionToPathSetAndIncludeNewAncestors m' pathSet
              ↔ ∃ p, p ∈ pathSet ∧ q = applyFuncSubstitutionToCallPath m' p).
  { intros m' Hm' pathSet q. rewrite pathSet_substitution_elem.
    split; intros (p & Hp & Hq); exists p; (split; [done|]).
    - rewrite substitutedPaths_single in Hq.
      + by apply list_elem_of_singleton in Hq.
      + intros leaf _. by rewrite (Hone m' Hm').
    - rewrite substitutedPaths_single.
      + by apply list_elem_of_singleton.
      + intros leaf _. by rewrite (Hone m' Hm'). }
  assert (Hid : ∀ path, applyFuncSubstitutionToCallPath ∅ path = path).
  { intros path. rewrite applyFuncSubstitution_bind.
    induction path as [|f path IH]; [done|].
    rewrite bind_cons, IH. unfold funcSubstitution. by rewrite lookup_empty. }
  split_and!.
  - intros path. rewrite applyFuncSubstitution_bind.
    induction path as [|f path IH]; [done|].
    rewrite bind_cons, length_app, IH, (Hone m Hm). done.
  - by apply Hset.
  - exact Hid.
  - intros pathSet. apply set_eq. intros q. rewrite Hset.
    + split; [intros (p & Hp & ->); by rewrite Hid|].
      intros Hq. exists q. by rewrite Hid.
    + intros f fs Hf. by rewrite lookup_empty in Hf.
Qed.

Lemma func_substitution_renaming_witness :
  (∀ f fs, ({[ 7%nat := [8%nat] ]} : FuncToFuncsMap) !! f = Some fs → length fs = 1%nat)
  ∧ length (applyFuncSubstitutionToCallPath {[ 7%nat := [8%nat] ]} [1; 7; 3]%nat) = 3%nat.
Proof.
  assert (H : ∀ f fs, ({[ 7%nat := [8%nat] ]} : FuncToFuncsMap) !! f = Some fs →
                      length fs = 1%nat).
  { intros f fs Hf. apply lookup_singleton_Some in Hf as [_ <-]. reflexivity. }
  split; [exact H|].
  exact (proj1 (func_substitution_renaming {[ 7%nat := [8%nat] ]} H) [1; 7; 3]%nat).
Defined.

(** * The samples behind a self weight *)

(** X23: without inversion, and for whole-number weights whose absolute
    values add up to at most [2 ^ 24], the self weight of a call node is the
    weight of the samples whose stack is that call node; the leaf weight is
    the self weight, whatever the weights. *)
Theorem self_is_weight_of_own_samples samples info interval (j : nat) :
  (j < cn_length (callNodeTable info))%nat →
  let entries := getSampleIndexToCallNodeIndex (s_stack samples)
                   (stackIndexToCallNodeIndex info) in
  (samples_wfb samples info = true → magnitudeOfNonNullStacks samples ≤ 2 ^ 24 →
   self (callNodeSummary (computeCallTreeCountsAndSummary samples info interval false))
     !! j
   = Some (weightOfSamples samples entries (λ c, bool_decide (c = j))))
  ∧ leafWeights samples info false
    = self (callNodeSummary (computeCallTreeCountsAndSummary samples info interval false)).
Proof.
  intros Hj entries. split; [|done]. intros Hs Hmag.
  pose proof (selfWeights_length samples info interval false) as Hlen.
  destruct (lookup_lt_is_Some_2 _ j ltac:(rewrite Hlen; exact Hj)) as [x Hx].
  rewrite Hx. f_equal.
  unfold computeCallTreeCountsAndSummary in Hx. simpl in Hx.
  unfold _getStackSelf in Hx. simpl in Hx. fold entries in Hx.
  pose proof (stackSelf_fold_at samples (imap pair entries)
                (zeros (cn_length (callNodeTable info))) j
                ltac:(by rewrite length_zeros)
                (zeros_entries_magnitude samples info _ Hs Hmag)) as H.
  rewrite Hx in H. simpl in H. unfold zeros in H at 1.
  rewrite lookup_replicate_2 in H by done. simpl in H.
  unfold weightOfSamples. lia.
Qed.

Lemma self_is_weight_of_own_samples_witness :
  (2 < cn_length (callNodeTable DiffScenario.info))%nat
  ∧ samples_wfb DiffScenario.samples DiffScenario.info = true
  ∧ magnitudeOfNonNullStacks DiffScenario.samples ≤ 2 ^ 24
  ∧ self (callNodeSummary
            (computeCallTreeCountsAndSummary DiffScenario.samples DiffScenario.info 1
               false)) !! 2%nat
    = Some (weightOfSamples DiffScenario.samples
              (getSampleIndexToCallNodeIndex (s_stack DiffScenario.samples)
                 (stackIndexToCallNodeIndex DiffScenario.info))
              (λ c, bool_decide (c = 2%nat))).
Proof.
  assert (H : (2 < cn_length (callNodeTable DiffScenario.info))%nat) by (vm_compute; lia).
  assert (Hs : samples_wfb DiffScenario.samples DiffScenario.info = true) by reflexivity.
  assert (Hmag : magnitudeOfNonNullStacks DiffScenario.samples ≤ 2 ^ 24)
    by (vm_compute; discriminate).
  split; [exact H|]. split; [exact Hs|]. split; [exact Hmag|].
  exact (proj1 (self_is_weight_of_own_samples DiffScenario.samples DiffScenario.info 1
                  2 H) Hs Hmag).
Defined.

Lemma invertedSelf_fold_leaf_at samples ctr es acc (j : nat) :
  (j < length (callNodeLeaf acc))%nat →
  sumZ (Z.abs <$> callNodeSelf acc) + entries_magnitude samples es ≤ 2 ^ 24 →
  sumZ (Z.abs <$> callNodeLeaf acc) + entries_magnitude samples es ≤ 2 ^ 24 →
  default 0 (callNodeLeaf (foldl (invertedSelf_step samples ctr) acc es) !! j)
  = default 0 (callNodeLeaf acc !! j)
    + sumZ ((λ e : nat * option nat,
               match e.2 with
               | Some c => if bool_decide (c = j) then sample_weight samples e.1 else 0
               | None => 0
               end) <$> es).
Proof.
  revert acc. induction es as [|e es IH]; intros acc Hj Hbs Hbl.
  - unfold sumZ. simpl. lia.
  - rewrite entries_magnitude_cons in Hbs, Hbl.
    pose proof (entries_magnitude_nonneg samples es) as Hnn.
    destruct (invertedSelf_step_small samples ctr acc e ltac:(lia) ltac:(lia))
      as (Hstep & Hms & Hml).
    rewrite fmap_cons. simpl foldl. rewrite IH; [| |lia|lia].
    + rewrite Hstep. destruct (e.2) as [c|]; [|unfold sumZ; simpl; lia].
      simpl callNodeLeaf.
      destruct (lookup_lt_is_Some_2 _ j Hj) as [x Hx].
      rewrite lookup_arr_upd, Hx.
      case_bool_decide as H1; case_bool_decide as H2; try lia;
        unfold sumZ; simpl; lia.
    + unfold invertedSelf_step. destruct (e.2) as [c|]; [|done]. simpl.
      by rewrite length_arr_add.
Qed.

(** X24: in an inverted tree, and for whole-number weights whose absolute
    values add up to at most [2 ^ 24], the leaf weight of a call node is
    the weight of the samples whose stack is that call node; and on a
    parent-before-child table the root column that [_getInvertedStackSelf]
    computes holds for every call node the root at the end of its chain of
    prefixes. *)
Theorem inverted_leaf_is_weight_of_own_samples samples info (j : nat) :
  let table := callNodeTable info in
  let entries := getSampleIndexToCallNodeIndex (s_stack samples)
                   (stackIndexToCallNodeIndex info) in
  (j < cn_length table)%nat →
  (samples_wfb samples info = true → magnitudeOfNonNullStacks samples ≤ 2 ^ 24 →
   leafWeights samples info true !! j
   = Some (weightOfSamples samples entries (λ c, bool_decide (c = j))))
  ∧ (table_wfb table = true →
     ∀ c, (c < cn_length table)%nat →
          ∃ r : nat, computeCallNodeToRoot table !! c = Some (Z.of_nat r)
                     ∧ root_of table c r).
Proof.
  intros table entries Hj. split.
  - intros Hs Hmag.
    pose proof (leafWeights_length samples info true) as Hlen.
    destruct (lookup_lt_is_Some_2 _ j ltac:(rewrite Hlen; exact Hj)) as [x Hx].
    rewrite Hx. f_equal.
    unfold leafWeights, _getInvertedStackSelf in Hx. fold table entries in Hx.
    pose proof (zeros_entries_magnitude samples info (cn_length table) Hs Hmag)
      as Hzero.
    pose proof (invertedSelf_fold_leaf_at samples (computeCallNodeToRoot table)
                  (imap pair entries)
                  (mkStackSelf (zeros (cn_length table)) (zeros (cn_length table))) j
                  ltac:(simpl; by rewrite length_zeros) Hzero Hzero) as H.
    rewrite Hx in H. simpl in H. unfold zeros in H at 1.
    rewrite lookup_replicate_2 in H by done. simpl in H.
    unfold weightOfSamples. lia.
  - intros Hwf c Hc. by apply computeCallNodeToRoot_root_of.
Qed.

Lemma inverted_leaf_is_weight_of_own_samples_witness :
  (2 < cn_length (callNodeTable Scenario.info))%nat
  ∧ samples_wfb Scenario.samples Scenario.info = true
  ∧ magnitudeOfNonNullStacks Scenario.samples ≤ 2 ^ 24
  ∧ table_wfb (callNodeTable Scenario.info) = true
  ∧ leafWeights Scenario.samples Scenario.info true !! 2%nat = Some 3
  ∧ ∃ r : nat, computeCallNodeToRoot (callNodeTable Scenario.info) !! 2%nat
               = Some (Z.of_nat r)
               ∧ root_of (callNodeTable Scenario.info) 2 r.
Proof.
  assert (H2 : (2 < cn_length (callNodeTable Scenario.info))%nat) by (vm_compute; lia).
  assert (Hmag : magnitudeOfNonNullStacks Scenario.samples ≤ 2 ^ 24)
    by (vm_compute; discriminate).
  destruct (inverted_leaf_is_weight_of_own_samples Scenario.samples Scenario.info
              2 H2) as [H1 H3].
  split; [exact H2|]. split; [reflexivity|]. split; [exact Hmag|].
  split; [reflexivity|]. split; [exact (H1 eq_refl Hmag)|].
  exact (H3 eq_refl 2%nat H2).
Defined.

(** * The weight type and the traced timing *)

(** X25: [computeTracedTiming] returns a timing only for a table whose
    weight type the selectors report as ["samples"]; but a table whose
    [weightType] is absent, which they report as ["samples"] too, gets
    [null]. *)
Theorem traced_timing_weight_type samples info interval invertCallstack :
  (computeTracedTiming samples info interval invertCallstack ≠ None →
   getWeightTypeForCallTree samples = "samples"%string
   ∧ s_weight (tsm_table samples) = None)
  ∧ (tsm_weightType samples = None →
     getWeightTypeForCallTree samples = "samples"%string
     ∧ computeTracedTiming samples info interval invertCallstack = None).
Proof.
  unfold computeTracedTiming, getWeightTypeForCallTree. split.
  - intros H. case_bool_decide as Hw.
    + rewrite Hw. simpl. split; [done|]. simpl in H.
      destruct (s_weight (tsm_table samples)); [|done].
      rewrite bool_decide_eq_true_2 in H by eauto. done.
    + done.
  - intros ->. split; [done|]. by rewrite bool_decide_eq_false_2.
Qed.

Lemma traced_timing_weight_type_witness :
  computeTracedTiming timedScenario Scenario.info 1 false ≠ None
  ∧ getWeightTypeForCallTree timedScenario = "samples"%string
  ∧ computeTracedTiming (mkTimedSamples Scenario.samples [10; 12; 17] None)
      Scenario.info 1 false = None.
Proof.
  assert (H : computeTracedTiming timedScenario Scenario.info 1 false ≠ None)
    by (vm_compute; discriminate).
  split; [exact H|].
  split.
  - exact (proj1 (proj1 (traced_timing_weight_type timedScenario Scenario.info 1 false) H)).
  - exact (proj2 (proj2 (traced_timing_weight_type
                           (mkTimedSamples Scenario.samples [10; 12; 17] None)
                           Scenario.info 1 false) eq_refl)).
Defined.

(** * The cache of the thread selectors *)

Section SelectorsCache_facts.
Context (MemoState : Type) (getThreadsKey : gset nat → string).
Context (merged : string → MemoState → nat → nat * MemoState * nat).

Local Abbreviation getThreadSelectors' := (getThreadSelectors MemoState getThreadsKey merged).
Local Abbreviation afterCalls' := (afterCalls MemoState getThreadsKey merged).
Local Abbreviation Store := (SelectorsStore MemoState).

Lemma getSingleThreadSelectors_cached (i j : nat) (store : Store) selectors :
  _threadSelectorsCache MemoState store !! i = Some selectors →
  _threadSelectorsCache MemoState (getSingleThreadSelectors MemoState j store).2 !! i
  = Some selectors.
Proof.
  intros Hi. unfold getSingleThreadSelectors.
  destruct (_threadSelectorsCache MemoState store !! j) eqn:Ej; simpl; [done|].
  rewrite lookup_insert_ne; [done|]. intros ->. congruence.
Qed.

Lemma getThreadSelectors_cached call (i : nat) (store : Store) selectors r :
  _threadSelectorsCache MemoState store !! i = Some selectors →
  getThreadSelectors' call store = Some r →
  _threadSelectorsCache MemoState r.2 !! i = Some selectors.
Proof.
  intros Hi. destruct call as [j|s]; simpl.
  - intros [= <-]. by apply getSingleThreadSelectors_cached.
  - unfold getThreadSelectorsFromThreadsKey.
    destruct (size s =? 1)%nat.
    + destruct (elements s) as [|j ?]; [done|]. intros [= <-].
      by apply getSingleThreadSelectors_cached.
    + by intros [= <-].
Qed.

Lemma afterCalls_cached calls (i : nat) (store : Store) selectors :
  _threadSelectorsCache MemoState store !! i = Some selectors →
  _threadSelectorsCache MemoState (afterCalls' calls store) !! i = Some selectors.
Proof.
  revert store. induction calls as [|call calls IH]; intros store Hi; [done|].
  simpl. apply IH.
  destruct (getThreadSelectors' call store) as [r|] eqn:E; [|done].
  by eapply getThreadSelectors_cached.
Qed.

(** X26: the selectors of a single thread are kept forever: once
    [getThreadSelectors] has returned the selectors of a thread index, every
    later call for that index, or for the set that holds only that index,
    returns the same object without building anything, whatever calls were
    made in between. *)
Theorem thread_selectors_cached_forever (threadIndex : nat) (store : Store)
    (calls : list (nat + gset nat)) :
  ∃ selectors store1,
    getThreadSelectors MemoState getThreadsKey merged (inl threadIndex) store
    = Some (selectors, store1)
    ∧ let store2 := afterCalls MemoState getThreadsKey merged calls store1 in
      getThreadSelectors MemoState getThreadsKey merged (inl threadIndex) store2
      = Some (selectors, store2)
      ∧ getThreadSelectors MemoState getThreadsKey merged (inr {[ threadIndex ]}) store2
        = Some (selectors, store2).
Proof.
  eexists _, _. split; [simpl; apply f_equal, surjective_pairing|]. cbv zeta.
  set (r := getSingleThreadSelectors MemoState threadIndex store).
  assert (Hc : _threadSelectorsCache MemoState r.2 !! threadIndex = Some r.1).
  { unfold r, getSingleThreadSelectors.
    destruct (_threadSelectorsCache MemoState store !! threadIndex) eqn:E; simpl; [done|].
    by rewrite lookup_insert_eq. }
  pose proof (afterCalls_cached calls threadIndex r.2 r.1 Hc) as Hc2.
  assert (Hs : getSingleThreadSelectors MemoState threadIndex (afterCalls' calls r.2)
               = (r.1, afterCalls' calls r.2)).
  { unfold getSingleThreadSelectors at 1. by rewrite Hc2. }
  split.
  - simpl. by rewrite Hs.
  - simpl. unfold getThreadSelectorsFromThreadsKey.
    rewrite size_singleton, elements_singleton. simpl. by rewrite Hs.
Qed.

End SelectorsCache_facts.

(** * A tree compared with itself *)

(** X27: when the rolling path hashes of the call nodes of a tree are
    pairwise different, the correspondence table of the tree with itself
    maps every call node to itself. *)
Theorem self_comparison_is_identity (cyrb53 : string → N)
    (getFileNameAnnotationForFunc : option nat → Thread → string)
    (t : CallTree) (i : nat) :
  (i < cn_length (_callNodeTable t))%nat →
  (∀ j j', (j < cn_length (_callNodeTable t))%nat →
           (j' < cn_length (_callNodeTable t))%nat →
           rollingHash cyrb53 getFileNameAnnotationForFunc t j
           = rollingHash cyrb53 getFileNameAnnotationForFunc t j' → j = j') →
  getCallNodeIndexToCompareCallNodeIndexTable cyrb53 getFileNameAnnotationForFunc t t
    !! i = Some (Some i).
Proof.
  intros Hi Hinj. unfold getCallNodeIndexToCompareCallNodeIndexTable. cbv zeta.
  rewrite selected_loop_table. destruct (decide (i < cn_length (_callNodeTable t))%nat);
    [|done].
  f_equal. apply compare_loop_cache. split_and!; [done|done|].
  intros j' Hj' Heq. apply Hinj in Heq; lia.
Qed.

Lemma self_comparison_is_identity_witness :
  (1 < cn_length (_callNodeTable Scenario.tree))%nat
  ∧ getCallNodeIndexToCompareCallNodeIndexTable
      (λ s, (default 0 (parse_digits s None) + 1)%N) (λ _ _, "a"%string)
      Scenario.tree Scenario.tree !! 1%nat = Some (Some 1%nat).
Proof.
  assert (H : (1 < cn_length (_callNodeTable Scenario.tree))%nat) by (vm_compute; lia).
  split; [exact H|].
  apply (self_comparison_is_identity
           (λ s, (default 0 (parse_digits s None) + 1)%N) (λ _ _, "a"%string)
           Scenario.tree 1 H).
  intros j j' Hj Hj'.
  destruct j as [|[|[|j]]]; [| | |vm_compute in Hj; lia];
    (destruct j' as [|[|[|j']]]; [| | |vm_compute in Hj'; lia]);
    vm_compute; intros Heq; first [reflexivity|discriminate Heq].
Defined.
